(** * go-config: path-addressed reads and writes into Go values

    A shallow embedding of [config.go] and [error.go].

    The engine works on [reflect.Value]s.  A Go value is modelled as an
    ownership tree: a pointer owns its pointee, a map owns its entries, an
    interface owns its dynamic value.  Mutation in place (through [Set] and
    [SetMapIndex]) is modelled by explicit state passing: [write] returns,
    next to the [reflect.Value] the Go function returns, the contents of the
    storage of the inspected element after the call.  Two pointers of a tree
    never have the same pointee; [Shared] has the engine on a store of
    variables, where they can.

    Types are the unnamed types built from the predeclared ones by struct,
    map, pointer and function types and the empty interface, as finite trees
    (a recursive type is unfolded as deep as the data needs); maps have
    [string] keys; arrays, slices and channels are outside the model;
    [int], [uint] and [uintptr] are 64 bits wide.  A struct field is
    declared with a name of its own (embedded fields are outside the
    model).  Case folding ([strings.EqualFold]), the test for exported
    names and floating point are left abstract ([Library]), and so is the
    order in which a map is visited ([Runtime]).  A call returns or
    panics. *)

From Stdlib Require Import List String Ascii ZArith Bool Lia Permutation.
From Stdlib Require Import Decimal DecimalString.
Import ListNotations.
Open Scope string_scope.
Open Scope Z_scope.

Set Warnings "-register-all".

(** ** Strings *)

Module Strings.

(** ASCII lower-casing of one byte. *)
Definition lower (c : ascii) : ascii :=
  let n := nat_of_ascii c in
  if (andb (Nat.leb 65 n) (Nat.leb n 90)) then ascii_of_nat (n + 32) else c.

Fixpoint ToLower (s : string) : string :=
  match s with
  | EmptyString => EmptyString
  | String c r => String (lower c) (ToLower r)
  end.

(** [strings.EqualFold] on strings of ASCII bytes: the two are equal once
    their letters are lower-cased. *)
Definition EqualFoldASCII (s t : string) : bool := String.eqb (ToLower s) (ToLower t).

(** [strings.Split(s, sep)] for a one-byte separator: the pieces between the
    separators, in order; [n] separators give [n + 1] pieces. *)
Fixpoint Split (s : string) (sep : ascii) : list string :=
  match s with
  | EmptyString => [EmptyString]
  | String c r =>
      if Ascii.eqb c sep then EmptyString :: Split r sep
      else match Split r sep with
           | [] => [String c EmptyString]
           | p :: ps => String c p :: ps
           end
  end.

(** [strings.Join]. *)
Fixpoint Join (l : list string) (sep : string) : string :=
  match l with
  | [] => EmptyString
  | [a] => a
  | a :: r => a ++ sep ++ Join r sep
  end.

(** Does the byte [c] occur in [s]? *)
Fixpoint Contains (s : string) (c : ascii) : bool :=
  match s with
  | EmptyString => false
  | String a r => Ascii.eqb a c || Contains r c
  end.

(** A name of ASCII bytes is exported when it starts with an upper-case
    letter. *)
Definition IsExportedASCII (name : string) : bool :=
  match name with
  | EmptyString => false
  | String c _ => let n := nat_of_ascii c in andb (Nat.leb 65 n) (Nat.leb n 90)
  end.

End Strings.

(** ** strconv and rune conversion *)

Module Strconv.

(** [strconv.FormatInt(z, 10)]. *)
Definition FormatInt (z : Z) : string := NilZero.string_of_int (Z.to_int z).

Definition FormatBool (b : bool) : string := if b then "true" else "false".

Definition byte (z : Z) : ascii := ascii_of_nat (Z.to_nat z).

Definition RuneError : string :=
  String (byte 239) (String (byte 191) (String (byte 189) EmptyString)).

(** [string(rune(r))]: the UTF-8 encoding of [r], or of U+FFFD when [r] is
    not a valid code point. *)
Definition encodeRune (r : Z) : string :=
  if r <? 0 then RuneError
  else if r <? 128 then String (byte r) EmptyString
  else if r <? 2048 then
    String (byte (Z.lor 192 (Z.shiftr r 6)))
      (String (byte (Z.lor 128 (Z.land r 63))) EmptyString)
  else if (55296 <=? r) && (r <=? 57343) then RuneError
  else if r <? 65536 then
    String (byte (Z.lor 224 (Z.shiftr r 12)))
      (String (byte (Z.lor 128 (Z.land (Z.shiftr r 6) 63)))
         (String (byte (Z.lor 128 (Z.land r 63))) EmptyString))
  else if r <=? 1114111 then
    String (byte (Z.lor 240 (Z.shiftr r 18)))
      (String (byte (Z.lor 128 (Z.land (Z.shiftr r 12) 63)))
         (String (byte (Z.lor 128 (Z.land (Z.shiftr r 6) 63)))
            (String (byte (Z.lor 128 (Z.land r 63))) EmptyString)))
  else RuneError.

(** Conversion of an integer to [string] ([cvtIntString], [cvtUintString]):
    the rune when the integer fits one, U+FFFD otherwise. *)
Definition cvtIntString (x : Z) : string :=
  if (-2147483648 <=? x) && (x <=? 2147483647) then encodeRune x else RuneError.

End Strconv.

(** ** Types, kinds and values *)

Inductive ikind :=
  | Int | Int8 | Int16 | Int32 | Int64
  | Uint | Uint8 | Uint16 | Uint32 | Uint64 | Uintptr.

Inductive fkind := F32 | F64.

Inductive type :=
  | TBool
  | TInt (k : ikind)
  | TFloat (k : fkind)
  | TComplex (k : fkind)
  | TString
  | TStruct (fields : list (string * type))
  | TMap (elem : type)
  | TPtr (elem : type)
  | TInterface
  | TFunc (sig : string).

(** [reflect.Kind]. *)
Inductive kind :=
  | Invalid | Bool | KInt (k : ikind) | KFloat (k : fkind) | KComplex (k : fkind)
  | KString | Struct | Map | Ptr | Interface | Func.

(** A Go value.  Floats are their IEEE bit patterns.  A non-nil pointer
    holds its pointee, a non-nil map its entries in some order, a non-nil
    interface its dynamic value (which is never itself an interface). *)
Inductive value :=
  | VBool (b : bool)
  | VInt (k : ikind) (z : Z)
  | VFloat (k : fkind) (bits : Z)
  | VComplex (k : fkind) (re im : Z)
  | VString (s : string)
  | VStruct (fields : list (string * value))
  | VNilMap (elem : type)
  | VMap (elem : type) (entries : list (string * value))
  | VNilPtr (elem : type)
  | VPtr (pointee : value)
  | VNilIface
  | VIface (dyn : value)
  | VFunc (sig : string).

Fixpoint typeOf (v : value) : type :=
  match v with
  | VBool _ => TBool
  | VInt k _ => TInt k
  | VFloat k _ => TFloat k
  | VComplex k _ _ => TComplex k
  | VString _ => TString
  | VStruct fs => TStruct (map (fun nv => (fst nv, typeOf (snd nv))) fs)
  | VNilMap t => TMap t
  | VMap t _ => TMap t
  | VNilPtr t => TPtr t
  | VPtr p => TPtr (typeOf p)
  | VNilIface => TInterface
  | VIface _ => TInterface
  | VFunc s => TFunc s
  end.

Definition kindOfType (t : type) : kind :=
  match t with
  | TBool => Bool
  | TInt k => KInt k
  | TFloat k => KFloat k
  | TComplex k => KComplex k
  | TString => KString
  | TStruct _ => Struct
  | TMap _ => Map
  | TPtr _ => Ptr
  | TInterface => Interface
  | TFunc _ => Func
  end.

(** The zero value of a type ([reflect.New(t).Elem()], [reflect.Zero]). *)
Fixpoint zero (t : type) : value :=
  match t with
  | TBool => VBool false
  | TInt k => VInt k 0
  | TFloat k => VFloat k 0
  | TComplex k => VComplex k 0 0
  | TString => VString ""
  | TStruct fs => VStruct (map (fun nt => (fst nt, zero (snd nt))) fs)
  | TMap t => VNilMap t
  | TPtr t => VNilPtr t
  | TInterface => VNilIface
  | TFunc s => VFunc s
  end.

Definition ikind_eqb (a b : ikind) : bool :=
  match a, b with
  | Int, Int | Int8, Int8 | Int16, Int16 | Int32, Int32 | Int64, Int64
  | Uint, Uint | Uint8, Uint8 | Uint16, Uint16 | Uint32, Uint32
  | Uint64, Uint64 | Uintptr, Uintptr => true
  | _, _ => false
  end.

Definition fkind_eqb (a b : fkind) : bool :=
  match a, b with
  | F32, F32 | F64, F64 => true
  | _, _ => false
  end.

(** Type identity. *)
Fixpoint type_eqb (a b : type) : bool :=
  match a, b with
  | TBool, TBool => true
  | TInt k, TInt k' => ikind_eqb k k'
  | TFloat k, TFloat k' => fkind_eqb k k'
  | TComplex k, TComplex k' => fkind_eqb k k'
  | TString, TString => true
  | TStruct fs, TStruct gs =>
      (fix fields (fs gs : list (string * type)) : bool :=
         match fs, gs with
         | [], [] => true
         | (n, t) :: fs', (m, u) :: gs' =>
             String.eqb n m && type_eqb t u && fields fs' gs'
         | _, _ => false
         end) fs gs
  | TMap t, TMap u => type_eqb t u
  | TPtr t, TPtr u => type_eqb t u
  | TInterface, TInterface => true
  | TFunc s, TFunc s' => String.eqb s s'
  | _, _ => false
  end.

(** ** What the engine takes from Go

    The functions of the language and of its library that the engine calls
    and the model leaves abstract.  [strings.EqualFold] compares two strings
    rune by rune under Unicode simple case folding: it is an equivalence of
    strings, and only the empty string is equal to the empty string under
    it.  A field is exported when its name starts with an upper-case letter,
    of any script.  Floats are converted and formatted by the language and
    by [strconv]. *)

Class Library := {
  EqualFold : string -> string -> bool;
  EqualFold_refl : forall s, EqualFold s s = true;
  EqualFold_sym : forall s t, EqualFold s t = EqualFold t s;
  EqualFold_trans : forall s t u,
    EqualFold s t = true -> EqualFold t u = true -> EqualFold s u = true;
  EqualFold_nil : forall s, EqualFold "" s = true -> s = "";
  (** is the field of this name exported? *)
  IsExported : string -> bool;
  (** conversion of an integer to a float of the given kind *)
  intToFloat : fkind -> Z -> Z;
  (** truncation of a float of the given kind to an integer of the given
      kind, before it is cut to the width of that kind *)
  floatToInt : fkind -> ikind -> Z -> Z;
  (** conversion between float kinds *)
  floatToFloat : fkind -> fkind -> Z -> Z;
  (** [strconv.FormatFloat(f, 'g', -1, bitSize)] of a float of the given kind *)
  FormatFloat : fkind -> Z -> string;
  (** [strconv.FormatComplex(c, 'g', -1, bitSize)] *)
  FormatComplex : fkind -> Z -> Z -> string
}.

(** The order in which [MapRange] visits the entries of a map during one
    call of [Read] or [Write]: some permutation of the entries.  Go leaves
    the order unspecified and it changes from one visit to the next, so a
    property of two calls is stated for two orders.  (The maps that one call
    visits lie inside one another, so no two of them have the same entries,
    and a function of the entries describes any sequence of visits.) *)

Class Runtime := {
  mapRange : list (string * value) -> list (string * value);
  mapRange_perm : forall m, Permutation (mapRange m) m
}.

(** ** Results: a Go call returns or panics *)

Inductive result (A : Type) :=
  | Ret (a : A)
  | Panic (msg : string).
Arguments Ret {A} a.
Arguments Panic {A} msg.

Definition bind {A B} (m : result A) (f : A -> result B) : result B :=
  match m with
  | Ret a => f a
  | Panic s => Panic s
  end.

Notation "x <- m ;; f" := (bind m (fun x => f))
  (at level 61, m at next level, right associativity).
Notation "' p <- m ;; f" := (bind m (fun p => f))
  (at level 61, p pattern, m at next level, right associativity).

(** ** reflect *)

Module Reflect.

Definition bits (k : ikind) : Z :=
  match k with
  | Int8 | Uint8 => 8
  | Int16 | Uint16 => 16
  | Int32 | Uint32 => 32
  | Int | Int64 | Uint | Uint64 | Uintptr => 64
  end.

Definition signed (k : ikind) : bool :=
  match k with
  | Int | Int8 | Int16 | Int32 | Int64 => true
  | _ => false
  end.

(** Truncation of an integer to the width of [k] (two's complement). *)
Definition wrap (k : ikind) (z : Z) : Z :=
  let m := Z.shiftl 1 (bits k) in
  if signed k then (z + Z.shiftr m 1) mod m - Z.shiftr m 1 else z mod m.

Definition KindString (k : kind) : string :=
  match k with
  | Invalid => "invalid"
  | Bool => "bool"
  | KInt Int => "int" | KInt Int8 => "int8" | KInt Int16 => "int16"
  | KInt Int32 => "int32" | KInt Int64 => "int64"
  | KInt Uint => "uint" | KInt Uint8 => "uint8" | KInt Uint16 => "uint16"
  | KInt Uint32 => "uint32" | KInt Uint64 => "uint64" | KInt Uintptr => "uintptr"
  | KFloat F32 => "float32" | KFloat F64 => "float64"
  | KComplex F32 => "complex64" | KComplex F64 => "complex128"
  | KString => "string"
  | Struct => "struct"
  | Map => "map"
  | Ptr => "ptr"
  | Interface => "interface"
  | Func => "func"
  end.

(** [Type.String()]. *)
Fixpoint TypeString (t : type) : string :=
  match t with
  | TStruct [] => "struct {}"
  | TStruct fs =>
      "struct { " ++
      Strings.Join (map (fun nt => fst nt ++ " " ++ TypeString (snd nt)) fs) "; "
      ++ " }"
  | TMap e => "map[string]" ++ TypeString e
  | TPtr e => "*" ++ TypeString e
  | TInterface => "interface {}"
  | TFunc s => s
  | t => KindString (kindOfType t)
  end.

(** [Type.ConvertibleTo]: numeric conversions, integer to string, identical
    types, and any type to the empty interface. *)
Definition ConvertibleTo (src dst : type) : bool :=
  match src, dst with
  | TInt _, (TInt _ | TFloat _ | TString) => true
  | TFloat _, (TInt _ | TFloat _) => true
  | TComplex _, TComplex _ => true
  | _, TInterface => true
  | _, _ => type_eqb src dst
  end.

(** Assignability: identical types, or any type to the empty interface. *)
Definition AssignableTo (src dst : type) : bool :=
  match dst with
  | TInterface => true
  | _ => type_eqb src dst
  end.

(** Boxing into the empty interface. *)
Definition box (d : value) : value :=
  match d with
  | VIface _ | VNilIface => d
  | _ => VIface d
  end.

(** The value stored by an assignment to a place of type [t]. *)
Definition assign (d : value) (t : type) : value :=
  match t with
  | TInterface => box d
  | _ => d
  end.

Section WithLibrary.
Context {L : Library}.

(** The converted value, for a convertible pair of types. *)
Definition convert (d : value) (t : type) : value :=
  match d, t with
  | VInt _ z, TInt k' => VInt k' (wrap k' z)
  | VInt _ z, TFloat f => VFloat f (intToFloat f z)
  | VInt _ z, TString => VString (Strconv.cvtIntString z)
  | VFloat f b, TInt k' => VInt k' (wrap k' (floatToInt f k' b))
  | VFloat f b, TFloat f' =>
      VFloat f' (if fkind_eqb f f' then b else floatToFloat f f' b)
  | VComplex f re im, TComplex f' =>
      if fkind_eqb f f' then d
      else VComplex f' (floatToFloat f f' re) (floatToFloat f f' im)
  | _, TInterface => box d
  | _, _ => d
  end.

End WithLibrary.

(** A [reflect.Value]: the value it holds, or nothing for the zero Value,
    and the flags the engine depends on. *)
Record Value := mkValue {
  data : option value;
  flagAddr : bool;   (* CanAddr *)
  flagRO : bool      (* reached through an unexported field *)
}.

Definition zeroValue : Value := mkValue None false false.

(** [reflect.ValueOf(i)] of an interface value [i]. *)
Definition ValueOf (i : option value) : Value := mkValue i false false.

Definition Kind (v : Value) : kind :=
  match data v with
  | None => Invalid
  | Some d => kindOfType (typeOf d)
  end.

Definition CanAddr (v : Value) : bool := flagAddr v.
Definition CanSet (v : Value) : bool := flagAddr v && negb (flagRO v).

(** [v.Interface()]: the value as an [interface{}]. *)
Definition Interface_ (v : Value) : result (option value) :=
  match data v with
  | None => Panic "reflect: call of reflect.Value.Interface on zero Value"
  | Some d =>
      if flagRO v then
        Panic "reflect.Value.Interface: cannot return value obtained from unexported field or method"
      else match d with
           | VNilIface => Ret None
           | VIface x => Ret (Some x)
           | _ => Ret (Some d)
           end
  end.

Definition Type_ (v : Value) : result type :=
  match data v with
  | None => Panic "reflect: call of reflect.Value.Type on zero Value"
  | Some d => Ret (typeOf d)
  end.

Definition CanConvert (v : Value) (t : type) : result bool :=
  vt <- Type_ v ;; Ret (ConvertibleTo vt t).

Definition mustBeExported (v : Value) (fn : string) : result unit :=
  match data v with
  | None => Panic ("reflect: call of " ++ fn ++ " on zero Value")
  | Some _ =>
      if flagRO v then
        Panic ("reflect: " ++ fn ++ " using value obtained using unexported field")
      else Ret tt
  end.

Definition mustBeAssignable (v : Value) (fn : string) : result unit :=
  match data v with
  | None => Panic ("reflect: call of " ++ fn ++ " on zero Value")
  | Some _ =>
      if flagRO v then
        Panic ("reflect: " ++ fn ++ " using value obtained using unexported field")
      else if negb (flagAddr v) then
        Panic ("reflect: " ++ fn ++ " using unaddressable value")
      else Ret tt
  end.

(** [v.assignTo(dst)]: the value to store in a place of type [t]. *)
Definition assignTo (v : Value) (fn : string) (t : type) : result value :=
  match data v with
  | None => Panic ("reflect: call of " ++ fn ++ " on zero Value")
  | Some d =>
      if AssignableTo (typeOf d) t then Ret (assign d t)
      else Panic (fn ++ ": value of type " ++ TypeString (typeOf d)
                  ++ " is not assignable to type " ++ TypeString t)
  end.

End Reflect.

(** ** error.go *)

Record ConfigurationError := mkConfigurationError { Keys : string }.

Inductive KeyError :=
  | ErrNoSuchKey (e : ConfigurationError)
  | ErrUnhandledKind (e : ConfigurationError) (Kind : string)
  | ErrIncompatibleType (e : ConfigurationError) (Type_ : string).

Definition base (e : KeyError) : ConfigurationError :=
  match e with
  | ErrNoSuchKey b | ErrUnhandledKind b _ | ErrIncompatibleType b _ => b
  end.

Definition Key (e : KeyError) : string := Keys (base e).

(** [From] prepends the error's key with the provided key. *)
Definition From (e : KeyError) (key : string) : KeyError :=
  let b := mkConfigurationError (key ++ "." ++ Keys (base e)) in
  match e with
  | ErrNoSuchKey _ => ErrNoSuchKey b
  | ErrUnhandledKind _ k => ErrUnhandledKind b k
  | ErrIncompatibleType _ t => ErrIncompatibleType b t
  end.

(** ** config.go *)

Import Reflect.

(** Replacement of the entry stored under exactly [k]. *)
Fixpoint update (k : string) (x : value) (l : list (string * value))
  : list (string * value) :=
  match l with
  | [] => []
  | (k', y) :: r => if String.eqb k k' then (k', x) :: r else (k', y) :: update k x r
  end.

Fixpoint remove (k : string) (l : list (string * value)) : list (string * value) :=
  match l with
  | [] => []
  | (k', y) :: r => if String.eqb k k' then r else (k', y) :: remove k r
  end.

Definition hasKey (k : string) (l : list (string * value)) : bool :=
  existsb (fun e => String.eqb k (fst e)) l.

(** [m[k] = x] on the entries of a map. *)
Definition store (k : string) (x : value) (l : list (string * value))
  : list (string * value) :=
  if hasKey k l then update k x l else l ++ [(k, x)].

(** The interface values [read] returns: nil, a Go value, or (next to an
    error) a [reflect.Value]. *)
Inductive any :=
  | Nil
  | Boxed (v : value)
  | BoxedValue (e : Value).

Definition anyOf (i : option value) : any :=
  match i with
  | None => Nil
  | Some v => Boxed v
  end.

(** What a call of [write] leaves behind and returns: the contents of the
    storage of the inspected element after the call, the returned
    [reflect.Value] and the returned error. *)
Definition written : Type := (option value * Value * option KeyError)%type.

Section Engine.
Context {L : Library} {RT : Runtime}.

(** The first entry whose name matches [name] case-insensitively, as the
    loops over struct fields and over map entries find it. *)
Fixpoint lookupFold (name : string) (l : list (string * value))
  : option (string * value) :=
  match l with
  | [] => None
  | (k, x) :: r => if EqualFold name k then Some (k, x) else lookupFold name r
  end.


(** [element.SetMapIndex(key, e)] on a map with entries [m] of element type
    [t]: the entries afterwards. *)
Definition SetMapIndex (element : Value) (t : type) (m : list (string * value))
    (key : string) (e : Value) : result (list (string * value)) :=
  _ <- mustBeExported element "reflect.Value.SetMapIndex" ;;
  match data e with
  | None => Ret (remove key m)
  | Some _ =>
      _ <- mustBeExported e "reflect.Value.SetMapIndex" ;;
      x <- assignTo e "reflect.Value.SetMapIndex" t ;;
      Ret (store key x m)
  end.

(** [dst.Set(x)]: the contents of [dst] afterwards. *)
Definition Set_ (dst : Value) (t : type) (x : Value) : result value :=
  _ <- mustBeAssignable dst "reflect.Value.Set" ;;
  _ <- mustBeExported x "reflect.Value.Set" ;;
  assignTo x "reflect.Set" t.

(** [v.Convert(t)]. *)
Definition Convert (v : Value) (t : type) : result Value :=
  match data v with
  | None => Panic "reflect: call of reflect.Value.Convert on zero Value"
  | Some d =>
      if ConvertibleTo (typeOf d) t then Ret (mkValue (Some (convert d t)) false (flagRO v))
      else Panic ("reflect.Value.Convert: value of type " ++ TypeString (typeOf d)
                  ++ " cannot be converted to type " ++ TypeString t)
  end.

(** The [default] case of both switches. *)
Definition unhandled (element : Value) (name : string) : KeyError :=
  ErrUnhandledKind (mkConfigurationError name) (KindString (Kind element)).

Section WriteFrame.
(** One level of [write] on a non-empty key [name :: key]; [recurse] is
    [write] on the rest of the key. *)
Variable name : string.
Variable recurse : Value -> result written.

Fixpoint writeAt (d : value) (addr ro : bool) {struct d} : result written :=
  let element := mkValue (Some d) addr ro in
  match d with
  | VNilIface | VNilPtr _ =>
      (* element.Elem() is the zero Value, of kind Invalid *)
      Ret (Some d, element, Some (unhandled zeroValue name))
  | VIface x =>
      '(x', e, err) <- writeAt x false ro ;;
      let d' := match x' with Some y => VIface y | None => d end in
      match err with
      | Some err => Ret (Some d', mkValue (Some d') addr ro, Some err)
      | None =>
          i <- Interface_ e ;;
          Ret (Some d', ValueOf i, None)
      end
  | VPtr x =>
      '(x', e, err) <- writeAt x true ro ;;
      let d' := match x' with Some y => VPtr y | None => d end in
      match err with
      | Some err => Ret (Some d', mkValue (Some d') addr ro, Some err)
      | None =>
          if CanAddr e then
            match data e with
            | Some y => Ret (Some d', mkValue (Some (VPtr y)) false (flagRO e), None)
            | None => Panic "reflect: call of reflect.Value.Addr on zero Value"
            end
          else
            t <- Type_ e ;;
            y <- Set_ (mkValue (Some (zero t)) true false) t e ;;
            Ret (Some d', mkValue (Some (VPtr y)) false false, None)
      end
  | VStruct fs =>
      match lookupFold name fs with
      | Some (fname, x) =>
          let ro' := ro || negb (IsExported fname) in
          let ft := typeOf x in
          '(x', v, err) <- recurse (mkValue (Some x) addr ro') ;;
          let d' := match x' with Some y => VStruct (update fname y fs) | None => d end in
          let element' := mkValue (Some d') addr ro in
          match err with
          | Some err => Ret (Some d', element', Some (From err name))
          | None =>
              ok <- CanConvert v ft ;;
              if negb ok then
                Ret (Some d', element',
                     Some (ErrIncompatibleType (mkConfigurationError name) (TypeString ft)))
              else if negb (CanSet (mkValue (Some x) addr ro')) then
                (* n := reflect.Indirect(reflect.New(t)); n.Set(element) *)
                _ <- mustBeExported element' "reflect.Value.Set" ;;
                c <- Convert v ft ;;
                y <- Set_ (mkValue x' true (negb (IsExported fname))) ft c ;;
                Ret (Some d', mkValue (Some (VStruct (update fname y fs))) true false, None)
              else
                c <- Convert v ft ;;
                y <- Set_ (mkValue x' addr ro') ft c ;;
                let d'' := VStruct (update fname y fs) in
                Ret (Some d'', mkValue (Some d'') addr ro, None)
          end
      | None => Ret (Some d, element, Some (ErrNoSuchKey (mkConfigurationError name)))
      end
  | VNilMap t | VMap t _ =>
      (* a nil map is replaced by reflect.MakeMap(element.Type()) *)
      let m := match d with VMap _ m => m | _ => [] end in
      let isNil := match d with VMap _ _ => false | _ => true end in
      let element := if isNil then mkValue (Some (VMap t [])) false false else element in
      let keep (m' : list (string * value)) := if isNil then d else VMap t m' in
      match lookupFold name (mapRange m) with
      | Some (k, x) =>
          '(x', e, err) <- recurse (mkValue (Some x) false ro) ;;
          let m1 := match x' with Some y => update k y m | None => m end in
          match err with
          | Some err =>
              Ret (Some (keep m1), mkValue (Some (VMap t m1)) (flagAddr element) (flagRO element),
                   Some (From err name))
          | None =>
              m2 <- SetMapIndex element t m1 k e ;;
              Ret (Some (keep m2), mkValue (Some (VMap t m2)) (flagAddr element) (flagRO element),
                   None)
          end
      | None =>
          '(_, e, err) <- recurse (mkValue (Some (zero t)) true false) ;;
          match err with
          | Some err => Ret (Some d, element, Some (From err name))
          | None =>
              ok <- CanConvert e t ;;
              if negb ok then
                Ret (Some d, element,
                     Some (ErrIncompatibleType (mkConfigurationError name) (TypeString t)))
              else
                c <- Convert e t ;;
                m2 <- SetMapIndex element t m name c ;;
                Ret (Some (keep m2),
                     mkValue (Some (VMap t m2)) (flagAddr element) (flagRO element), None)
          end
      end
  | _ => Ret (Some d, element, Some (unhandled element name))
  end.

End WriteFrame.

(** [write] recursively sets a key's value.  It is given the inspected
    element and returns the modified element. *)
Fixpoint write (key : list string) (value : option value) (element : Value)
    {struct key} : result written :=
  match key with
  | [] => Ret (data element, ValueOf value, None)
  | name :: key =>
      match data element with
      | None => Ret (None, element, Some (unhandled element name))
      | Some d => writeAt name (write key value) d (flagAddr element) (flagRO element)
      end
  end.

Section ReadFrame.
(** One level of [read] on a non-empty key [name :: key]; [recurse] is
    [read] on the rest of the key. *)
Variable name : string.
Variable recurse : Value -> result (any * option KeyError).

Fixpoint readAt (d : value) (addr ro : bool) {struct d}
  : result (any * option KeyError) :=
  let element := mkValue (Some d) addr ro in
  match d with
  | VNilIface | VNilPtr _ =>
      (* element.Elem() is the zero Value, of kind Invalid *)
      Ret (BoxedValue zeroValue, Some (unhandled zeroValue name))
  | VIface x => readAt x false ro
  | VPtr x => readAt x true ro
  | VStruct fs =>
      match lookupFold name fs with
      | Some (fname, x) =>
          '(v, err) <- recurse (mkValue (Some x) addr (ro || negb (IsExported fname))) ;;
          match err with
          | Some err => Ret (v, Some (From err name))
          | None => Ret (v, None)
          end
      | None => Ret (Nil, Some (ErrNoSuchKey (mkConfigurationError name)))
      end
  | VNilMap _ => Ret (Nil, Some (ErrNoSuchKey (mkConfigurationError name)))
  | VMap _ m =>
      match lookupFold name (mapRange m) with
      | Some (_, x) =>
          '(v, err) <- recurse (mkValue (Some x) false ro) ;;
          match err with
          | Some err => Ret (v, Some (From err name))
          | None => Ret (v, None)
          end
      | None => Ret (Nil, Some (ErrNoSuchKey (mkConfigurationError name)))
      end
  | _ => Ret (BoxedValue element, Some (unhandled element name))
  end.

End ReadFrame.

(** [read] recursively gets a key's value.  It is given the inspected
    element and returns the final value. *)
Fixpoint read (key : list string) (element : Value) {struct key}
  : result (any * option KeyError) :=
  match key with
  | [] => i <- Interface_ element ;; Ret (anyOf i, None)
  | name :: key =>
      match data element with
      | None => Ret (BoxedValue element, Some (unhandled element name))
      | Some d => readAt name (read key) d (flagAddr element) (flagRO element)
      end
  end.

(** [config] holds the root, an [interface{}]. *)
Record config := mkConfig { Data : option value }.

Definition New (v : option value) : config := mkConfig v.

Definition dot : ascii := "."%char.

(** [Write] sets a key's value.  On an error [c.Data] is not assigned; what
    it refers to is left as the failed call left it. *)
Definition Write (c : config) (key : string) (value : option value)
  : result (config * option KeyError) :=
  let d := ValueOf (Data c) in
  let k := Strings.Split key dot in
  '(d', v, err) <- write k value d ;;
  match err with
  | Some err => Ret (mkConfig d', Some err)
  | None => i <- Interface_ v ;; Ret (mkConfig i, None)
  end.

(** [Read] gets a key's value. *)
Definition Read (c : config) (key : string) : result (any * option KeyError) :=
  let d := ValueOf (Data c) in
  let k := Strings.Split key dot in
  read k d.

(** [ReadString] behaves like [Read] with additional conversion taking
    place. *)
Definition ReadString (c : config) (key : string)
  : result (string * option KeyError) :=
  '(v, err) <- Read c key ;;
  match err with
  | Some err => Ret ("", Some err)
  | None =>
      let val := match v with
                 | Nil => zeroValue
                 | Boxed x => ValueOf (Some x)
                 | BoxedValue _ => mkValue (Some (VStruct [])) false false
                 end in
      match data val with
      | Some (VString s) => Ret (s, None)
      | Some (VInt Int z) | Some (VInt Int8 z) | Some (VInt Int32 z)
      | Some (VInt Int64 z) => Ret (Strconv.FormatInt z, None)
      | Some (VFloat F32 b) => Ret (FormatFloat F32 b, None)
      | Some (VFloat F64 b) => Ret (FormatFloat F64 b, None)
      | Some (VComplex F32 re im) => Ret (FormatComplex F32 re im, None)
      | Some (VComplex F64 re im) => Ret (FormatComplex F64 re im, None)
      | Some (VBool b) => Ret (Strconv.FormatBool b, None)
      | _ =>
          (* Attempt conversion *)
          ok <- CanConvert val TString ;;
          if ok then
            c <- Convert val TString ;;
            match data c with
            | Some (VString s) => Ret (s, None)
            | _ => Ret ("<" ++ TypeString TString ++ " Value>", None)
            end
          else
            Ret ("", Some (ErrUnhandledKind (mkConfigurationError key)
                             (KindString (Kind val))))
      end
  end.

(** [Sub]: a sub-configuration prefixing all keyed calls with a prefix. *)
Record sub := mkSub { RW : config; Prefix : string }.

Definition resolve (s : sub) (key : string) : string := Prefix s ++ "." ++ key.

Definition Sub (rw : config) (prefix : string) : sub := mkSub rw prefix.

Definition SubRead (s : sub) (key : string) := Read (RW s) (resolve s key).
Definition SubReadString (s : sub) (key : string) := ReadString (RW s) (resolve s key).
Definition SubWrite (s : sub) (key : string) (v : option value) :=
  Write (RW s) (resolve s key) v.

End Engine.

(** ** The calls of the source on pointers and interfaces *)

(** [element.Elem()] of a pointer or an interface. *)
Definition Elem (element : Value) : Value :=
  match data element with
  | Some (VPtr x) => mkValue (Some x) true (flagRO element)
  | Some (VIface x) => mkValue (Some x) false (flagRO element)
  | _ => zeroValue
  end.

(** * The engine on a store

    [write] and [read] once more, on values whose pointers are addresses.
    The variables live in a store, and a pointer is the place of a variable
    or of a field inside one: two pointers can have the same pointee, and
    what [Set] stores through the one is read through the other.  An
    addressable [reflect.Value] refers to its place in the store; one that is
    not holds a copy.  The values are those made of strings, structs and
    pointers, which is enough for fields that share a pointee.  In a store
    a chain of pointers can be cyclic, so the functions are given the number
    of calls they may make, and return nothing when it is used up. *)

Module Shared.

(** A variable of the store, and the indices of the fields that lead from it
    to the part meant. *)
Definition place : Type := (nat * list nat)%type.

Inductive cell :=
  | CString (s : string)
  | CStruct (fields : list (string * cell))
  | CNilPtr (elem : type)
  | CPtr (elem : type) (pointee : place).

Definition store : Type := list cell.

Fixpoint typeOf (c : cell) : type :=
  match c with
  | CString _ => TString
  | CStruct fs => TStruct (map (fun nc => (fst nc, typeOf (snd nc))) fs)
  | CNilPtr t => TPtr t
  | CPtr t _ => TPtr t
  end.

(** The part of [c] that the field indices [path] lead to. *)
Fixpoint part (path : list nat) (c : cell) : option cell :=
  match path with
  | [] => Some c
  | i :: path =>
      match c with
      | CStruct fs =>
          match nth_error fs i with
          | Some (_, x) => part path x
          | None => None
          end
      | _ => None
      end
  end.

(** [l] with [f] applied to element number [i]. *)
Fixpoint change {A : Type} (i : nat) (f : A -> A) (l : list A) : list A :=
  match l, i with
  | [], _ => []
  | a :: r, O => f a :: r
  | a :: r, S j => a :: change j f r
  end.

(** [c] with [x] in the place of the part that [path] leads to. *)
Fixpoint setPart (path : list nat) (x : cell) (c : cell) : cell :=
  match path with
  | [] => x
  | i :: path =>
      match c with
      | CStruct fs => CStruct (change i (fun ny => (fst ny, setPart path x (snd ny))) fs)
      | _ => c
      end
  end.

Definition load (s : store) (p : place) : option cell :=
  match nth_error s (fst p) with
  | Some c => part (snd p) c
  | None => None
  end.

Definition save (p : place) (x : cell) (s : store) : store :=
  change (fst p) (setPart (snd p) x) s.

(** A [reflect.Value]: the zero Value, a copy of a value, or the storage at
    a place; [ro] tells that it was reached through an unexported field. *)
Inductive Value :=
  | Zero
  | Held (c : cell) (ro : bool)
  | Var (p : place) (ro : bool).

Definition contents (s : store) (v : Value) : option cell :=
  match v with
  | Zero => None
  | Held c _ => Some c
  | Var p _ => load s p
  end.

Definition flagRO (v : Value) : bool :=
  match v with
  | Zero => false
  | Held _ ro | Var _ ro => ro
  end.

Definition CanAddr (v : Value) : bool :=
  match v with
  | Var _ _ => true
  | _ => false
  end.

Definition CanSet (v : Value) : bool := CanAddr v && negb (flagRO v).

(** [reflect.ValueOf(i)] of an interface value [i]. *)
Definition ValueOf (i : option cell) : Value :=
  match i with
  | Some c => Held c false
  | None => Zero
  end.

Inductive any :=
  | Nil
  | Boxed (c : cell)
  | BoxedValue (e : Value).

Definition anyOf (i : option cell) : any :=
  match i with
  | None => Nil
  | Some c => Boxed c
  end.

(** ** Calls that read and change the store

    A call is given the store and returns or panics, with the store it
    leaves; it gives nothing when the calls it may make are used up. *)

Definition call (A : Type) : Type := store -> option (result (A * store)).

Definition ret {A : Type} (a : A) : call A := fun s => Some (Ret (a, s)).

Definition panic {A : Type} (msg : string) : call A := fun _ => Some (Panic msg).

Definition usedUp {A : Type} : call A := fun _ => None.

Definition andThen {A B : Type} (m : call A) (f : A -> call B) : call B :=
  fun s =>
    match m s with
    | Some (Ret (a, s')) => f a s'
    | Some (Panic msg) => Some (Panic msg)
    | None => None
    end.

Notation "x <== m ;; f" := (andThen m (fun x => f))
  (at level 61, m at next level, right associativity).
Notation "' p <== m ;; f" := (andThen m (fun p => f))
  (at level 61, p pattern, m at next level, right associativity).

(** What [v] holds now. *)
Definition Contents (v : Value) : call (option cell) :=
  fun s => Some (Ret (contents s v, s)).

Definition Type_ (v : Value) : call type :=
  c <== Contents v ;;
  match c with
  | Some c => ret (typeOf c)
  | None => panic "reflect: call of reflect.Value.Type on zero Value"
  end.

(** [v.Interface()]. *)
Definition Interface_ (v : Value) : call (option cell) :=
  c <== Contents v ;;
  match c with
  | None => panic "reflect: call of reflect.Value.Interface on zero Value"
  | Some c =>
      if flagRO v then
        panic "reflect.Value.Interface: cannot return value obtained from unexported field or method"
      else ret (Some c)
  end.

(** [v.Elem()] of a pointer: its pointee, addressable; the zero Value for a
    nil pointer. *)
Definition Elem (v : Value) : call Value :=
  c <== Contents v ;;
  match c with
  | Some (CPtr _ p) => ret (Var p (flagRO v))
  | Some (CNilPtr _) => ret Zero
  | Some c =>
      panic ("reflect: call of reflect.Value.Elem on "
             ++ KindString (kindOfType (typeOf c)) ++ " Value")
  | None => panic "reflect: call of reflect.Value.Elem on zero Value"
  end.

(** [v.Addr()]: a pointer to the place of [v]. *)
Definition Addr (v : Value) : call Value :=
  c <== Contents v ;;
  match v, c with
  | Var p ro, Some c => ret (Held (CPtr (typeOf c) p) ro)
  | _, _ => panic "reflect.Value.Addr of unaddressable value"
  end.

(** Between the types of these values the only conversion, and the only
    assignment, is between identical types. *)
Definition CanConvert (v : Value) (t : type) : call bool :=
  vt <== Type_ v ;; ret (type_eqb vt t).

Definition Convert (v : Value) (t : type) : call Value :=
  c <== Contents v ;;
  match c with
  | None => panic "reflect: call of reflect.Value.Convert on zero Value"
  | Some c =>
      if type_eqb (typeOf c) t then ret (Held c (flagRO v))
      else panic ("reflect.Value.Convert: value of type " ++ TypeString (typeOf c)
                  ++ " cannot be converted to type " ++ TypeString t)
  end.

(** [dst.Set(x)]: the place of [dst] holds what [x] holds. *)
Definition Set_ (dst x : Value) : call unit :=
  old <== Contents dst ;;
  c <== Contents x ;;
  match dst, old, c with
  | Zero, _, _ | _, None, _ => panic "reflect: call of reflect.Value.Set on zero Value"
  | Held _ true, _, _ | Var _ true, _, _ =>
      panic "reflect: reflect.Value.Set using value obtained using unexported field"
  | Held _ false, _, _ => panic "reflect: reflect.Value.Set using unaddressable value"
  | Var p false, Some old, None =>
      panic "reflect: call of reflect.Value.Set on zero Value"
  | Var p false, Some old, Some c =>
      if flagRO x then
        panic "reflect: reflect.Value.Set using value obtained using unexported field"
      else if type_eqb (typeOf c) (typeOf old) then
        fun s => Some (Ret (tt, save p c s))
      else
        panic ("reflect.Set: value of type " ++ TypeString (typeOf c)
               ++ " is not assignable to type " ++ TypeString (typeOf old))
  end.

(** [p := reflect.New(x.Type()); p.Elem().Set(x)]: a pointer to a new
    variable that holds what [x] holds. *)
Definition NewOf (x : Value) : call Value :=
  t <== Type_ x ;;
  c <== Contents x ;;
  match c with
  | None => panic "reflect: call of reflect.Value.Set on zero Value"
  | Some c =>
      if flagRO x then
        panic "reflect: reflect.Value.Set using value obtained using unexported field"
      else
        fun s => Some (Ret (Held (CPtr t (List.length s, [])) false, (s ++ [c])%list))
  end.

Record config := mkConfig { Data : option cell }.

Definition New (v : option cell) : config := mkConfig v.

Section Engine.
Context {L : Library}.

(** [v.Field(i)] of a struct whose field [i] is named [fname] and holds
    [x]. *)
Definition Field (v : Value) (i : nat) (fname : string) (x : cell) : Value :=
  let ro := flagRO v || negb (IsExported fname) in
  match v with
  | Var p _ => Var (fst p, (snd p ++ [i])%list) ro
  | _ => Held x ro
  end.

(** The first field whose name matches [name] case-insensitively, with its
    index, counted from [i]. *)
Fixpoint fieldFold (name : string) (fs : list (string * cell)) (i : nat)
  : option (nat * string * cell) :=
  match fs with
  | [] => None
  | (fname, x) :: r =>
      if EqualFold name fname then Some (i, fname, x) else fieldFold name r (S i)
  end.

Definition unhandled (k : kind) (name : string) : KeyError :=
  ErrUnhandledKind (mkConfigurationError name) (KindString k).

Fixpoint write (calls : nat) (key : list string) (element : Value) (value : option cell)
  : call (Value * option KeyError) :=
  match calls with
  | O => usedUp
  | S calls =>
      match key with
      | [] => ret (ValueOf value, None)
      | name :: rest =>
          c <== Contents element ;;
          match c with
          | Some (CPtr _ _) | Some (CNilPtr _) =>
              e <== Elem element ;;
              '(e, err) <== write calls key e value ;;
              match err with
              | Some err => ret (element, Some err)
              | None =>
                  if CanAddr e then
                    a <== Addr e ;; ret (a, None)
                  else
                    p <== NewOf e ;; ret (p, None)
              end
          | Some (CStruct fs) =>
              (* Consume one key level *)
              match fieldFold name fs 0 with
              | Some (i, fname, x) =>
                  let ft := typeOf x in
                  let e := Field element i fname x in
                  '(v, err) <== write calls rest e value ;;
                  match err with
                  | Some err => ret (element, Some (From err name))
                  | None =>
                      ok <== CanConvert v ft ;;
                      if negb ok then
                        ret (element,
                             Some (ErrIncompatibleType (mkConfigurationError name)
                                     (TypeString ft)))
                      else if negb (CanSet e) then
                        (* n := reflect.Indirect(reflect.New(t)); n.Set(element) *)
                        p <== NewOf element ;;
                        n <== Elem p ;;
                        x' <== Convert v ft ;;
                        _ <== Set_ (Field n i fname x) x' ;;
                        ret (n, None)
                      else
                        x' <== Convert v ft ;;
                        _ <== Set_ e x' ;;
                        ret (element, None)
                  end
              | None => ret (element, Some (ErrNoSuchKey (mkConfigurationError name)))
              end
          | Some c => ret (element, Some (unhandled (kindOfType (typeOf c)) name))
          | None => ret (element, Some (unhandled Invalid name))
          end
      end
  end.

Fixpoint read (calls : nat) (key : list string) (element : Value)
  : call (any * option KeyError) :=
  match calls with
  | O => usedUp
  | S calls =>
      match key with
      | [] => i <== Interface_ element ;; ret (anyOf i, None)
      | name :: rest =>
          c <== Contents element ;;
          match c with
          | Some (CPtr _ _) | Some (CNilPtr _) =>
              e <== Elem element ;;
              read calls key e
          | Some (CStruct fs) =>
              (* Consume one key level *)
              match fieldFold name fs 0 with
              | Some (i, fname, x) =>
                  '(v, err) <== read calls rest (Field element i fname x) ;;
                  match err with
                  | Some err => ret (v, Some (From err name))
                  | None => ret (v, None)
                  end
              | None => ret (Nil, Some (ErrNoSuchKey (mkConfigurationError name)))
              end
          | Some c =>
              ret (BoxedValue element, Some (unhandled (kindOfType (typeOf c)) name))
          | None => ret (BoxedValue element, Some (unhandled Invalid name))
          end
      end
  end.

(** [Write] sets a key's value; [c.Data] is assigned when [write] returned
    no error. *)
Definition Write (calls : nat) (c : config) (key : string) (value : option cell)
  : call (config * option KeyError) :=
  let d := ValueOf (Data c) in
  let k := Strings.Split key dot in
  '(v, err) <== write calls k d value ;;
  match err with
  | Some err => ret (c, Some err)
  | None => i <== Interface_ v ;; ret (mkConfig i, None)
  end.

(** [Read] gets a key's value. *)
Definition Read (calls : nat) (c : config) (key : string)
  : call (any * option KeyError) :=
  let d := ValueOf (Data c) in
  let k := Strings.Split key dot in
  read calls k d.

End Engine.

End Shared.

(** * The vocabulary of the properties *)

(** ** Paths and errors *)

(** The key of an error is the dotted path of the first [n] segments of the
    key, for some [n] from 1 to the number of segments. *)
Definition pathPrefix (key : list string) (e : KeyError) : Prop :=
  exists n, (0 < n <= List.length key)%nat /\ Key e = Strings.Join (firstn n key) ".".

(** A segment boundary (the start of the key or a dot) is directly followed
    by another (a dot or the end of the key): the key is empty, starts or
    ends with a dot, or has two dots in a row.  [atBoundary] tells whether
    the position before [s] is a boundary. *)
Fixpoint irregularFrom (atBoundary : bool) (s : string) : bool :=
  match s with
  | EmptyString => atBoundary
  | String c r =>
      if Ascii.eqb c dot then atBoundary || irregularFrom true r
      else irregularFrom false r
  end.

Definition irregular (key : string) : bool := irregularFrom true key.

Definition isEmpty (s : string) : bool := String.eqb s "".

(** An error that came up through the frames that consumed the segments of
    [path], the outermost first: each prepended its segment, once. *)
Definition raised (path : list string) (e : KeyError) : KeyError :=
  fold_right (fun name e => From e name) e path.

(** ** Stored values *)

(** The kinds of value a [write] on a non-empty key returns. *)
Definition container (d : value) : bool :=
  match d with
  | VStruct _ | VMap _ _ | VPtr _ => true
  | _ => false
  end.

(** What [Interface()] returns for a value. *)
Definition unbox (d : value) : option value :=
  match d with
  | VNilIface => None
  | VIface x => Some x
  | _ => Some d
  end.

(** An integer lies in the range of its type. *)
Definition inRange (v : value) : bool :=
  match v with
  | VInt k z => Z.eqb (wrap k z) z
  | _ => true
  end.

Definition isIface (v : value) : bool :=
  match v with
  | VIface _ | VNilIface => true
  | _ => false
  end.



(** The entries and the element type of a map, nil or not. *)
Definition entriesOf (d : value) : list (string * value) :=
  match d with
  | VMap _ m => m
  | _ => []
  end.

Definition elemOf (d : value) : option type :=
  match d with
  | VNilMap t | VMap t _ => Some t
  | _ => None
  end.

(** The value holds no pointer to an interface. *)
Fixpoint noPtrToIface (v : value) : bool :=
  match v with
  | VStruct fs => forallb (fun e => noPtrToIface (snd e)) fs
  | VMap _ m => forallb (fun e => noPtrToIface (snd e)) m
  | VPtr x => negb (isIface x) && noPtrToIface x
  | VIface x => noPtrToIface x
  | _ => true
  end.

Definition isIncompatible (e : KeyError) : bool :=
  match e with
  | ErrIncompatibleType _ _ => true
  | _ => false
  end.

(** The root holds no pointer to an interface (and, as the dynamic value of
    [c.Data], is not itself an interface). *)
Definition plainRoot (c : config) : bool :=
  match Data c with
  | Some d => negb (isIface d) && noPtrToIface d
  | None => true
  end.

(** The value a call returned without error. *)
Definition okOf {A E : Type} (r : result (A * option E)) : option A :=
  match r with
  | Ret (y, None) => Some y
  | _ => None
  end.

(** The kinds [read] and [write] traverse. *)
Definition traversed (k : string) : bool :=
  String.eqb k "struct" || String.eqb k "map" || String.eqb k "ptr"
  || String.eqb k "interface".


(** [map[string]...map[string]T], with [n] levels of maps. *)
Fixpoint nested (n : nat) (T : type) : type :=
  match n with
  | O => T
  | S n => TMap (nested n T)
  end.

(** The kind at which a traversal stops: that of the value behind the
    pointers and interfaces, [Invalid] behind a nil one. *)
Fixpoint stopKind (d : value) : kind :=
  match d with
  | VIface x | VPtr x => stopKind x
  | VNilIface | VNilPtr _ => Invalid
  | _ => kindOfType (typeOf d)
  end.

(** The error a frame makes when the segment [name] selects nothing in the
    element: [NoSuchKey] in a struct or a map, [UnhandledKind] elsewhere,
    with the segment alone as its key. *)
Definition localError (name : string) (el : Value) : KeyError :=
  match (match data el with Some d => stopKind d | None => Invalid end) with
  | Struct | Map => ErrNoSuchKey (mkConfigurationError name)
  | k => ErrUnhandledKind (mkConfigurationError name) (KindString k)
  end.

(** ** Fields and entries by their names

    The field or the entry named exactly [k]. *)

Fixpoint lookup (k : string) (l : list (string * value)) : option value :=
  match l with
  | [] => None
  | (k', x) :: r => if String.eqb k k' then Some x else lookup k r
  end.

Section PeekFrame.
Variable name : string.

Fixpoint peekAt (recurse : value -> option value) (d : value) : option value :=
  match d with
  | VIface x => peekAt recurse x
  | VPtr x => peekAt recurse x
  | VStruct fs =>
      match lookup name fs with
      | Some x => recurse x
      | None => None
      end
  | VMap _ m =>
      match lookup name m with
      | Some x => recurse x
      | None => None
      end
  | _ => None
  end.

End PeekFrame.

(** The value of the field or entry at the end of the path [q] in [d]: each
    name of [q] is the name of a field or the key of an entry, behind
    pointers and interfaces. *)
Fixpoint peek (q : list string) (d : value) : option value :=
  match q with
  | [] => Some d
  | name :: rest => peekAt name (peek rest) d
  end.

(** The same in the root of a [config]. *)
Definition valueAt (q : list string) (c : config) : option value :=
  match Data c with
  | Some d => peek q d
  | None => None
  end.

(** No two entries are stored under the same key. *)
Fixpoint distinctKeys (l : list (string * value)) : bool :=
  match l with
  | [] => true
  | e :: r => negb (hasKey (fst e) r) && distinctKeys r
  end.

(** The maps inside the value are maps: each has one entry per key. *)
Fixpoint properMaps (v : value) : bool :=
  match v with
  | VStruct fs => forallb (fun e => properMaps (snd e)) fs
  | VMap _ m => distinctKeys m && forallb (fun e => properMaps (snd e)) m
  | VPtr x => properMaps x
  | VIface x => properMaps x
  | _ => true
  end.

Definition proper (c : config) : bool :=
  match Data c with
  | Some d => properMaps d
  | None => true
  end.

(** ** Names up to case *)

Section Names.
Context {L : Library}.

(** [q] leaves the path [p]: after segments equal up to case, the two have
    segments that differ. *)
Fixpoint divergeb (p q : list string) : bool :=
  match p, q with
  | a :: p', b :: q' => if EqualFold a b then divergeb p' q' else true
  | _, _ => false
  end.

(** Segment by segment, the names of [p] and [q] are equal up to case. *)
Definition foldEqual (p q : list string) : Prop :=
  Forall2 (fun a b => EqualFold a b = true) p q.

(** No two entries have names that are equal up to case. *)
Fixpoint distinctFold (l : list (string * value)) : bool :=
  match l with
  | [] => true
  | e :: r =>
      negb (existsb (fun e' => EqualFold (fst e) (fst e')) r) && distinctFold r
  end.

(** Every map inside the value has keys that are distinct up to case. *)
Fixpoint foldFree (v : value) : bool :=
  match v with
  | VStruct fs => forallb (fun e => foldFree (snd e)) fs
  | VMap _ m => distinctFold m && forallb (fun e => foldFree (snd e)) m
  | VPtr x => foldFree x
  | VIface x => foldFree x
  | _ => true
  end.

(** Every map of the root has keys that are distinct up to case. *)
Definition wellKeyed (c : config) : bool :=
  match Data c with
  | Some d => foldFree d
  | None => true
  end.

(** ** The position a key addresses

    The functions of this section follow a key through a value the way the
    engine does: behind pointers and interfaces, a segment selects the
    first field, or the entry, whose name equals it up to case.  (With keys
    distinct up to case, the entry does not depend on the order in which
    the map is visited.) *)

Section SlotFrame.
Variable name : string.
Variable rest : list string.

(** The static type of the position [name :: rest] addresses in [d]: the
    type of the field, or the element type of the map, that the last segment
    selects.  An entry that is absent is reached through the zero value of
    the map's element type, as [write] creates it. *)
Fixpoint slotAt (recurse : value -> option type) (d : value) : option type :=
  match d with
  | VIface x => slotAt recurse x
  | VPtr x => slotAt recurse x
  | VStruct fs =>
      match lookupFold name fs with
      | Some (_, x) => match rest with [] => Some (typeOf x) | _ => recurse x end
      | None => None
      end
  | VNilMap t => match rest with [] => Some t | _ => recurse (zero t) end
  | VMap t m =>
      match rest with
      | [] => Some t
      | _ => match lookupFold name m with
             | Some (_, x) => recurse x
             | None => recurse (zero t)
             end
      end
  | _ => None
  end.



End SlotFrame.

Fixpoint slotType (key : list string) (d : value) : option type :=
  match key with
  | [] => None
  | name :: rest => slotAt name rest (slotType rest) d
  end.



End Names.

(** ** The frames of one call *)

Section Vocabulary.
Context {L : Library} {RT : Runtime}.

(** The element that the frame for the segment [name] passes to the
    recursive call: the field or the entry that [name] selects, behind
    pointers and interfaces; in a write ([create]) into a map without such
    an entry, the zero value that a new entry starts from.  Nothing when
    [name] selects nothing. *)
Fixpoint childAt (create : bool) (name : string) (d : value) (addr ro : bool)
  : option Value :=
  match d with
  | VIface x => childAt create name x false ro
  | VPtr x => childAt create name x true ro
  | VStruct fs =>
      match lookupFold name fs with
      | Some (fname, x) => Some (mkValue (Some x) addr (ro || negb (IsExported fname)))
      | None => None
      end
  | VNilMap t => if create then Some (mkValue (Some (zero t)) true false) else None
  | VMap t m =>
      match lookupFold name (mapRange m) with
      | Some (_, x) => Some (mkValue (Some x) false ro)
      | None => if create then Some (mkValue (Some (zero t)) true false) else None
      end
  | _ => None
  end.

Definition child (create : bool) (name : string) (el : Value) : option Value :=
  match data el with
  | Some d => childAt create name d (flagAddr el) (flagRO el)
  | None => None
  end.

(** The element reached from [el] by the segments of [path]. *)
Fixpoint descend (create : bool) (path : list string) (el : Value) : option Value :=
  match path with
  | [] => Some el
  | name :: rest =>
      match child create name el with
      | Some x => descend create rest x
      | None => None
      end
  end.

(** The frame for segment number [n] of [key] is where the descent from
    [root] stops: the segments before it select fields and entries down to
    [el], in which segment [n] selects nothing. *)
Definition stopsAt (create : bool) (key : list string) (root : Value) (n : nat)
    (el : Value) : Prop :=
  (n < List.length key)%nat /\
  descend create (firstn n key) root = Some el /\
  child create (nth n key "") el = None.

(** The frame for the segment [name] checks, with [CanConvert], what the
    write below it returned before it stores it: in a field of a struct, or
    in a new entry of a map.  (What it stores back into an entry that the
    map has, it does not check.) *)
Fixpoint checksAt (name : string) (d : value) : bool :=
  match d with
  | VIface x => checksAt name x
  | VPtr x => checksAt name x
  | VStruct _ => true
  | VNilMap _ => true
  | VMap _ m =>
      match lookupFold name (mapRange m) with
      | Some _ => false
      | None => true
      end
  | _ => false
  end.

Definition checks (name : string) (el : Value) : bool :=
  match data el with
  | Some d => checksAt name d
  | None => false
  end.

(** The frame for segment number [n] of [key] refuses what the write below
    it returned: the segments before it select fields and entries down to
    [el], in which segment [n] selects [x], a field or a new entry; the
    write of the rest of the key into [x] returned [v] without error, and
    [v] cannot be converted to the type [T] of [x]. *)
Definition refusesAt (key : list string) (value : option value) (root : Value)
    (n : nat) (T : type) : Prop :=
  (n < List.length key)%nat /\
  exists el x dx st v,
    descend true (firstn n key) root = Some el /\
    child true (nth n key "") el = Some x /\
    checks (nth n key "") el = true /\
    data x = Some dx /\ T = typeOf dx /\
    write (skipn (S n) key) value x = Ret (st, v, None) /\
    CanConvert v T = Ret false.

(** The error [e] was made by the frame for segment number [n] of [key],
    with that segment alone as its key ([local]), and came up through the
    [n] frames above it: its key is the dotted path of the segments up to
    the point of failure. *)
Definition raisedFrom (key : list string) (n : nat) (local e : KeyError) : Prop :=
  Key local = nth n key "" /\
  e = raised (firstn n key) local /\
  Key e = Strings.Join (firstn (S n) key) ".".

(** [Read] or [Write] of [key] fails with [e] because a segment of the key
    selects nothing. *)
Definition stopped (create : bool) (c : config) (key : string) (e : KeyError) : Prop :=
  let segs := Strings.Split key dot in
  exists n el,
    stopsAt create segs (ValueOf (Data c)) n el /\
    raisedFrom segs n (localError (nth n segs "") el) e.

(** [Write] of [key] fails with [e] because a frame refuses what the write
    below it returned. *)
Definition refused (c : config) (key : string) (value : option value) (e : KeyError)
  : Prop :=
  let segs := Strings.Split key dot in
  exists n T,
    refusesAt segs value (ValueOf (Data c)) n T /\
    raisedFrom segs n
      (ErrIncompatibleType (mkConfigurationError (nth n segs "")) (TypeString T)) e.

(** What a successful [write] of [name :: rest] into the map with entries
    [m] returns: when a key [k] matches, the map with the value returned by
    the recursive call stored under [k]; when none does, the map with one
    more entry under [name]. *)
Definition casing (name : string) (rest : list string) (v : value) (t : type)
    (m : list (string * value)) (res : Value) : Prop :=
  match lookupFold name (mapRange m) with
  | Some (k, x) =>
      exists x' e dv,
        write rest (Some v) (mkValue (Some x) false false) = Ret (x', e, None) /\
        data e = Some dv /\
        data res = Some (VMap t (update k (assign dv t) m)) /\
        map fst (update k (assign dv t) m) = map fst m /\
        In k (map fst m)
  | None =>
      exists x' e dv,
        write rest (Some v) (mkValue (Some (zero t)) true false) = Ret (x', e, None) /\
        data e = Some dv /\
        data res = Some (VMap t (m ++ [(name, convert dv t)])%list)
  end.

End Vocabulary.

(** ** The [ReadWriter] interface

    The two implementations of the interface in [config.go]: a [config], and
    a [sub] around any [ReadWriter] (so around another [sub] too).  A call
    on a [sub] goes to the wrapped [ReadWriter] under the resolved key; a
    [Write] leaves the wrappers as they are and changes the [config] at the
    bottom. *)

Inductive ReadWriter :=
  | OfConfig (c : config)
  | OfSub (rw : ReadWriter) (prefix : string).

Section Interface.
Context {L : Library} {RT : Runtime}.

Fixpoint ReadWriter_Read (rw : ReadWriter) (key : string)
  : result (any * option KeyError) :=
  match rw with
  | OfConfig c => Read c key
  | OfSub rw prefix => ReadWriter_Read rw (prefix ++ "." ++ key)
  end.

Fixpoint ReadWriter_ReadString (rw : ReadWriter) (key : string)
  : result (string * option KeyError) :=
  match rw with
  | OfConfig c => ReadString c key
  | OfSub rw prefix => ReadWriter_ReadString rw (prefix ++ "." ++ key)
  end.

Fixpoint ReadWriter_Write (rw : ReadWriter) (key : string) (v : option value)
  : result (ReadWriter * option KeyError) :=
  match rw with
  | OfConfig c => '(c', err) <- Write c key v ;; Ret (OfConfig c', err)
  | OfSub rw prefix =>
      '(rw', err) <- ReadWriter_Write rw (prefix ++ "." ++ key) v ;;
      Ret (OfSub rw' prefix, err)
  end.

End Interface.

(** The [config] at the bottom of a [ReadWriter], the prefixes of the [sub]s
    around it, from the innermost to the outermost, and the same wrappers
    around another [config]. *)
Fixpoint rootOf (rw : ReadWriter) : config :=
  match rw with
  | OfConfig c => c
  | OfSub rw _ => rootOf rw
  end.

Fixpoint prefixes (rw : ReadWriter) : list string :=
  match rw with
  | OfConfig _ => []
  | OfSub rw prefix => prefixes rw ++ [prefix]
  end.

Fixpoint rebase (rw : ReadWriter) (c : config) : ReadWriter :=
  match rw with
  | OfConfig _ => OfConfig c
  | OfSub rw prefix => OfSub (rebase rw c) prefix
  end.

(** The segments a call on [rw] with [key] traverses. *)
Definition segments (rw : ReadWriter) (key : string) : list string :=
  (flat_map (fun p => Strings.Split p dot) (prefixes rw) ++ Strings.Split key dot)%list.

(** The key a call on [rw] with [key] passes to the [config] at the
    bottom. *)
Definition fullKey (rw : ReadWriter) (key : string) : string :=
  Strings.Join (prefixes rw ++ [key]) ".".

(** [NoSuchKey] for the whole path. *)
Definition noSuchKey (p : list string) : KeyError :=
  ErrNoSuchKey (mkConfigurationError (Strings.Join p ".")).

(** ** A library and orders to run the engine on

    For the examples: names of ASCII bytes; floating point is left out (the
    operations are constant), so the library serves for values without
    floats; [MapRange] visits the entries in the order they are listed, or
    in the reverse order. *)

Module Run.

#[export] Instance asciiLibrary : Library := {|
  EqualFold := Strings.EqualFoldASCII;
  EqualFold_refl := fun s => String.eqb_refl (Strings.ToLower s);
  EqualFold_sym := fun s t => String.eqb_sym (Strings.ToLower s) (Strings.ToLower t);
  EqualFold_trans := fun s t u (H1 : String.eqb (Strings.ToLower s) (Strings.ToLower t) = true)
                         (H2 : String.eqb (Strings.ToLower t) (Strings.ToLower u) = true) =>
    eq_ind_r (fun x => String.eqb x (Strings.ToLower u) = true) H2
      (proj1 (String.eqb_eq _ _) H1);
  EqualFold_nil := fun s =>
    match s return String.eqb "" (Strings.ToLower s) = true -> s = "" with
    | EmptyString => fun _ => eq_refl
    | String _ _ => fun H => False_ind _ (diff_false_true H)
    end;
  IsExported := Strings.IsExportedASCII;
  intToFloat := fun _ _ => 0;
  floatToInt := fun _ _ _ => 0;
  floatToFloat := fun _ _ b => b;
  FormatFloat := fun _ _ => "";
  FormatComplex := fun _ _ _ => ""
|}.

#[export] Instance listRuntime : Runtime := {|
  mapRange := fun m => m;
  mapRange_perm := fun m => Permutation_refl m
|}.

(** Not an instance: it is named where an example visits a map in the other
    order. *)
Definition reversedRuntime : Runtime := {|
  mapRange := fun m => List.rev m;
  mapRange_perm := fun m => Permutation_sym (Permutation_rev m)
|}.

End Run.

(** ** Values the examples run on *)

Module Roots.

Definition okWrite (r : result (config * option KeyError)) : option config :=
  match r with
  | Ret (c, None) => Some c
  | _ => None
  end.

(** [Config] of the README, its [Exotic] field unfolded to the depth given. *)
Fixpoint Config (depth : nat) : type :=
  TStruct [("My", TString);
           ("Exotic", TMap (match depth with
                            | O => TStruct []
                            | S n => Config n
                            end));
           ("Configuration", TBool)].

Definition demo : value :=
  VPtr (VPtr (VStruct [("My", VString "Demo");
                       ("Exotic", VNilMap (Config 3));
                       ("Configuration", VBool false)])).

(** The roots of the examples. *)
Definition fooString : config := New (Some (VPtr (VStruct [("Foo", VString "")]))).
Definition fooBar : config :=
  New (Some (VPtr (VStruct [("Foo", VString "a"); ("Bar", VString "b")]))).
Definition fooMap : config := New (Some (VPtr (VMap TString [("Foo", VString "x")]))).
Definition inner : type := TStruct [("X", TInt Int)].
Definition nilPointer : config := New (Some (VPtr (VStruct [("P", VNilPtr inner)]))).
(** [struct { F *interface{} }] whose [F] points to an interface holding a
    [*struct { A string }]. *)
Definition boxedPointer (a : string) : config :=
  New (Some (VPtr (VStruct [("F", VPtr (VIface (VPtr (VStruct [("A", VString a)]))))]))).

(** [struct { A, B *struct { X string } }] behind a pointer, in a store: the
    struct is variable 1, and [A] and [B] both point to variable 0. *)
Definition leaf : type := TStruct [("X", TString)].
Definition pair : type := TStruct [("A", TPtr leaf); ("B", TPtr leaf)].
Definition sharedRoot : Shared.config :=
  Shared.New (Some (Shared.CPtr pair (1%nat, []))).
(** The same with pointees of their own: [A] points to variable 0 and [B] to
    variable 2. *)
Definition ownStore (a b : string) : Shared.store :=
  [Shared.CStruct [("X", Shared.CString a)];
   Shared.CStruct [("A", Shared.CPtr leaf (0%nat, []));
                   ("B", Shared.CPtr leaf (2%nat, []))];
   Shared.CStruct [("X", Shared.CString b)]].
(** The tree of [ownStore]. *)
Definition ownTree (a b : string) : config :=
  New (Some (VPtr (VStruct [("A", VPtr (VStruct [("X", VString a)]));
                            ("B", VPtr (VStruct [("X", VString b)]))]))).

End Roots.

(** More values for examples. *)
Module Samples.

(** [struct { Default struct { Name string } }] behind a pointer. *)
Definition profiles : config :=
  New (Some (VPtr (VStruct [("Default", VStruct [("Name", VString "n")])]))).

(** Two profiles, and the same after "m" was written to the name of the
    first. *)
Definition twoProfiles : config :=
  New (Some (VPtr (VStruct [("Default", VStruct [("Name", VString "n")]);
                            ("Other", VStruct [("Name", VString "o")])]))).

Definition twoProfilesWritten : config :=
  New (Some (VPtr (VStruct [("Default", VStruct [("Name", VString "m")]);
                            ("Other", VStruct [("Name", VString "o")])]))).

End Samples.

(** * Lemmas *)

(** ** Proof tools *)

Lemma bind_Ret {A B} (m : result A) (f : A -> result B) (b : B) :
  bind m f = Ret b -> exists a, m = Ret a /\ f a = Ret b.
Proof. destruct m; simpl; intros H; [eauto | discriminate]. Qed.

(** Split a hypothesis [x <- m ;; f = Ret b] into [m = Ret a] and [f a = Ret b]. *)
Ltac bind_inv H :=
  let a := fresh "a" in
  let E := fresh "E" in
  apply bind_Ret in H; destruct H as [a [E H]].

Ltac ret_inv H := inversion H; subst; clear H.

(** ** The recursion of [write] and [read], as the source has it

    [writeAt] and [readAt] follow pointers and interfaces by recursion on
    the value; these equations give the calls of the source, which recurse
    on [element.Elem()] with the key unchanged. *)

Section Unfolding.
Context {L : Library} {RT : Runtime}.

Lemma write_zero name key value :
  write (name :: key) value zeroValue
  = Ret (None, zeroValue, Some (ErrUnhandledKind (mkConfigurationError name) "invalid")).
Proof. reflexivity. Qed.

Lemma write_Ptr name key value x addr ro :
  let element := mkValue (Some (VPtr x)) addr ro in
  write (name :: key) value element =
  ('(x', e, err) <- write (name :: key) value (Elem element) ;;
   let d' := match x' with Some y => VPtr y | None => VPtr x end in
   match err with
   | Some err => Ret (Some d', mkValue (Some d') addr ro, Some err)
   | None =>
       if CanAddr e then
         match data e with
         | Some y => Ret (Some d', mkValue (Some (VPtr y)) false (flagRO e), None)
         | None => Panic "reflect: call of reflect.Value.Addr on zero Value"
         end
       else
         t <- Type_ e ;;
         y <- Set_ (mkValue (Some (zero t)) true false) t e ;;
         Ret (Some d', mkValue (Some (VPtr y)) false false, None)
   end).
Proof. reflexivity. Qed.

Lemma write_Interface name key value x addr ro :
  let element := mkValue (Some (VIface x)) addr ro in
  write (name :: key) value element =
  ('(x', e, err) <- write (name :: key) value (Elem element) ;;
   let d' := match x' with Some y => VIface y | None => VIface x end in
   match err with
   | Some err => Ret (Some d', mkValue (Some d') addr ro, Some err)
   | None => i <- Interface_ e ;; Ret (Some d', ValueOf i, None)
   end).
Proof. reflexivity. Qed.

Lemma write_nil_Ptr name key value t addr ro :
  let element := mkValue (Some (VNilPtr t)) addr ro in
  Elem element = zeroValue /\
  write (name :: key) value element =
  ('(_, _, err) <- write (name :: key) value (Elem element) ;;
   Ret (Some (VNilPtr t), element, err)).
Proof. split; reflexivity. Qed.

Lemma read_Ptr name key x addr ro :
  let element := mkValue (Some (VPtr x)) addr ro in
  read (name :: key) element = read (name :: key) (Elem element).
Proof. reflexivity. Qed.

Lemma read_Interface name key x addr ro :
  let element := mkValue (Some (VIface x)) addr ro in
  read (name :: key) element = read (name :: key) (Elem element).
Proof. reflexivity. Qed.

Lemma read_nil_Ptr name key t addr ro :
  let element := mkValue (Some (VNilPtr t)) addr ro in
  read (name :: key) element = read (name :: key) (Elem element).
Proof. reflexivity. Qed.

End Unfolding.

(** ** Error paths *)

Lemma Key_From e name : Key (From e name) = name ++ "." ++ Key e.
Proof. destruct e; reflexivity. Qed.

Lemma pathPrefix_here name rest e : Key e = name -> pathPrefix (name :: rest) e.
Proof.
  intros H. exists 1%nat. split; [simpl; lia | simpl; exact H].
Qed.

Lemma pathPrefix_From name rest e :
  pathPrefix rest e -> pathPrefix (name :: rest) (From e name).
Proof.
  intros [n [[Hn Hl] HK]]. exists (S n). split; [simpl; lia |].
  rewrite Key_From, HK.
  destruct n as [|n]; [lia |].
  destruct rest as [|b rest]; [simpl in Hl; lia |].
  reflexivity.
Qed.

Section ErrorPaths.
Context {L : Library} {RT : Runtime}.

Lemma readAt_path name rest recurse :
  (forall el r e, recurse el = Ret (r, Some e) -> pathPrefix rest e) ->
  forall d a ro r e,
    readAt name recurse d a ro = Ret (r, Some e) -> pathPrefix (name :: rest) e.
Proof.
  intros IH d.
  induction d; intros a ro r e H; simpl in H;
    try (ret_inv H; apply pathPrefix_here; reflexivity); eauto.
  - destruct (lookupFold name fields) as [[fname x]|].
    + bind_inv H. destruct a0 as [v [err|]]; ret_inv H.
      apply pathPrefix_From. eapply IH; eauto.
    + ret_inv H. apply pathPrefix_here; reflexivity.
  - destruct (lookupFold name (mapRange entries)) as [[k x]|].
    + bind_inv H. destruct a0 as [v [err|]]; ret_inv H.
      apply pathPrefix_From. eapply IH; eauto.
    + ret_inv H. apply pathPrefix_here; reflexivity.
Qed.

Lemma read_path key : forall el r e,
  read key el = Ret (r, Some e) -> pathPrefix key e.
Proof.
  induction key as [|name rest IH]; intros el r e H; simpl in H.
  - bind_inv H. discriminate.
  - destruct (data el) as [d|].
    + eapply readAt_path; eauto.
    + ret_inv H. apply pathPrefix_here; reflexivity.
Qed.

Lemma writeAt_path name rest recurse :
  (forall el st r e, recurse el = Ret (st, r, Some e) -> pathPrefix rest e) ->
  forall d a ro st r e,
    writeAt name recurse d a ro = Ret (st, r, Some e) -> pathPrefix (name :: rest) e.
Proof.
  intros IH d.
  induction d; intros a ro st r e H; simpl in H;
    try (ret_inv H; apply pathPrefix_here; reflexivity).
  - (* struct *)
    destruct (lookupFold name fields) as [[fname x]|].
    + bind_inv H. destruct a0 as [[x' v] [err|]].
      * ret_inv H. apply pathPrefix_From. eapply IH; eauto.
      * bind_inv H. destruct a0; simpl in H.
        -- destruct (CanSet _); simpl in H.
           ++ bind_inv H. bind_inv H. discriminate.
           ++ bind_inv H. bind_inv H. bind_inv H. discriminate.
        -- ret_inv H. apply pathPrefix_here; reflexivity.
    + ret_inv H. apply pathPrefix_here; reflexivity.
  - (* nil map *)
    replace (mapRange []) with (@nil (string * value)) in H
      by (symmetry; apply Permutation_nil; apply Permutation_sym, mapRange_perm).
    simpl in H. bind_inv H. destruct a0 as [[x' v] [err|]].
    + ret_inv H. apply pathPrefix_From. eapply IH; eauto.
    + bind_inv H. destruct a0; simpl in H.
      * bind_inv H. bind_inv H. discriminate.
      * ret_inv H. apply pathPrefix_here; reflexivity.
  - (* map *)
    destruct (lookupFold name (mapRange entries)) as [[k x]|].
    + bind_inv H. destruct a0 as [[x' v] [err|]].
      * ret_inv H. apply pathPrefix_From. eapply IH; eauto.
      * bind_inv H. discriminate.
    + bind_inv H. destruct a0 as [[x' v] [err|]].
      * ret_inv H. apply pathPrefix_From. eapply IH; eauto.
      * bind_inv H. destruct a0; simpl in H.
        -- bind_inv H. bind_inv H. discriminate.
        -- ret_inv H. apply pathPrefix_here; reflexivity.
  - (* pointer *)
    bind_inv H. destruct a0 as [[x' v] [err|]].
    + ret_inv H. eapply IHd; eauto.
    + destruct (CanAddr v).
      * destruct (data v); discriminate.
      * bind_inv H. bind_inv H. discriminate.
  - (* interface *)
    bind_inv H. destruct a0 as [[x' v] [err|]].
    + ret_inv H. eapply IHd; eauto.
    + bind_inv H. discriminate.
Qed.

Lemma write_path key v : forall el s r e,
  write key v el = Ret (s, r, Some e) -> pathPrefix key e.
Proof.
  induction key as [|name rest IH]; intros el s r e H; simpl in H.
  - discriminate.
  - destruct (data el) as [d|].
    + eapply writeAt_path; eauto.
    + ret_inv H. apply pathPrefix_here; reflexivity.
Qed.

End ErrorPaths.

(** ** Entries of structs and maps *)

Lemma update_keys k y l : map fst (update k y l) = map fst l.
Proof.
  induction l as [|[k' z] l IH]; simpl; [reflexivity |].
  destruct (String.eqb k k'); simpl; congruence.
Qed.

Lemma update_update k x y l : update k y (update k x l) = update k y l.
Proof.
  induction l as [|[k' z] l IH]; simpl; [reflexivity |].
  destruct (String.eqb k k') eqn:E; simpl; rewrite E; congruence.
Qed.

Lemma update_In_other k y l g x :
  In (g, x) l -> g <> k -> In (g, x) (update k y l).
Proof.
  induction l as [|[k' z] l IH]; simpl; intros Hin Hne; [assumption |].
  destruct (String.eqb k k') eqn:E; simpl.
  - apply String.eqb_eq in E; subst.
    destruct Hin as [Hin | Hin]; [ret_inv Hin; congruence | auto].
  - destruct Hin; auto.
Qed.

Lemma update_In_same k y l x : In (k, x) l -> In (k, y) (update k y l).
Proof.
  induction l as [|[k' z] l IH]; simpl; intros Hin; [assumption |].
  destruct (String.eqb k k') eqn:E; simpl.
  - apply String.eqb_eq in E; subst. auto.
  - destruct Hin as [Hin | Hin]; [| auto].
    ret_inv Hin. rewrite String.eqb_refl in E. discriminate.
Qed.

Lemma hasKey_In k l x : In (k, x) l -> hasKey k l = true.
Proof.
  intros H. apply existsb_exists. exists (k, x). split; [assumption |].
  apply String.eqb_refl.
Qed.

Lemma hasKey_false k l : hasKey k l = false -> forall x, ~ In (k, x) l.
Proof.
  intros H x Hin. rewrite (hasKey_In _ _ _ Hin) in H. discriminate.
Qed.

Lemma remove_In_other k l g x : In (g, x) l -> g <> k -> In (g, x) (remove k l).
Proof.
  induction l as [|[k' z] l IH]; simpl; intros Hin Hne; [assumption |].
  destruct (String.eqb k k') eqn:E; simpl.
  - apply String.eqb_eq in E; subst.
    destruct Hin as [Hin | Hin]; [ret_inv Hin; congruence | assumption].
  - destruct Hin; auto.
Qed.

Lemma remove_In k l e : In e (remove k l) -> In e l.
Proof.
  induction l as [|[k' z] l IH]; simpl; intros Hin; [assumption |].
  destruct (String.eqb k k'); simpl in *; [auto |].
  destruct Hin; auto.
Qed.

Lemma remove_update k y l : remove k (update k y l) = remove k l.
Proof.
  induction l as [|[k' z] l IH]; simpl; [reflexivity |].
  destruct (String.eqb k k') eqn:E; simpl; rewrite E; congruence.
Qed.

Lemma store_present k x y l : In (k, x) l -> store k y l = update k y l.
Proof. intros H. unfold store. rewrite (hasKey_In _ _ _ H). reflexivity. Qed.

Lemma existsb_fst (f : string -> bool) (l : list (string * value)) :
  existsb (fun e => f (fst e)) l = existsb f (map fst l).
Proof. induction l as [|e l IH]; simpl; congruence. Qed.

(** ** Case-insensitive lookup *)

Section Lookup.
Context {L : Library}.

(** Names equal up to case match the same names. *)
Lemma EqualFold_congr a b k :
  EqualFold a b = true -> EqualFold a k = EqualFold b k.
Proof.
  intros H.
  destruct (EqualFold a k) eqn:E1, (EqualFold b k) eqn:E2; try reflexivity.
  - rewrite EqualFold_sym in H. rewrite (EqualFold_trans _ _ _ H E1) in E2. discriminate.
  - rewrite (EqualFold_trans _ _ _ H E2) in E1. discriminate.
Qed.

Lemma EqualFold_common a b k :
  EqualFold a k = true -> EqualFold b k = true -> EqualFold a b = true.
Proof.
  intros Ha Hb. rewrite EqualFold_sym in Hb. exact (EqualFold_trans _ _ _ Ha Hb).
Qed.

Lemma EqualFold_empty k : k <> "" -> EqualFold "" k = false.
Proof.
  intros Hk. destruct (EqualFold "" k) eqn:E; [| reflexivity].
  apply EqualFold_nil in E. contradiction.
Qed.

Lemma foldEqual_refl p : foldEqual p p.
Proof. induction p; constructor; auto using EqualFold_refl. Qed.

Lemma foldEqual_sym p q : foldEqual p q -> foldEqual q p.
Proof.
  induction 1; constructor; [| assumption].
  rewrite EqualFold_sym. assumption.
Qed.

Lemma lookupFold_congr a b l :
  EqualFold a b = true -> lookupFold a l = lookupFold b l.
Proof.
  intros H. induction l as [|[k x] l IH]; simpl; [reflexivity |].
  rewrite (EqualFold_congr _ _ k H). rewrite IH. reflexivity.
Qed.

Lemma lookupFold_Some name l k x :
  lookupFold name l = Some (k, x) -> In (k, x) l /\ EqualFold name k = true.
Proof.
  induction l as [|[k' y] l IH]; simpl; [discriminate |].
  destruct (EqualFold name k') eqn:E; intros H.
  - ret_inv H. auto.
  - destruct (IH H); auto.
Qed.

Lemma lookupFold_None name l :
  lookupFold name l = None ->
  forall k x, In (k, x) l -> EqualFold name k = false.
Proof.
  induction l as [|[k' y] l IH]; simpl; intros H k x Hin; [contradiction |].
  destruct (EqualFold name k') eqn:E; [discriminate |].
  destruct Hin as [Hin | Hin]; [ret_inv Hin; assumption | eauto].
Qed.

Lemma lookupFold_absent name l :
  (forall k x, In (k, x) l -> EqualFold name k = false) ->
  lookupFold name l = None.
Proof.
  induction l as [|[k y] l IH]; simpl; intros H; [reflexivity |].
  rewrite (H k y) by auto. apply IH. intros; eapply H; eauto.
Qed.

(** ** Names distinct up to case *)

Lemma distinctFold_cons e l :
  distinctFold (e :: l) = true ->
  (forall e', In e' l -> EqualFold (fst e) (fst e') = false) /\ distinctFold l = true.
Proof.
  simpl. intros H. apply andb_true_iff in H. destruct H as [H1 H2].
  split; [| assumption]. intros e' Hin.
  apply negb_true_iff in H1.
  destruct (EqualFold (fst e) (fst e')) eqn:E; [| reflexivity].
  assert (existsb (fun e' => EqualFold (fst e) (fst e')) l = true)
    by (apply existsb_exists; eauto).
  congruence.
Qed.

Lemma distinctFold_intro e l :
  (forall e', In e' l -> EqualFold (fst e) (fst e') = false) ->
  distinctFold l = true -> distinctFold (e :: l) = true.
Proof.
  intros H1 H2. simpl. rewrite H2, andb_true_r. apply negb_true_iff.
  destruct (existsb _ l) eqn:E; [| reflexivity].
  apply existsb_exists in E. destruct E as [e' [Hin He]].
  rewrite (H1 _ Hin) in He. discriminate.
Qed.

(** With names distinct up to case, the lookup finds the one entry that
    matches, in whatever order the entries are visited. *)
Lemma lookupFold_unique name l k x :
  distinctFold l = true -> In (k, x) l -> EqualFold name k = true ->
  lookupFold name l = Some (k, x).
Proof.
  induction l as [|[k' y] l IH]; intros Hd Hin Hf; [contradiction |].
  apply distinctFold_cons in Hd. destruct Hd as [H1 H2]. simpl.
  destruct (EqualFold name k') eqn:E.
  - destruct Hin as [Hin | Hin]; [congruence |].
    exfalso. specialize (H1 _ Hin). simpl in H1.
    rewrite EqualFold_sym in E. rewrite (EqualFold_trans _ _ _ E Hf) in H1.
    discriminate.
  - destruct Hin as [Hin | Hin]; [ret_inv Hin; congruence | auto].
Qed.

Lemma distinctFold_perm l l' :
  Permutation l l' -> distinctFold l = true -> distinctFold l' = true.
Proof.
  induction 1 as [| e l l' Hp IH | x y l | l l' l'' H1 IH1 H2 IH2]; intros Hd.
  - reflexivity.
  - apply distinctFold_cons in Hd. destruct Hd as [Ha Hb].
    apply distinctFold_intro; [| auto].
    intros e' Hin. apply Ha. eapply Permutation_in; [apply Permutation_sym |]; eassumption.
  - apply distinctFold_cons in Hd. destruct Hd as [Hy Hd].
    apply distinctFold_cons in Hd. destruct Hd as [Hx Hd].
    apply distinctFold_intro; [| apply distinctFold_intro; [| assumption]].
    + intros e' [He | Hin]; [subst e' | auto].
      rewrite EqualFold_sym. apply Hy. left; reflexivity.
    + intros e' Hin. apply Hy. right; assumption.
  - auto.
Qed.

Lemma distinctFold_keys l : forall l',
  map fst l = map fst l' -> distinctFold l = distinctFold l'.
Proof.
  induction l as [|e l IH]; intros [|e' l'] H; simpl in *; try discriminate;
    [reflexivity |].
  injection H as H1 H2. rewrite (IH _ H2).
  rewrite (existsb_fst (EqualFold (fst e)) l), (existsb_fst (EqualFold (fst e')) l').
  rewrite H1, H2. reflexivity.
Qed.

Lemma distinctFold_update k y l : distinctFold (update k y l) = distinctFold l.
Proof. apply distinctFold_keys, update_keys. Qed.

Lemma distinctFold_remove k l : distinctFold l = true -> distinctFold (remove k l) = true.
Proof.
  induction l as [|[k' z] l IH]; intros H; [reflexivity |].
  apply distinctFold_cons in H. destruct H as [Ha Hb]. simpl.
  destruct (String.eqb k k'); [assumption |].
  apply distinctFold_intro; [| auto].
  intros e' Hin. apply Ha. eapply remove_In; eassumption.
Qed.

Lemma distinctFold_append name c l :
  distinctFold l = true ->
  (forall k x, In (k, x) l -> EqualFold name k = false) ->
  distinctFold (l ++ [(name, c)]) = true.
Proof.
  induction l as [|[k z] l IH]; intros Hd Hno; [reflexivity |].
  apply distinctFold_cons in Hd. destruct Hd as [Ha Hb].
  rewrite <- app_comm_cons. apply distinctFold_intro.
  - intros e' Hin. apply in_app_or in Hin. destruct Hin as [Hin | [He | []]]; [auto |].
    subst e'. simpl. rewrite EqualFold_sym. apply (Hno k z). left; reflexivity.
  - apply IH; [assumption |]. intros k' x Hin. apply (Hno k' x). right; assumption.
Qed.

(** The lookup after one entry was replaced. *)
Lemma lookupFold_update b k y l :
  lookupFold b (update k y l) =
  match lookupFold b l with
  | Some (g, x) => if String.eqb k g then Some (g, y) else Some (g, x)
  | None => None
  end.
Proof.
  induction l as [|[k' z] l IH]; simpl; [reflexivity |].
  destruct (String.eqb k k') eqn:E; simpl.
  - destruct (EqualFold b k') eqn:Eb; [rewrite E; reflexivity |].
    apply String.eqb_eq in E; subst k'.
    destruct (lookupFold b l) as [[g x]|] eqn:El; [| reflexivity].
    apply lookupFold_Some in El. destruct El as [_ El].
    destruct (String.eqb k g) eqn:Eg; [| reflexivity].
    apply String.eqb_eq in Eg; subst g. congruence.
  - destruct (EqualFold b k') eqn:Eb; [rewrite E; reflexivity |].
    exact IH.
Qed.

Lemma foldFree_field fs k x : foldFree (VStruct fs) = true -> In (k, x) fs -> foldFree x = true.
Proof.
  simpl. intros H Hin. rewrite forallb_forall in H. exact (H _ Hin).
Qed.

Lemma foldFree_entry t m k x : foldFree (VMap t m) = true -> In (k, x) m -> foldFree x = true.
Proof.
  simpl. intros H Hin. apply andb_true_iff in H. destruct H as [_ H].
  rewrite forallb_forall in H. exact (H _ Hin).
Qed.

Lemma foldFree_keys t m : foldFree (VMap t m) = true -> distinctFold m = true.
Proof.
  simpl. intros H. apply andb_true_iff in H. destruct H as [H _]. assumption.
Qed.

Lemma store_absent k y l :
  (forall g x, In (g, x) l -> EqualFold k g = false) ->
  store k y l = (l ++ [(k, y)])%list.
Proof.
  intros H. unfold store.
  destruct (hasKey k l) eqn:E; [| reflexivity].
  apply existsb_exists in E. destruct E as [[g x] [Hin Hg]].
  simpl in Hg. apply String.eqb_eq in Hg. subst g.
  pose proof (EqualFold_refl k). specialize (H _ _ Hin). congruence.
Qed.

Lemma foldFree_zero : forall t, foldFree (zero t) = true.
Proof.
  fix IH 1. intros t. destruct t as [| | | | | fs | | | |]; simpl; try reflexivity.
  induction fs as [|[n t] fs IHfs]; simpl; [reflexivity |].
  rewrite IH, IHfs. reflexivity.
Qed.

Section Ranging.
Context {RT : Runtime}.

Lemma mapRange_nil : mapRange [] = [].
Proof. apply Permutation_nil, Permutation_sym, mapRange_perm. Qed.

Lemma mapRange_In e m : In e (mapRange m) <-> In e m.
Proof.
  split; apply Permutation_in; [| apply Permutation_sym]; apply mapRange_perm.
Qed.

Lemma mapRange_distinct m : distinctFold m = true -> distinctFold (mapRange m) = true.
Proof. apply distinctFold_perm, Permutation_sym, mapRange_perm. Qed.

Lemma ranged_Some name m k x :
  lookupFold name (mapRange m) = Some (k, x) ->
  In (k, x) m /\ EqualFold name k = true.
Proof.
  intros H. apply lookupFold_Some in H. destruct H. split; [| assumption].
  apply mapRange_In; assumption.
Qed.

Lemma ranged_unique name m k x :
  distinctFold m = true -> In (k, x) m -> EqualFold name k = true ->
  lookupFold name (mapRange m) = Some (k, x).
Proof.
  intros Hnd Hin Hf. apply lookupFold_unique; auto using mapRange_distinct.
  apply mapRange_In; assumption.
Qed.

Lemma ranged_None name m :
  lookupFold name (mapRange m) = None ->
  forall k x, In (k, x) m -> EqualFold name k = false.
Proof.
  intros H k x Hin. eapply lookupFold_None; eauto. apply mapRange_In; eassumption.
Qed.

Lemma ranged_absent name m :
  (forall k x, In (k, x) m -> EqualFold name k = false) ->
  lookupFold name (mapRange m) = None.
Proof.
  intros H. apply lookupFold_absent. intros k x Hin. eapply H.
  apply mapRange_In; eassumption.
Qed.

(** With keys distinct up to case, every order of visit finds the entry
    that the listed order finds. *)
Lemma ranged_listed name m :
  distinctFold m = true -> lookupFold name (mapRange m) = lookupFold name m.
Proof.
  intros Hd. destruct (lookupFold name m) as [[k x]|] eqn:E.
  - apply lookupFold_Some in E. destruct E. apply ranged_unique; assumption.
  - apply ranged_absent. apply lookupFold_None. assumption.
Qed.

End Ranging.

End Lookup.

(** ** Conversions of the values [write] returns *)

Lemma box_box d : box (box d) = box d.
Proof. destruct d; reflexivity. Qed.

Lemma assign_self d : assign d (typeOf d) = d.
Proof. destruct d; reflexivity. Qed.

Section Conversions.
Context {L : Library} {RT : Runtime}.

Lemma convert_interface d : convert d TInterface = box d.
Proof. destruct d; reflexivity. Qed.

Lemma assign_convert d t : assign (convert d t) t = convert d t.
Proof.
  destruct t; try reflexivity.
  rewrite convert_interface. simpl. apply box_box.
Qed.

Lemma convert_container d t :
  container d = true ->
  convert d t = match t with TInterface => VIface d | _ => d end.
Proof. destruct d; try discriminate; destruct t; reflexivity. Qed.

Lemma assign_container d t :
  container d = true ->
  assign d t = match t with TInterface => VIface d | _ => d end.
Proof. destruct d; try discriminate; destruct t; reflexivity. Qed.

End Conversions.

(** ** The reflect operations that returned *)

Section Primitives.
Context {L : Library} {RT : Runtime}.

Lemma CanConvert_Ret v t ok :
  CanConvert v t = Ret ok ->
  exists dv, data v = Some dv /\ ok = ConvertibleTo (typeOf dv) t.
Proof.
  unfold CanConvert, Type_. destruct (data v) as [dv|]; simpl; intros H;
    [ret_inv H; eauto | discriminate].
Qed.

Lemma Convert_Ret v t c :
  Convert v t = Ret c ->
  exists dv, data v = Some dv /\ ConvertibleTo (typeOf dv) t = true /\
             c = mkValue (Some (convert dv t)) false (flagRO v).
Proof.
  unfold Convert. destruct (data v) as [dv|]; [| discriminate].
  destruct (ConvertibleTo (typeOf dv) t) eqn:Ec; intros H;
    [ret_inv H; exists dv; auto | discriminate].
Qed.

Lemma assignTo_Ret v fn t y :
  assignTo v fn t = Ret y ->
  exists dv, data v = Some dv /\ AssignableTo (typeOf dv) t = true /\ y = assign dv t.
Proof.
  unfold assignTo. destruct (data v) as [dv|]; [| discriminate].
  destruct (AssignableTo (typeOf dv) t) eqn:Ea; intros H;
    [ret_inv H; exists dv; auto | discriminate].
Qed.

Lemma mustBeExported_Ret v fn u : mustBeExported v fn = Ret u -> flagRO v = false.
Proof.
  unfold mustBeExported. destruct (data v); [| discriminate].
  destruct (flagRO v); [discriminate | reflexivity].
Qed.

Lemma mustBeAssignable_Ret v fn u :
  mustBeAssignable v fn = Ret u -> flagRO v = false /\ flagAddr v = true.
Proof.
  unfold mustBeAssignable. destruct (data v); [| discriminate].
  destruct (flagRO v); [discriminate |].
  destruct (flagAddr v); [auto | discriminate].
Qed.

Lemma Set_Ret dst t x y :
  Set_ dst t x = Ret y ->
  flagRO dst = false /\
  exists dv, data x = Some dv /\ AssignableTo (typeOf dv) t = true /\ y = assign dv t.
Proof.
  unfold Set_. intros H. bind_inv H. bind_inv H.
  apply mustBeAssignable_Ret in E. destruct E as [E _].
  apply assignTo_Ret in H. auto.
Qed.

Lemma SetMapIndex_Ret element t m key e m2 :
  SetMapIndex element t m key e = Ret m2 ->
  match data e with
  | None => m2 = remove key m
  | Some dv => AssignableTo (typeOf dv) t = true /\ m2 = store key (assign dv t) m
  end.
Proof.
  unfold SetMapIndex. intros H. bind_inv H.
  destruct (data e) as [dv|] eqn:Hd.
  - bind_inv H. bind_inv H. ret_inv H.
    apply assignTo_Ret in E1. destruct E1 as [dv' [Hd' [Ha Hy]]].
    rewrite Hd in Hd'. ret_inv Hd'. auto.
  - ret_inv H. reflexivity.
Qed.

End Primitives.

(** Invert every reflect operation that returned. *)
Ltac prims :=
  repeat match goal with
  | H : CanConvert _ _ = Ret _ |- _ =>
      apply CanConvert_Ret in H; destruct H as (? & ? & ?)
  | H : Convert _ _ = Ret _ |- _ =>
      apply Convert_Ret in H; destruct H as (? & ? & ? & ?)
  | H : Set_ _ _ _ = Ret _ |- _ =>
      apply Set_Ret in H; destruct H as (? & ? & ? & ? & ?)
  | H : SetMapIndex _ _ _ _ _ = Ret _ |- _ => apply SetMapIndex_Ret in H
  | H : mustBeExported _ _ = Ret _ |- _ => apply mustBeExported_Ret in H
  end.

(** ** What a successful frame of [write] did *)

Section WriteInversion.
Context {L : Library} {RT : Runtime}.
Variable name : string.
Variable recurse : Value -> result written.

(** A successful [write] on a non-empty key returns a struct, a map or a
    pointer, not reached through an unexported field. *)
Lemma writeAt_result d : forall a st res,
  writeAt name recurse d a false = Ret (st, res, None) ->
  exists dv, data res = Some dv /\ container dv = true /\ flagRO res = false.
Proof.
  induction d; intros a st res H; simpl in H; try discriminate.
  - destruct (lookupFold name fields) as [[fname x]|]; [| discriminate].
    bind_inv H. destruct a0 as [[x' v] [err|]]; [discriminate |].
    bind_inv H. destruct a0; simpl in H; [| discriminate].
    destruct (CanSet _); simpl in H.
    + repeat bind_inv H. ret_inv H. simpl. eauto.
    + repeat bind_inv H. ret_inv H. simpl. eauto.
  - rewrite mapRange_nil in H. simpl in H.
    bind_inv H. destruct a0 as [[x' v] [err|]]; [discriminate |].
    bind_inv H. destruct a0; simpl in H; [| discriminate].
    bind_inv H. bind_inv H. ret_inv H. simpl. eauto.
  - destruct (lookupFold name (mapRange entries)) as [[k x]|].
    + bind_inv H. destruct a0 as [[x' v] [err|]]; [discriminate |].
      bind_inv H. ret_inv H. simpl. eauto.
    + bind_inv H. destruct a0 as [[x' v] [err|]]; [discriminate |].
      bind_inv H. destruct a0; simpl in H; [| discriminate].
      bind_inv H. bind_inv H. ret_inv H. simpl. eauto.
  - bind_inv H. destruct a0 as [[x' v] [err|]]; [discriminate |].
    destruct (IHd _ _ _ E) as [dv [Hd [Hc Hr]]].
    destruct (CanAddr v).
    + rewrite Hd in H. ret_inv H. simpl. eauto.
    + bind_inv H. bind_inv H. ret_inv H. simpl. eauto.
  - bind_inv H. destruct a0 as [[x' v] [err|]]; [discriminate |].
    destruct (IHd _ _ _ E) as [dv [Hd [Hc Hr]]].
    bind_inv H. ret_inv H.
    unfold Interface_ in E0. rewrite Hd, Hr in E0.
    destruct dv; try discriminate; ret_inv E0; simpl; eauto.
Qed.

Lemma writeAt_ptr x a st res :
  writeAt name recurse (VPtr x) a false = Ret (st, res, None) ->
  exists x' e dv,
    writeAt name recurse x true false = Ret (x', e, None) /\
    data e = Some dv /\ data res = Some (VPtr dv).
Proof.
  intros H. simpl in H.
  bind_inv H. destruct a0 as [[x' v] [err|]]; [discriminate |].
  pose proof E as E'. apply writeAt_result in E'. destruct E' as [dv [Hd [Hc Hr]]].
  exists x', v, dv. split; [exact E |]. split; [assumption |].
  destruct (CanAddr v).
  - rewrite Hd in H. ret_inv H. reflexivity.
  - bind_inv H. bind_inv H. ret_inv H. simpl.
    unfold Type_ in E0. rewrite Hd in E0. ret_inv E0.
    unfold Set_ in E1. simpl in E1. bind_inv E1.
    unfold assignTo in E1. rewrite Hd in E1.
    destruct (AssignableTo _ _); [| discriminate].
    ret_inv E1. rewrite assign_self. reflexivity.
Qed.

Lemma writeAt_iface x a st res :
  writeAt name recurse (VIface x) a false = Ret (st, res, None) ->
  exists x' e dv,
    writeAt name recurse x false false = Ret (x', e, None) /\
    data e = Some dv /\ data res = Some dv.
Proof.
  intros H. simpl in H.
  bind_inv H. destruct a0 as [[x' v] [err|]]; [discriminate |].
  pose proof E as E'. apply writeAt_result in E'. destruct E' as [dv [Hd [Hc Hr]]].
  exists x', v, dv. split; [exact E |]. split; [assumption |].
  bind_inv H. ret_inv H.
  unfold Interface_ in E0. rewrite Hd, Hr in E0.
  destruct dv; try discriminate; ret_inv E0; reflexivity.
Qed.

(** A struct frame that succeeds matched an exported field, and put there
    the value the recursive call returned, converted to the field's type. *)
Lemma writeAt_struct fs a st res :
  writeAt name recurse (VStruct fs) a false = Ret (st, res, None) ->
  exists fname x x' e dv,
    lookupFold name fs = Some (fname, x) /\
    IsExported fname = true /\
    recurse (mkValue (Some x) a false) = Ret (x', e, None) /\
    data e = Some dv /\
    ConvertibleTo (typeOf dv) (typeOf x) = true /\
    data res = Some (VStruct (update fname (convert dv (typeOf x)) fs)).
Proof.
  intros H. simpl in H.
  destruct (lookupFold name fs) as [[fname x]|]; [| discriminate].
  bind_inv H. destruct a0 as [[x' e] [err|]]; [discriminate |].
  bind_inv H. rename a0 into ok, E0 into Hok.
  unfold CanConvert, Type_ in Hok.
  destruct (data e) as [dv|] eqn:Hd; simpl in Hok; [| discriminate].
  assert (Hconv : ConvertibleTo (typeOf dv) (typeOf x) = ok) by congruence.
  clear Hok. destruct ok; simpl in H; [| discriminate].
  assert (Hexp : IsExported fname = true).
  { destruct (IsExported fname); [reflexivity |]. exfalso.
    simpl in H. unfold CanSet in H. simpl in H. rewrite andb_false_r in H.
    simpl in H. bind_inv H. bind_inv H.
    unfold Set_, mustBeAssignable in E1. simpl in E1.
    destruct x'; discriminate. }
  rewrite Hexp in E, H. simpl in E, H.
  exists fname, x, x', e, dv.
  split; [reflexivity |]. split; [exact Hexp |]. split; [exact E |].
  split; [exact Hd |]. split; [exact Hconv |].
  assert (Hset : forall dst y,
             Set_ dst (typeOf x)
               (mkValue (Some (convert dv (typeOf x))) false (flagRO e)) = Ret y ->
             y = convert dv (typeOf x)).
  { intros dst y Hy. unfold Set_ in Hy. bind_inv Hy. bind_inv Hy.
    unfold assignTo in Hy. simpl in Hy.
    destruct (AssignableTo _ _); [| discriminate].
    ret_inv Hy. apply assign_convert. }
  unfold Convert in H. rewrite Hd, Hconv in H. simpl in H.
  destruct (CanSet _); simpl in H.
  - bind_inv H. ret_inv H. simpl. rewrite (Hset _ _ E0). reflexivity.
  - bind_inv H. ret_inv H. simpl. rewrite (Hset _ _ E0). reflexivity.
Qed.

(** A nil map is replaced by a map holding the one new entry. *)
Lemma writeAt_nilmap t a ro st res :
  writeAt name recurse (VNilMap t) a ro = Ret (st, res, None) ->
  exists x' e dv,
    recurse (mkValue (Some (zero t)) true false) = Ret (x', e, None) /\
    data e = Some dv /\
    ConvertibleTo (typeOf dv) t = true /\
    data res = Some (VMap t [(name, convert dv t)]).
Proof.
  intros H. simpl in H. rewrite mapRange_nil in H. simpl in H.
  bind_inv H. destruct a0 as [[x' e] [err|]]; [discriminate |].
  bind_inv H. destruct a0; simpl in H; [| discriminate].
  repeat bind_inv H. ret_inv H. prims. simpl in *.
  match goal with H : data e = Some ?d |- _ => exists x', e, d end.
  repeat match goal with
  | H : data e = Some _, H' : data e = Some _ |- _ => rewrite H in H'; ret_inv H'
  end.
  simpl in *.
  match goal with H : _ /\ _ |- _ => destruct H as [? ?]; subst end.
  rewrite assign_convert. auto.
Qed.

(** No key matches: the new entry is added under the name as given. *)
Lemma writeAt_map_new t m a st res :
  writeAt name recurse (VMap t m) a false = Ret (st, res, None) ->
  lookupFold name (mapRange m) = None ->
  exists x' e dv,
    recurse (mkValue (Some (zero t)) true false) = Ret (x', e, None) /\
    data e = Some dv /\
    ConvertibleTo (typeOf dv) t = true /\
    data res = Some (VMap t (m ++ [(name, convert dv t)])%list).
Proof.
  intros H Hno. simpl in H. rewrite Hno in H.
  bind_inv H. destruct a0 as [[x' e] [err|]]; [discriminate |].
  bind_inv H. destruct a0; simpl in H; [| discriminate].
  repeat bind_inv H. ret_inv H. prims. simpl in *.
  match goal with H : data e = Some ?d |- _ => exists x', e, d end.
  repeat match goal with
  | H : data e = Some _, H' : data e = Some _ |- _ => rewrite H in H'; ret_inv H'
  end.
  simpl in *.
  match goal with H : _ /\ _ |- _ => destruct H as [? ?]; subst end.
  rewrite assign_convert.
  rewrite store_absent; [auto |].
  apply ranged_None; assumption.
Qed.

(** A key matches: the entry under that key is replaced (or deleted, when
    the recursive call returned the zero Value). *)
Lemma writeAt_map_old t m a st res k x :
  writeAt name recurse (VMap t m) a false = Ret (st, res, None) ->
  lookupFold name (mapRange m) = Some (k, x) ->
  exists x' e,
    recurse (mkValue (Some x) false false) = Ret (x', e, None) /\
    match data e with
    | None => data res = Some (VMap t (remove k m))
    | Some dv =>
        AssignableTo (typeOf dv) t = true /\
        data res = Some (VMap t (update k (assign dv t) m))
    end.
Proof.
  intros H Hk. simpl in H. rewrite Hk in H.
  apply ranged_Some in Hk. destruct Hk as [Hin _].
  bind_inv H. destruct a0 as [[x' e] [err|]]; [discriminate |].
  exists x', e. split; [exact E |].
  bind_inv H. ret_inv H. simpl. prims.
  destruct (data e) as [dv|] eqn:Hd.
  - destruct E0 as [Ha Hm]. subst. split; [assumption |].
    destruct x' as [y|].
    + rewrite (store_present _ _ _ _ (update_In_same _ y _ _ Hin)).
      rewrite update_update. reflexivity.
    + rewrite (store_present _ _ _ _ Hin). reflexivity.
  - subst. destruct x' as [y|]; [rewrite remove_update |]; reflexivity.
Qed.

End WriteInversion.

(** ** Reading does not depend on addressability *)

Section ReadFlags.
Context {L : Library} {RT : Runtime}.

Lemma readAt_addr name recurse :
  (forall x a a' ro y, recurse (mkValue (Some x) a ro) = Ret (y, None) ->
                       recurse (mkValue (Some x) a' ro) = Ret (y, None)) ->
  forall d a a' ro y,
    readAt name recurse d a ro = Ret (y, None) ->
    readAt name recurse d a' ro = Ret (y, None).
Proof.
  intros IH d. induction d; intros a a' ro y H; simpl in *; try discriminate; auto.
  destruct (lookupFold name fields) as [[fname x]|]; [| discriminate].
  bind_inv H. destruct a0 as [v [err|]]; [discriminate |]. ret_inv H.
  rewrite (IH _ _ a' _ _ E). reflexivity.
Qed.

Lemma read_addr q : forall d a a' ro y,
  read q (mkValue (Some d) a ro) = Ret (y, None) ->
  read q (mkValue (Some d) a' ro) = Ret (y, None).
Proof.
  induction q as [|name q IH]; intros d a a' ro y H.
  - exact H.
  - simpl in *. eapply readAt_addr; eauto.
Qed.

(** A frame of [read] that succeeds returns what the recursive call
    returned. *)
Lemma read_step (r : result (any * option KeyError)) (f : KeyError -> KeyError) y :
  ('(v, err) <- r ;;
   match err with
   | Some err => Ret (v, Some (f err))
   | None => Ret (v, None)
   end) = Ret (y, None) ->
  r = Ret (y, None).
Proof.
  intros H. bind_inv H. destruct a as [v [err|]]; [discriminate |].
  ret_inv H. reflexivity.
Qed.

End ReadFlags.

(** ** What [write] returns *)

Section Results.
Context {L : Library} {RT : Runtime}.

Lemma write_container name rest v el st res :
  flagRO el = false ->
  write (name :: rest) v el = Ret (st, res, None) ->
  exists dv, data res = Some dv /\ container dv = true /\ flagRO res = false.
Proof.
  intros Hro H. simpl in H. destruct (data el); [| discriminate].
  rewrite Hro in H. eapply writeAt_result; eauto.
Qed.

(** Reading below a value stored after conversion or assignment reads the
    value. *)
Lemma read_stored name q dv y t :
  container dv = true ->
  read (name :: q) (mkValue (Some dv) false false) = Ret (y, None) ->
  read (name :: q) (mkValue (Some (convert dv t)) false false) = Ret (y, None) /\
  read (name :: q) (mkValue (Some (assign dv t)) false false) = Ret (y, None).
Proof.
  intros Hc H.
  rewrite (convert_container dv t Hc), (assign_container dv t Hc).
  destruct t; auto.
Qed.

End Results.

(** ** Reading under names equal up to case, in another order of visit *)

Section Folding.
Context {L : Library}.
Variables R R' : Runtime.

Lemma readAt_fold a b recurse recurse' :
  EqualFold a b = true ->
  (forall x ad ro y, foldFree x = true ->
     recurse (mkValue (Some x) ad ro) = Ret (y, None) ->
     recurse' (mkValue (Some x) ad ro) = Ret (y, None)) ->
  forall d addr ro y,
    foldFree d = true ->
    readAt (RT := R) a recurse d addr ro = Ret (y, None) ->
    readAt (RT := R') b recurse' d addr ro = Ret (y, None).
Proof.
  intros Hab IH d. induction d; intros addr ro y Hff H; simpl in *; try discriminate; auto.
  - rewrite <- (lookupFold_congr a b fields Hab).
    destruct (lookupFold a fields) as [[fname x]|] eqn:El; [| discriminate].
    apply read_step in H. apply lookupFold_Some in El. destruct El as [Hin _].
    rewrite forallb_forall in Hff.
    pose proof (Hff _ Hin) as Hx. simpl in Hx.
    rewrite (IH _ _ _ _ Hx H). reflexivity.
  - apply andb_true_iff in Hff. destruct Hff as [Hnd Hff].
    destruct (lookupFold a (@mapRange R entries)) as [[k x]|] eqn:El; [| discriminate].
    apply read_step in H. apply ranged_Some in El. destruct El as [Hin Hak].
    assert (Hbk : EqualFold b k = true).
    { rewrite EqualFold_sym in Hab. exact (EqualFold_trans _ _ _ Hab Hak). }
    rewrite (ranged_unique (RT := R') b entries k x Hnd Hin Hbk).
    rewrite forallb_forall in Hff.
    pose proof (Hff _ Hin) as Hx. simpl in Hx.
    rewrite (IH _ _ _ _ Hx H). reflexivity.
Qed.

Lemma read_fold p q :
  foldEqual p q ->
  forall d ad ro y,
    foldFree d = true ->
    read (RT := R) p (mkValue (Some d) ad ro) = Ret (y, None) ->
    read (RT := R') q (mkValue (Some d) ad ro) = Ret (y, None).
Proof.
  induction 1 as [|a b p q Hab Hpq IH]; intros d ad ro y Hff H; [exact H |].
  simpl in *. eapply readAt_fold; eauto.
Qed.

End Folding.

(** What one order of visit reads, every order reads. *)
Lemma read_order {L : Library} (R R' : Runtime) q d ad ad' ro y :
  foldFree d = true ->
  read (RT := R) q (mkValue (Some d) ad ro) = Ret (y, None) ->
  read (RT := R') q (mkValue (Some d) ad' ro) = Ret (y, None).
Proof.
  intros Hff H. apply (read_addr q d ad ad' ro y).
  exact (read_fold R R' q q (foldEqual_refl q) d ad ro y Hff H).
Qed.

(** ** The frame of a write *)

Section Frame.
Context {L : Library}.
Variables W R R' : Runtime.

Lemma write_frame p : forall q v d a st res y,
  divergeb p q = true ->
  foldFree d = true ->
  write (RT := W) p v (mkValue (Some d) a false) = Ret (st, res, None) ->
  read (RT := R) q (mkValue (Some d) a false) = Ret (y, None) ->
  exists dv, data res = Some dv /\
             read (RT := R') q (mkValue (Some dv) false false) = Ret (y, None).
Proof.
  induction p as [|name rest IH]; intros q v d a st res y Hdiv Hff Hw Hr;
    [discriminate |].
  destruct q as [|b q']; [discriminate |].
  simpl in Hw, Hr, Hdiv. simpl read.
  revert a st res y Hff Hw Hr.
  induction d; intros a st res y Hff Hw Hr; try (simpl in Hw; discriminate).
  - (* struct *)
    apply writeAt_struct in Hw.
    destruct Hw as (fname & x & x' & e & dv & Hl & Hexp & Hrec & Hd & Hconv & Hres).
    eexists. split; [exact Hres |].
    simpl in Hr |- *. rewrite lookupFold_update.
    destruct (EqualFold name b) eqn:Eab.
    + rewrite <- (lookupFold_congr name b fields Eab) in *. rewrite Hl in *.
      rewrite String.eqb_refl. rewrite Hexp in *. simpl in Hr |- *.
      apply read_step in Hr.
      destruct (IH q' v x a x' e y Hdiv) as [dv' [Hd' Hr']];
        [eapply foldFree_field; eauto; eapply lookupFold_Some; eauto | assumption
        | assumption |].
      rewrite Hd in Hd'. ret_inv Hd'.
      destruct rest as [|n' rest']; [discriminate |].
      destruct q' as [|b' q'']; [simpl in Hdiv; discriminate |].
      destruct (write_container n' rest' v (mkValue (Some x) a false) x' e eq_refl Hrec)
        as [dv0 [Hd0 [Hc _]]].
      rewrite Hd in Hd0. ret_inv Hd0.
      destruct (read_stored b' q'' dv0 y (typeOf x) Hc Hr') as [Hs _].
      rewrite Hs. reflexivity.
    + destruct (lookupFold b fields) as [[g xg]|] eqn:Eb; [| discriminate].
      destruct (String.eqb fname g) eqn:Eg.
      * exfalso. apply String.eqb_eq in Eg. subst g.
        apply lookupFold_Some in Hl. apply lookupFold_Some in Eb.
        destruct Hl as [_ Hl], Eb as [_ Eb].
        rewrite (EqualFold_sym b fname) in Eb.
        rewrite (EqualFold_sym name fname) in Hl.
        rewrite <- (EqualFold_congr fname name b Hl) in Eab.
        congruence.
      * apply read_step in Hr.
        apply lookupFold_Some in Eb. destruct Eb as [Hin _].
        rewrite (read_order R R' q' xg a false _ y (foldFree_field _ _ _ Hff Hin) Hr).
        reflexivity.
  - (* map *)
    pose proof (foldFree_keys _ _ Hff) as Hnd.
    simpl in Hr.
    destruct (lookupFold b (@mapRange R entries)) as [[g xg]|] eqn:Eb; [| discriminate].
    apply read_step in Hr.
    pose proof (ranged_Some _ _ _ _ Eb) as [Hing Hbg].
    pose proof (foldFree_entry _ _ _ _ Hff Hing) as Hffg.
    assert (Hfind : forall m', distinctFold m' = true -> forall z, In (g, z) m' ->
              read (RT := R') q' (mkValue (Some z) false false) = Ret (y, None) ->
              readAt (RT := R') b (read (RT := R') q') (VMap elem m') false false
              = Ret (y, None)).
    { intros m' Hnd' z Hin Hz. simpl.
      rewrite (ranged_unique b m' g z Hnd' Hin Hbg). rewrite Hz. reflexivity. }
    pose proof (read_order R R' q' xg false false false y Hffg Hr) as Hrg.
    destruct (lookupFold name (@mapRange W entries)) as [[k x]|] eqn:Ek.
    + destruct (writeAt_map_old _ _ _ _ _ _ _ _ _ Hw Ek) as (x' & e & Hrec & Hm).
      pose proof (ranged_Some _ _ _ _ Ek) as [Hink Hnk].
      destruct (EqualFold name b) eqn:Eab.
      * assert (Hbk : EqualFold b k = true).
        { rewrite EqualFold_sym in Eab. exact (EqualFold_trans _ _ _ Eab Hnk). }
        pose proof (ranged_unique (RT := R) b entries k x Hnd Hink Hbk) as Eb'.
        rewrite Eb in Eb'. ret_inv Eb'.
        destruct (IH q' v x false x' e y Hdiv) as [dv' [Hd' Hr']];
          [assumption | assumption | assumption |].
        rewrite Hd' in Hm. destruct Hm as [Ha Hres].
        eexists. split; [exact Hres |].
        destruct rest as [|n' rest']; [discriminate |].
        destruct q' as [|b' q'']; [simpl in Hdiv; discriminate |].
        destruct (write_container n' rest' v (mkValue (Some x) false false) x' e eq_refl Hrec)
          as [dv0 [Hd0 [Hc _]]].
        rewrite Hd' in Hd0. ret_inv Hd0.
        apply (Hfind _ (eq_trans (distinctFold_update k _ entries) Hnd) (assign dv0 elem)).
        -- eapply update_In_same; eauto.
        -- apply (read_stored b' q'' dv0 y elem Hc Hr').
      * assert (Hne : g <> k).
        { intros ->. rewrite (EqualFold_common name b k Hnk Hbg) in Eab. discriminate. }
        destruct (data e) as [dv|].
        -- destruct Hm as [Ha Hres]. eexists. split; [exact Hres |].
           apply (Hfind _ (eq_trans (distinctFold_update k _ entries) Hnd) xg).
           ++ apply update_In_other; assumption.
           ++ assumption.
        -- eexists. split; [exact Hm |].
           apply (Hfind _ (distinctFold_remove k _ Hnd) xg).
           ++ apply remove_In_other; assumption.
           ++ assumption.
    + destruct (writeAt_map_new _ _ _ _ _ _ _ Hw Ek) as (x' & e & dv & Hrec & Hd & Hconv & Hres).
      eexists. split; [exact Hres |].
      destruct (EqualFold name b) eqn:Eab.
      * exfalso. pose proof (ranged_None _ _ Ek g xg Hing) as Hng.
        rewrite (EqualFold_trans _ _ _ Eab Hbg) in Hng. discriminate.
      * apply (Hfind _ (distinctFold_append name _ _ Hnd (ranged_None _ _ Ek)) xg).
        -- apply in_or_app. left. assumption.
        -- assumption.
  - (* pointer *)
    apply writeAt_ptr in Hw. destruct Hw as (x' & e & dv & Hrec & Hd & Hres).
    simpl in Hff, Hr.
    destruct (IHd true x' e y Hff Hrec Hr) as [dv' [Hd' Hr']].
    rewrite Hd in Hd'. ret_inv Hd'.
    eexists. split; [exact Hres |]. simpl.
    eapply readAt_addr; [| exact Hr'].
    intros. eapply read_addr; eauto.
  - (* interface *)
    apply writeAt_iface in Hw. destruct Hw as (x' & e & dv & Hrec & Hd & Hres).
    simpl in Hff, Hr.
    destruct (IHd false x' e y Hff Hrec Hr) as [dv' [Hd' Hr']].
    rewrite Hd in Hd'. ret_inv Hd'.
    eexists. split; [exact Hres |]. exact Hr'.
Qed.

End Frame.

(** ** The position a key addresses *)

Lemma ikind_eqb_eq a b : ikind_eqb a b = true -> a = b.
Proof. destruct a, b; simpl; intros H; try discriminate; reflexivity. Qed.

Lemma fkind_eqb_eq a b : fkind_eqb a b = true -> a = b.
Proof. destruct a, b; simpl; intros H; try discriminate; reflexivity. Qed.

Lemma assignable_convertible s t : AssignableTo s t = true -> ConvertibleTo s t = true.
Proof. destruct s, t; simpl; intros H; try discriminate; auto. Qed.

Section Stored.
Context {L : Library}.

(** An assignable value in range is stored as it is. *)
Lemma convert_assignable v t :
  inRange v = true -> AssignableTo (typeOf v) t = true -> convert v t = assign v t.
Proof.
  intros Hr Ha. destruct t; try (rewrite convert_interface; reflexivity);
    destruct v; simpl in *; try discriminate; try reflexivity.
  - apply ikind_eqb_eq in Ha. subst. apply Z.eqb_eq in Hr. congruence.
  - rewrite Ha. apply fkind_eqb_eq in Ha. subst. reflexivity.
  - rewrite Ha. apply fkind_eqb_eq in Ha. subst. reflexivity.
Qed.


Lemma Interface_unbox d a : Interface_ (mkValue (Some d) a false) = Ret (unbox d).
Proof. destruct d; reflexivity. Qed.

End Stored.

(** ** Reading back what was written *)

Section RoundTrip.
Context {L : Library}.
Variables W R : Runtime.

Lemma write_nil v el st res :
  write (RT := W) [] (Some v) el = Ret (st, res, None) -> data res = Some v.
Proof. simpl. intros H. ret_inv H. reflexivity. Qed.

(** The read may name the segments in another case, and visit the maps in
    another order. *)
Lemma write_read p : forall q v d a st res,
  p <> [] -> foldEqual p q -> foldFree d = true -> inRange v = true ->
  write (RT := W) p (Some v) (mkValue (Some d) a false) = Ret (st, res, None) ->
  exists dv T,
    data res = Some dv /\ slotType p d = Some T /\
    ConvertibleTo (typeOf v) T = true /\
    read (RT := R) q (mkValue (Some dv) false false)
    = Ret (anyOf (unbox (convert v T)), None).
Proof.
  induction p as [|name rest IH]; intros q v d a st res Hp Hpq Hff Hv Hw; [congruence |].
  clear Hp. inversion Hpq as [|? b ? q' Hab Hrq]; subst.
  simpl in Hw. simpl slotType. simpl read.
  revert a st res Hff Hw.
  induction d; intros a st res Hff Hw; try (simpl in Hw; discriminate).
  - (* struct *)
    apply writeAt_struct in Hw.
    destruct Hw as (fname & x & x' & e & dv & Hl & Hexp & Hrec & Hd & Hconv & Hres).
    exists (VStruct (update fname (convert dv (typeOf x)) fields)).
    simpl. rewrite <- (lookupFold_congr name b _ Hab).
    rewrite lookupFold_update, Hl, String.eqb_refl, Hexp. simpl.
    destruct rest as [|n' rest'].
    + inversion Hrq; subst.
      apply write_nil in Hrec. rewrite Hd in Hrec. ret_inv Hrec.
      exists (typeOf x). repeat (split; [eassumption || reflexivity |]).
      simpl. rewrite Interface_unbox. reflexivity.
    + destruct (IH q' v x a x' e) as (dv' & T & Hd' & Hs & Hc & Hr');
        [discriminate | assumption
        | eapply foldFree_field; eauto; eapply lookupFold_Some; eauto
        | assumption | assumption |].
      rewrite Hd in Hd'. ret_inv Hd'.
      destruct (write_container n' rest' (Some v) (mkValue (Some x) a false) x' e eq_refl Hrec)
        as [dv0 [Hd0 [Hcont _]]].
      rewrite Hd in Hd0. ret_inv Hd0.
      exists T. repeat (split; [eassumption || reflexivity |]).
      inversion Hrq as [|? b' ? q'' Hab' Hrq']; subst.
      destruct (read_stored b' q'' dv0 _ (typeOf x) Hcont Hr') as [Hs1 _].
      rewrite Hs1. reflexivity.
  - (* nil map *)
    apply writeAt_nilmap in Hw.
    destruct Hw as (x' & e & dv & Hrec & Hd & Hconv & Hres).
    exists (VMap elem [(name, convert dv elem)]). simpl.
    assert (Hfind : forall z, lookupFold b (@mapRange R [(name, z)]) = Some (name, z)).
    { intros z. apply ranged_unique; simpl; auto.
      rewrite EqualFold_sym. assumption. }
    rewrite Hfind.
    destruct rest as [|n' rest'].
    + inversion Hrq; subst.
      apply write_nil in Hrec. rewrite Hd in Hrec. ret_inv Hrec.
      exists elem. repeat (split; [eassumption || reflexivity |]).
      simpl. rewrite Interface_unbox. reflexivity.
    + destruct (IH q' v (zero elem) true x' e) as (dv' & T & Hd' & Hs & Hc & Hr');
        [discriminate | assumption | apply foldFree_zero | assumption | assumption |].
      rewrite Hd in Hd'. ret_inv Hd'.
      destruct (write_container n' rest' (Some v) (mkValue (Some (zero elem)) true false)
                  x' e eq_refl Hrec) as [dv0 [Hd0 [Hcont _]]].
      rewrite Hd in Hd0. ret_inv Hd0.
      exists T. repeat (split; [eassumption || reflexivity |]).
      inversion Hrq as [|? b' ? q'' Hab' Hrq']; subst.
      destruct (read_stored b' q'' dv0 _ elem Hcont Hr') as [Hs1 _].
      rewrite Hs1. reflexivity.
  - (* map *)
    pose proof (foldFree_keys _ _ Hff) as Hnd.
    destruct (lookupFold name (@mapRange W entries)) as [[k x]|] eqn:Ek.
    + destruct (writeAt_map_old _ _ _ _ _ _ _ _ _ Hw Ek) as (x' & e & Hrec & Hm).
      pose proof (ranged_Some _ _ _ _ Ek) as [Hink Hnk].
      pose proof Ek as Ekl. rewrite (ranged_listed name entries Hnd) in Ekl.
      assert (Hbk : EqualFold b k = true).
      { rewrite EqualFold_sym in Hab. exact (EqualFold_trans _ _ _ Hab Hnk). }
      assert (Hfind : forall z, lookupFold b (@mapRange R (update k z entries)) = Some (k, z)).
      { intros z. apply ranged_unique; [rewrite distinctFold_update; assumption | | assumption].
        eapply update_In_same; eauto. }
      destruct rest as [|n' rest'].
      * inversion Hrq; subst.
        pose proof (write_nil _ _ _ _ Hrec) as Hd. rewrite Hd in Hm.
        destruct Hm as [Ha Hres].
        eexists. exists elem. split; [exact Hres |]. split; [reflexivity |].
        split; [apply assignable_convertible; assumption |].
        simpl. rewrite Hfind. simpl. rewrite Interface_unbox.
        rewrite (convert_assignable v elem Hv Ha). reflexivity.
      * destruct (IH q' v x false x' e) as (dv' & T & Hd' & Hs & Hc & Hr');
          [discriminate | assumption | eapply foldFree_entry; eauto | assumption
          | assumption |].
        rewrite Hd' in Hm. destruct Hm as [Ha Hres].
        destruct (write_container n' rest' (Some v) (mkValue (Some x) false false)
                    x' e eq_refl Hrec) as [dv0 [Hd0 [Hcont _]]].
        rewrite Hd' in Hd0. ret_inv Hd0.
        eexists. exists T. split; [exact Hres |]. simpl. rewrite Ekl.
        repeat (split; [eassumption || reflexivity |]).
        rewrite Hfind.
        inversion Hrq as [|? b' ? q'' Hab' Hrq']; subst.
        destruct (read_stored b' q'' dv0 _ elem Hcont Hr') as [_ Hs2].
        rewrite Hs2. reflexivity.
    + destruct (writeAt_map_new _ _ _ _ _ _ _ Hw Ek) as (x' & e & dv & Hrec & Hd & Hconv & Hres).
      pose proof Ek as Ekl. rewrite (ranged_listed name entries Hnd) in Ekl.
      assert (Hfind : forall z,
                lookupFold b (@mapRange R (entries ++ [(name, z)])) = Some (name, z)).
      { intros z. apply ranged_unique.
        - apply distinctFold_append; [assumption |]. apply (ranged_None _ _ Ek).
        - apply in_or_app. right. simpl. auto.
        - rewrite EqualFold_sym. assumption. }
      exists (VMap elem (entries ++ [(name, convert dv elem)])). simpl. rewrite Ekl, Hfind.
      destruct rest as [|n' rest'].
      * inversion Hrq; subst.
        apply write_nil in Hrec. rewrite Hd in Hrec. ret_inv Hrec.
        exists elem. repeat (split; [eassumption || reflexivity |]).
        simpl. rewrite Interface_unbox. reflexivity.
      * destruct (IH q' v (zero elem) true x' e) as (dv' & T & Hd' & Hs & Hc & Hr');
          [discriminate | assumption | apply foldFree_zero | assumption | assumption |].
        rewrite Hd in Hd'. ret_inv Hd'.
        destruct (write_container n' rest' (Some v) (mkValue (Some (zero elem)) true false)
                    x' e eq_refl Hrec) as [dv0 [Hd0 [Hcont _]]].
        rewrite Hd in Hd0. ret_inv Hd0.
        exists T. repeat (split; [eassumption || reflexivity |]).
        inversion Hrq as [|? b' ? q'' Hab' Hrq']; subst.
        destruct (read_stored b' q'' dv0 _ elem Hcont Hr') as [Hs1 _].
        rewrite Hs1. reflexivity.
  - (* pointer *)
    apply writeAt_ptr in Hw. destruct Hw as (x' & e & dv & Hrec & Hd & Hres).
    simpl in Hff.
    destruct (IHd true x' e Hff Hrec) as (dv' & T & Hd' & Hs & Hc & Hr').
    rewrite Hd in Hd'. ret_inv Hd'.
    exists (VPtr dv'), T. repeat (split; [eassumption || reflexivity |]). simpl.
    eapply readAt_addr; [| exact Hr'].
    intros. eapply read_addr; eauto.
  - (* interface *)
    apply writeAt_iface in Hw. destruct Hw as (x' & e & dv & Hrec & Hd & Hres).
    simpl in Hff.
    destruct (IHd false x' e Hff Hrec) as (dv' & T & Hd' & Hs & Hc & Hr').
    rewrite Hd in Hd'. ret_inv Hd'.
    exists dv', T. repeat (split; [eassumption || reflexivity |]). exact Hr'.
Qed.

End RoundTrip.

(** ** Splitting a key *)

Lemma Split_cons s sep : exists a r, Strings.Split s sep = a :: r.
Proof.
  destruct s as [|c s]; simpl; [eauto |].
  destruct (Ascii.eqb c sep); [eauto |].
  destruct (Strings.Split s sep); eauto.
Qed.

Lemma Split_Contains s sep :
  Forall (fun seg => Strings.Contains seg sep = false) (Strings.Split s sep).
Proof.
  induction s as [|c s IH]; simpl; [repeat constructor |].
  destruct (Ascii.eqb c sep) eqn:E; [constructor; [reflexivity | assumption] |].
  destruct (Strings.Split s sep) as [|p ps]; [repeat constructor; simpl; rewrite E; reflexivity |].
  inversion IH; subst. constructor; [| assumption].
  simpl. rewrite E. assumption.
Qed.

Lemma Join_Split s sep : Strings.Join (Strings.Split s sep) (String sep EmptyString) = s.
Proof.
  induction s as [|c s IH]; simpl; [reflexivity |].
  destruct (Ascii.eqb c sep) eqn:E.
  - apply Ascii.eqb_eq in E. subst c.
    destruct (Split_cons s sep) as [a [r Hs]]. rewrite Hs in *.
    simpl Strings.Join. simpl. rewrite <- IH. reflexivity.
  - destruct (Split_cons s sep) as [p [ps Hs]]. rewrite Hs in *.
    destruct ps as [|p' ps]; simpl in *; congruence.
Qed.

Lemma Split_irregular s :
  irregularFrom true s = existsb isEmpty (Strings.Split s dot) /\
  irregularFrom false s = existsb isEmpty (tl (Strings.Split s dot)).
Proof.
  induction s as [|c s [IHt IHf]]; simpl; [auto |].
  destruct (Ascii.eqb c dot); simpl.
  - rewrite IHt. auto.
  - destruct (Split_cons s dot) as [a [r Hs]]. rewrite Hs in *. simpl in *.
    rewrite IHf. auto.
Qed.

(** ** The public interface *)

Section Public.
Context {L : Library} {RT : Runtime}.

(** A [Write] that succeeds ran [write] on the root and holds the struct,
    map or pointer it returned. *)
Lemma Write_ok c key value c' :
  Write c key value = Ret (c', None) ->
  exists d st res dv,
    Data c = Some d /\
    write (Strings.Split key dot) value (mkValue (Some d) false false) = Ret (st, res, None) /\
    data res = Some dv /\ container dv = true /\ c' = mkConfig (Some dv).
Proof.
  unfold Write, ValueOf. intros H.
  destruct (Split_cons key dot) as [name [rest Hs]]. rewrite Hs in *.
  bind_inv H. destruct a as [[st res] [err|]]; [discriminate |].
  bind_inv H. ret_inv H.
  destruct (Data c) as [d|] eqn:Hd; [| simpl in E; discriminate].
  destruct (write_container name rest value (mkValue (Some d) false false) st res eq_refl E)
    as [dv [Hdv [Hc Hro]]].
  exists d, st, res, dv. repeat (split; [assumption || reflexivity |]).
  unfold Interface_ in E0. rewrite Hdv, Hro in E0.
  destruct dv; try discriminate; ret_inv E0; reflexivity.
Qed.

End Public.

(** ** Keys with a dot *)


Lemma Split_app a b sep :
  Strings.Split (a ++ String sep b) sep
  = (Strings.Split a sep ++ Strings.Split b sep)%list.
Proof.
  induction a as [|c a IH]; simpl.
  - rewrite Ascii.eqb_refl. reflexivity.
  - destruct (Ascii.eqb c sep); [rewrite IH; reflexivity |].
    rewrite IH. destruct (Split_cons a sep) as [p [ps Hs]]. rewrite Hs. reflexivity.
Qed.

Lemma append_assoc (a b c : string) : ((a ++ b) ++ c = a ++ (b ++ c))%string.
Proof. induction a as [|x a IH]; simpl; [reflexivity | rewrite IH; reflexivity]. Qed.

(** ** Types of stored values *)

Lemma type_eqb_eq : forall a b, type_eqb a b = true -> a = b.
Proof.
  fix IH 1. intros a b. destruct a as [| k | k | k | | fs | t | t | | sg];
    destruct b as [| k' | k' | k' | | gs | u | u | | sg']; simpl; intros H;
    try discriminate; try reflexivity.
  - apply ikind_eqb_eq in H. congruence.
  - apply fkind_eqb_eq in H. congruence.
  - apply fkind_eqb_eq in H. congruence.
  - f_equal. revert gs H.
    induction fs as [|[n t] fs IHfs]; intros [|[m u] gs] H; try discriminate;
      [reflexivity |].
    apply andb_true_iff in H. destruct H as [H Hr].
    apply andb_true_iff in H. destruct H as [Hn Ht].
    apply String.eqb_eq in Hn. apply IH in Ht. rewrite (IHfs gs Hr). congruence.
  - apply IH in H. congruence.
  - apply IH in H. congruence.
  - apply String.eqb_eq in H. congruence.
Qed.

Lemma type_eqb_refl : forall a, type_eqb a a = true.
Proof.
  fix IH 1. intros a. destruct a as [| k | k | k | | fs | t | t | | sg]; simpl;
    try reflexivity; try (destruct k; reflexivity); try apply IH.
  - induction fs as [|[n t] fs IHfs]; [reflexivity |].
    rewrite String.eqb_refl, IH, IHfs. reflexivity.
  - apply String.eqb_refl.
Qed.

Lemma ConvertibleTo_refl t : ConvertibleTo t t = true.
Proof. destruct t; first [reflexivity | exact (type_eqb_refl _)]. Qed.

Section StoredTypes.
Context {L : Library}.

(** A conversion gives a value of the type converted to. *)
Lemma typeOf_convert d t :
  ConvertibleTo (typeOf d) t = true -> typeOf (convert d t) = t.
Proof.
  intros H.
  destruct t; try (rewrite convert_interface; destruct d; reflexivity);
    destruct d; try discriminate H; try reflexivity;
    try (apply type_eqb_eq; exact H).
  - simpl. destruct (fkind_eqb k0 k) eqn:E; [| reflexivity].
    apply fkind_eqb_eq in E. subst. reflexivity.
Qed.

Lemma typeOf_update name fs k x y :
  lookupFold name fs = Some (k, x) -> typeOf y = typeOf x ->
  typeOf (VStruct (update k y fs)) = typeOf (VStruct fs).
Proof.
  intros Hl Hy. simpl. f_equal.
  induction fs as [|[k' z] fs IH]; simpl in *; [reflexivity |].
  destruct (EqualFold name k') eqn:E.
  - ret_inv Hl. rewrite String.eqb_refl. simpl. rewrite Hy. reflexivity.
  - destruct (String.eqb k k') eqn:Ek.
    + apply String.eqb_eq in Ek. subst k'.
      apply lookupFold_Some in Hl. destruct Hl as [_ Hl]. congruence.
    + simpl. rewrite (IH Hl). reflexivity.
Qed.

(** Putting back what is there changes nothing. *)
Lemma update_found name fs k x : lookupFold name fs = Some (k, x) -> update k x fs = fs.
Proof.
  induction fs as [|[k' z] fs IH]; simpl; intros Hl; [reflexivity |].
  destruct (EqualFold name k') eqn:E.
  - ret_inv Hl. rewrite String.eqb_refl. reflexivity.
  - destruct (String.eqb k k') eqn:Ek.
    + apply String.eqb_eq in Ek. subst k'.
      apply lookupFold_Some in Hl. destruct Hl as [_ Hl]. congruence.
    + rewrite (IH Hl). reflexivity.
Qed.

Lemma update_present m k x : distinctFold m = true -> In (k, x) m -> update k x m = m.
Proof.
  induction m as [|[k' z] m IH]; intros Hnd Hin; [reflexivity |].
  apply distinctFold_cons in Hnd. destruct Hnd as [Hnotin Hnd']. simpl.
  destruct (String.eqb k k') eqn:Ek.
  - apply String.eqb_eq in Ek. subst k'.
    destruct Hin as [Hin | Hin]; [congruence |].
    exfalso. specialize (Hnotin _ Hin). simpl in Hnotin.
    rewrite EqualFold_refl in Hnotin. discriminate.
  - destruct Hin as [Hin | Hin].
    + ret_inv Hin. rewrite String.eqb_refl in Ek. discriminate.
    + rewrite (IH Hnd' Hin). reflexivity.
Qed.

End StoredTypes.

Lemma noPtrToIface_zero : forall t, noPtrToIface (zero t) = true.
Proof.
  fix IH 1. intros t. destruct t as [| | | | | fs | | | |]; simpl; try reflexivity.
  induction fs as [|[n t] fs IHfs]; simpl; [reflexivity |].
  rewrite IH, IHfs. reflexivity.
Qed.

Lemma isIncompatible_From e name : isIncompatible (From e name) = isIncompatible e.
Proof. destruct e; reflexivity. Qed.

(** ** What a write leaves behind *)

Section Behind.
Context {L : Library} {RT : Runtime}.

Lemma noPtrToIface_field fs k x :
  noPtrToIface (VStruct fs) = true -> In (k, x) fs -> noPtrToIface x = true.
Proof. simpl. intros H Hin. rewrite forallb_forall in H. exact (H _ Hin). Qed.

Lemma noPtrToIface_entry t m k x :
  noPtrToIface (VMap t m) = true -> In (k, x) m -> noPtrToIface x = true.
Proof. simpl. intros H Hin. rewrite forallb_forall in H. exact (H _ Hin). Qed.

(** Without a pointer to an interface on the way, a frame that succeeds
    returns a value of the type of the element (of any type, for an
    interface). *)
Lemma writeAt_type name recurse d : forall a st res,
  noPtrToIface d = true ->
  writeAt name recurse d a false = Ret (st, res, None) ->
  exists dv, data res = Some dv /\ (isIface d = true \/ typeOf dv = typeOf d).
Proof.
  induction d; intros a st res Hn H; try (simpl in H; discriminate).
  - apply writeAt_struct in H.
    destruct H as (fname & x & x' & e & dv & Hl & _ & _ & _ & Hconv & Hres).
    eexists. split; [exact Hres |]. right.
    eapply typeOf_update; eauto. apply typeOf_convert; assumption.
  - apply writeAt_nilmap in H. destruct H as (x' & e & dv & _ & _ & _ & Hres).
    eexists. split; [exact Hres |]. right. reflexivity.
  - destruct (lookupFold name (mapRange entries)) as [[k x]|] eqn:Ek.
    + destruct (writeAt_map_old _ _ _ _ _ _ _ _ _ H Ek) as (x' & e & _ & Hm).
      destruct (data e).
      * destruct Hm as [_ Hres]. eexists. split; [exact Hres |]. right. reflexivity.
      * eexists. split; [exact Hm |]. right. reflexivity.
    + destruct (writeAt_map_new _ _ _ _ _ _ _ H Ek) as (x' & e & dv & _ & _ & _ & Hres).
      eexists. split; [exact Hres |]. right. reflexivity.
  - apply writeAt_ptr in H. destruct H as (x' & e & dv & Hrec & Hd & Hres).
    simpl in Hn. apply andb_true_iff in Hn. destruct Hn as [Hi Hn].
    destruct (IHd _ _ _ Hn Hrec) as (dv' & Hd' & [Hif | Ht]).
    + rewrite Hif in Hi. discriminate.
    + rewrite Hd in Hd'. ret_inv Hd'.
      eexists. split; [exact Hres |]. right. simpl. congruence.
  - apply writeAt_iface in H. destruct H as (x' & e & dv & _ & _ & Hres).
    eexists. split; [exact Hres |]. left. reflexivity.
Qed.

(** Through a value reached by an unexported field nothing is set in place:
    the one write that succeeds replaces a nil map by a fresh one. *)
Lemma writeAt_ro name recurse d : forall a st res,
  writeAt name recurse d a true = Ret (st, res, None) -> st = Some d.
Proof.
  induction d; intros a st res H; simpl in H; try discriminate.
  - destruct (lookupFold name fields) as [[fname x]|]; [| discriminate].
    bind_inv H. destruct a0 as [[x' v] [err|]]; [discriminate |].
    bind_inv H. destruct a0; simpl in H; [| discriminate].
    unfold CanSet in H. simpl in H. rewrite andb_false_r in H. simpl in H.
    discriminate.
  - rewrite mapRange_nil in H. simpl in H.
    bind_inv H. destruct a0 as [[x' v] [err|]]; [discriminate |].
    bind_inv H. destruct a0; simpl in H; [| discriminate].
    repeat bind_inv H. ret_inv H. reflexivity.
  - destruct (lookupFold name (mapRange entries)) as [[k x]|].
    + bind_inv H. destruct a0 as [[x' v] [err|]]; discriminate.
    + bind_inv H. destruct a0 as [[x' v] [err|]]; [discriminate |].
      bind_inv H. destruct a0; simpl in H; [| discriminate].
      bind_inv H. discriminate.
  - bind_inv H. destruct a0 as [[x' v] [err|]]; [discriminate |].
    rewrite (IHd _ _ _ E) in H.
    destruct (CanAddr v).
    + destruct (data v); [ret_inv H; reflexivity | discriminate].
    + repeat bind_inv H. ret_inv H. reflexivity.
  - bind_inv H. destruct a0 as [[x' v] [err|]]; [discriminate |].
    rewrite (IHd _ _ _ E) in H. bind_inv H. ret_inv H. reflexivity.
Qed.

(** A [write] that returns an error has set nothing in place, when the
    error is not [IncompatibleType] or the value holds no pointer to an
    interface. *)
Lemma write_error_keeps p : forall v d a ro st res e,
  foldFree d = true ->
  noPtrToIface d = true \/ isIncompatible e = false ->
  write p v (mkValue (Some d) a ro) = Ret (st, res, Some e) ->
  st = Some d.
Proof.
  induction p as [|name rest IH]; intros v d a ro st res e Hff Hs H; [discriminate |].
  simpl in H. revert a ro st res e Hff Hs H.
  induction d; intros a ro st res e Hff Hs H; simpl in H;
    try (ret_inv H; reflexivity).
  - (* struct *)
    destruct (lookupFold name fields) as [[fname x]|] eqn:Hl;
      [| ret_inv H; reflexivity].
    pose proof (lookupFold_Some _ _ _ _ Hl) as [Hin _].
    bind_inv H. destruct a0 as [[x' v'] [err|]].
    + ret_inv H. rewrite isIncompatible_From in Hs.
      rewrite (IH _ _ _ _ _ _ _ (foldFree_field _ _ _ Hff Hin)
                 (or_ind (fun Hn => or_introl (noPtrToIface_field _ _ _ Hn Hin)) (@or_intror _ _) Hs) E).
      rewrite (update_found _ _ _ _ Hl). reflexivity.
    + bind_inv H. destruct a0; simpl in H.
      * destruct (CanSet _); simpl in H; repeat bind_inv H; discriminate.
      * ret_inv H. destruct Hs as [Hn | Hs]; [| discriminate].
        assert (Hx : x' = Some x).
        { destruct rest as [|n' rest']; [simpl in E; ret_inv E; reflexivity |].
          destruct (ro || negb (IsExported fname)) eqn:Ero.
          - simpl in E. eapply writeAt_ro; eauto.
          - exfalso. simpl in E.
            destruct (writeAt_type _ _ _ _ _ _ (noPtrToIface_field _ _ _ Hn Hin) E)
              as (dv & Hd & Ht).
            apply CanConvert_Ret in E0. destruct E0 as (dv' & Hd' & Hc).
            rewrite Hd in Hd'. ret_inv Hd'.
            destruct Ht as [Hi | Ht].
            + destruct x; try discriminate; simpl in Hc; destruct (typeOf dv'); discriminate.
            + rewrite Ht, ConvertibleTo_refl in Hc. discriminate. }
        subst x'. rewrite (update_found _ _ _ _ Hl). reflexivity.
  - (* nil map *)
    rewrite mapRange_nil in H. simpl in H.
    bind_inv H. destruct a0 as [[x' v'] [err|]]; [ret_inv H; reflexivity |].
    bind_inv H. destruct a0; simpl in H; [| ret_inv H; reflexivity].
    repeat bind_inv H. discriminate.
  - (* map *)
    destruct (lookupFold name (mapRange entries)) as [[k x]|] eqn:Ek.
    + pose proof (ranged_Some _ _ _ _ Ek) as [Hin _].
      bind_inv H. destruct a0 as [[x' v'] [err|]].
      * ret_inv H. rewrite isIncompatible_From in Hs.
        rewrite (IH _ _ _ _ _ _ _ (foldFree_entry _ _ _ _ Hff Hin)
                   (or_ind (fun Hn => or_introl (noPtrToIface_entry _ _ _ _ Hn Hin)) (@or_intror _ _) Hs) E).
        rewrite (update_present _ _ _ (foldFree_keys _ _ Hff) Hin). reflexivity.
      * bind_inv H. discriminate.
    + bind_inv H. destruct a0 as [[x' v'] [err|]]; [ret_inv H; reflexivity |].
      bind_inv H. destruct a0; simpl in H; [| ret_inv H; reflexivity].
      repeat bind_inv H. discriminate.
  - (* pointer *)
    bind_inv H. destruct a0 as [[x' v'] [err|]].
    + ret_inv H. simpl in Hff.
      rewrite (IHd _ _ _ _ _ Hff
                 (or_ind (fun Hn => or_introl (proj2 (proj1 (andb_true_iff _ _) Hn))) (@or_intror _ _) Hs) E).
      reflexivity.
    + destruct (CanAddr v').
      * destruct (data v'); discriminate.
      * repeat bind_inv H. discriminate.
  - (* interface *)
    bind_inv H. destruct a0 as [[x' v'] [err|]].
    + ret_inv H. simpl in Hff, Hs. rewrite (IHd _ _ _ _ _ Hff Hs E). reflexivity.
    + bind_inv H. discriminate.
Qed.

End Behind.

(** ** Reading along a path in two steps *)

Section TwoSteps.
Context {L : Library} {RT : Runtime}.

Lemma okOf_step (r : result (any * option KeyError)) (f : KeyError -> KeyError) :
  okOf ('(v, err) <- r ;;
        match err with
        | Some err => Ret (v, Some (f err))
        | None => Ret (v, None)
        end) = okOf r.
Proof. destruct r as [[v [err|]]|]; reflexivity. Qed.

Lemma okOf_Some (r : result (any * option KeyError)) y :
  okOf r = Some y <-> r = Ret (y, None).
Proof.
  destruct r as [[v [err|]]|]; simpl; split; intros H; try discriminate;
    inversion H; reflexivity.
Qed.

Lemma okOf_addr q d a a' ro :
  okOf (read q (mkValue (Some d) a ro)) = okOf (read q (mkValue (Some d) a' ro)).
Proof.
  destruct (okOf (read q (mkValue (Some d) a ro))) as [y|] eqn:E1.
  - apply okOf_Some in E1. symmetry. apply okOf_Some. eapply read_addr; eauto.
  - destruct (okOf (read q (mkValue (Some d) a' ro))) as [y|] eqn:E2; [| reflexivity].
    apply okOf_Some in E2. apply (read_addr q d a' a ro y) in E2.
    apply okOf_Some in E2. congruence.
Qed.

(** Nothing is read through an unexported field. *)
Lemma read_ro q : forall d a, okOf (read q (mkValue (Some d) a true)) = None.
Proof.
  induction q as [|name q IH]; intros d a.
  - destruct d; reflexivity.
  - simpl. revert a. induction d; intros a; simpl; try reflexivity; auto.
    + destruct (lookupFold name fields) as [[fname x]|]; [| reflexivity].
      rewrite okOf_step. apply IH.
    + destruct (lookupFold name (mapRange entries)) as [[k x]|]; [| reflexivity].
      rewrite okOf_step. apply IH.
Qed.

Lemma read_app p q : q <> [] -> forall d a,
  okOf (read (p ++ q) (mkValue (Some d) a false)) =
  match okOf (read p (mkValue (Some d) a false)) with
  | Some (Boxed x) => okOf (read q (mkValue (Some x) false false))
  | _ => None
  end.
Proof.
  intros Hq. induction p as [|name rest IH]; intros d a.
  - destruct q as [|n q]; [congruence |].
    simpl app. simpl (read [] _). rewrite Interface_unbox. simpl okOf.
    destruct d; simpl unbox; simpl anyOf;
      try exact (okOf_addr (n :: q) _ a false false); reflexivity.
  - simpl app. simpl. revert a. induction d; intros a; simpl; try reflexivity; auto.
    + destruct (lookupFold name fields) as [[fname x]|]; [| reflexivity].
      rewrite !okOf_step.
      destruct (IsExported fname); simpl; [apply IH |].
      rewrite !read_ro. reflexivity.
    + destruct (lookupFold name (mapRange entries)) as [[k x]|]; [| reflexivity].
      rewrite !okOf_step. apply IH.
Qed.

End TwoSteps.

(** ** Writing nil *)

Section Removing.
Context {L : Library}.


End Removing.

Section WritingNil.
Context {L : Library}.
Variables W R : Runtime.




Lemma noSuchKey_From name n rest :
  From (noSuchKey (n :: rest)) name = noSuchKey (name :: n :: rest).
Proof. reflexivity. Qed.


End WritingNil.

(** ** Keys of nested sub-configurations *)

Lemma Join_cons a l sep :
  l <> [] -> Strings.Join (a :: l) sep = (a ++ sep ++ Strings.Join l sep)%string.
Proof. destruct l; [congruence | reflexivity]. Qed.

Lemma Join_snoc l a b :
  Strings.Join (l ++ [a ++ "." ++ b]) "." = Strings.Join ((l ++ [a]) ++ [b]) ".".
Proof.
  induction l as [|x l IH]; [reflexivity |].
  rewrite <- !app_comm_cons. rewrite !Join_cons.
  - rewrite IH. reflexivity.
  - destruct l; discriminate.
  - destruct l; discriminate.
Qed.

Lemma Split_Join l key :
  Strings.Split (Strings.Join (l ++ [key]) ".") dot
  = (flat_map (fun p => Strings.Split p dot) l ++ Strings.Split key dot)%list.
Proof.
  induction l as [|x l IH]; [reflexivity |].
  rewrite <- app_comm_cons. rewrite Join_cons by (destruct l; discriminate).
  change (x ++ "." ++ Strings.Join (l ++ [key]) ".")%string
    with (x ++ String dot (Strings.Join (l ++ [key]) "."))%string.
  rewrite Split_app, IH. simpl. rewrite app_assoc. reflexivity.
Qed.

Lemma fullKey_OfSub rw prefix key :
  fullKey (OfSub rw prefix) key = fullKey rw (prefix ++ "." ++ key).
Proof. unfold fullKey. simpl. symmetry. apply Join_snoc. Qed.

Section Resolving.
Context {L : Library} {RT : Runtime}.

Lemma ReadWriter_Read_root rw : forall key,
  ReadWriter_Read rw key = Read (rootOf rw) (fullKey rw key).
Proof.
  induction rw as [c | rw IH prefix]; intros key; [reflexivity |].
  simpl. rewrite IH, fullKey_OfSub. reflexivity.
Qed.

Lemma ReadWriter_ReadString_root rw : forall key,
  ReadWriter_ReadString rw key = ReadString (rootOf rw) (fullKey rw key).
Proof.
  induction rw as [c | rw IH prefix]; intros key; [reflexivity |].
  simpl. rewrite IH, fullKey_OfSub. reflexivity.
Qed.

Lemma ReadWriter_Write_root rw : forall key v,
  ReadWriter_Write rw key v =
  ('(c', err) <- Write (rootOf rw) (fullKey rw key) v ;; Ret (rebase rw c', err)).
Proof.
  induction rw as [c | rw IH prefix]; intros key v; [reflexivity |].
  simpl. rewrite IH, fullKey_OfSub.
  change (prefix ++ "." ++ key)%string with (prefix ++ String "." key)%string.
  destruct (Write (rootOf rw) (fullKey rw (prefix ++ String "." key)) v) as [[c' err]|];
    reflexivity.
Qed.

(** The path of an error of [Read], [ReadString] or [Write] on a [config]. *)
Lemma failure_path c key :
  (forall r e, Read c key = Ret (r, Some e) -> pathPrefix (Strings.Split key dot) e) /\
  (forall s e, ReadString c key = Ret (s, Some e) -> pathPrefix (Strings.Split key dot) e) /\
  (forall v c' e, Write c key v = Ret (c', Some e) -> pathPrefix (Strings.Split key dot) e).
Proof.
  assert (HR : forall r e, Read c key = Ret (r, Some e) ->
                           pathPrefix (Strings.Split key dot) e).
  { intros r e H. unfold Read in H. eapply read_path; eauto. }
  split; [exact HR |]. split.
  - intros s e H. unfold ReadString in H. bind_inv H. destruct a as [v [err|]].
    + ret_inv H. eauto.
    + assert (Hkey : Key e = key -> pathPrefix (Strings.Split key dot) e).
      { intros Hk. exists (List.length (Strings.Split key dot)). split.
        - destruct (Split_cons key dot) as [a [r Hs]]. rewrite Hs. simpl. lia.
        - rewrite firstn_all, Hk. symmetry. apply Join_Split. }
      destruct v as [|x|ev]; simpl in H; try discriminate.
      * destruct x as [| k z | k b | k re im | | | | | | | | |];
          try destruct k; simpl in H; try discriminate;
          ret_inv H; apply Hkey; reflexivity.
      * ret_inv H. apply Hkey; reflexivity.
  - intros v c' e H. unfold Write in H. bind_inv H. destruct a as [[st res] [err|]].
    + ret_inv H. eapply write_path; eauto.
    + bind_inv H. discriminate.
Qed.

End Resolving.

(** ** Nil maps inside nil maps *)

Lemma AssignableTo_refl t : AssignableTo t t = true.
Proof. destruct t; first [reflexivity | exact (type_eqb_refl _)]. Qed.

Section Nested.
Context {L : Library} {RT : Runtime}.

Lemma writeAt_nilmap_ok name recurse t a ro x' e dv :
  recurse (mkValue (Some (zero t)) true false) = Ret (x', e, None) ->
  data e = Some dv -> flagRO e = false ->
  ConvertibleTo (typeOf dv) t = true ->
  writeAt name recurse (VNilMap t) a ro
  = Ret (Some (VNilMap t), mkValue (Some (VMap t [(name, convert dv t)])) false false, None).
Proof.
  intros Hrec Hd Hro Hc. simpl. rewrite mapRange_nil. simpl. rewrite Hrec. simpl.
  unfold CanConvert, Type_. rewrite Hd. simpl. rewrite Hc. simpl.
  unfold Convert. rewrite Hd, Hc. simpl.
  unfold SetMapIndex. simpl. rewrite Hro. simpl.
  unfold assignTo. simpl.
  rewrite (typeOf_convert dv t Hc), AssignableTo_refl, assign_convert. reflexivity.
Qed.

Lemma write_nested n : forall key v T a ro,
  List.length key = S n -> ConvertibleTo (typeOf v) T = true ->
  exists m,
    write key (Some v) (mkValue (Some (VNilMap (nested n T))) a ro)
    = Ret (Some (VNilMap (nested n T)), mkValue (Some (VMap (nested n T) m)) false false, None).
Proof.
  induction n as [|n IH]; intros key v T a ro Hlen Hc;
    destruct key as [|name rest]; try discriminate.
  - destruct rest; [| discriminate]. exists [(name, convert v T)].
    exact (writeAt_nilmap_ok name (write [] (Some v)) T a ro _ _ v
             eq_refl eq_refl eq_refl Hc).
  - injection Hlen as Hlen.
    destruct (IH rest v T true false Hlen Hc) as [m Hm].
    eexists.
    exact (writeAt_nilmap_ok name (write rest (Some v)) (nested (S n) T) a ro _ _ _
             Hm eq_refl eq_refl (ConvertibleTo_refl _)).
Qed.

Lemma slotType_nested n : forall key T,
  List.length key = S n -> slotType key (VNilMap (nested n T)) = Some T.
Proof.
  induction n as [|n IH]; intros key T Hlen;
    destruct key as [|name rest]; try discriminate.
  - destruct rest; [reflexivity | discriminate].
  - injection Hlen as Hlen. simpl. destruct rest as [|n' rest']; [discriminate |].
    apply (IH (n' :: rest') T Hlen).
Qed.

End Nested.

(** ** The kinds of [UnhandledKind] *)

Lemma From_unhandled e name b k :
  From e name = ErrUnhandledKind b k -> exists b', e = ErrUnhandledKind b' k.
Proof. destruct e; simpl; intros H; try discriminate; ret_inv H; eauto. Qed.

Section Kinds.
Context {L : Library} {RT : Runtime}.

Lemma readAt_kind name recurse :
  (forall el r b k, recurse el = Ret (r, Some (ErrUnhandledKind b k)) -> traversed k = false) ->
  forall d a ro r b k,
    readAt name recurse d a ro = Ret (r, Some (ErrUnhandledKind b k)) -> traversed k = false.
Proof.
  intros IH d. induction d; intros a ro r cb kd H; simpl in H;
    try (ret_inv H; reflexivity); eauto.
  - destruct k; ret_inv H; reflexivity.
  - destruct k; ret_inv H; reflexivity.
  - destruct k; ret_inv H; reflexivity.
  - destruct (lookupFold name fields) as [[fname x]|]; [| discriminate].
    bind_inv H. destruct a0 as [v [err|]]; ret_inv H.
    match goal with H : From _ _ = _ |- _ => apply From_unhandled in H; destruct H as [b' ->] end.
    eauto.
  - destruct (lookupFold name (mapRange entries)) as [[k x]|]; [| discriminate].
    bind_inv H. destruct a0 as [v [err|]]; ret_inv H.
    match goal with H : From _ _ = _ |- _ => apply From_unhandled in H; destruct H as [b' ->] end.
    eauto.
Qed.

Lemma read_kind p : forall el r b k,
  read p el = Ret (r, Some (ErrUnhandledKind b k)) -> traversed k = false.
Proof.
  induction p as [|name rest IH]; intros el r b k H; simpl in H.
  - bind_inv H. discriminate.
  - destruct (data el) as [d|] eqn:Hd; [eapply readAt_kind; eauto |].
    unfold unhandled, Kind in H. rewrite Hd in H. ret_inv H. reflexivity.
Qed.

End Kinds.

Section WriteKinds.
Context {L : Library} {RT : Runtime}.

Lemma writeAt_kind name recurse :
  (forall el st r b k, recurse el = Ret (st, r, Some (ErrUnhandledKind b k)) ->
                       traversed k = false) ->
  forall d a ro st r cb kd,
    writeAt name recurse d a ro = Ret (st, r, Some (ErrUnhandledKind cb kd)) ->
    traversed kd = false.
Proof.
  intros IH d.
  induction d; intros a ro st r cb kd H; simpl in H;
    try (ret_inv H; reflexivity).
  - destruct k; ret_inv H; reflexivity.
  - destruct k; ret_inv H; reflexivity.
  - destruct k; ret_inv H; reflexivity.
  - (* struct *)
    destruct (lookupFold name fields) as [[fname x]|]; [| discriminate].
    bind_inv H. destruct a0 as [[x' v] [err|]].
    + ret_inv H.
      match goal with H : From _ _ = _ |- _ => apply From_unhandled in H; destruct H as [b' ->] end.
      eauto.
    + bind_inv H. destruct a0; simpl in H; [| discriminate].
      destruct (CanSet _); simpl in H; repeat bind_inv H; discriminate.
  - (* nil map *)
    rewrite mapRange_nil in H. simpl in H.
    bind_inv H. destruct a0 as [[x' v] [err|]].
    + ret_inv H.
      match goal with H : From _ _ = _ |- _ => apply From_unhandled in H; destruct H as [b' ->] end.
      eauto.
    + bind_inv H. destruct a0; simpl in H; [| discriminate].
      repeat bind_inv H. discriminate.
  - (* map *)
    destruct (lookupFold name (mapRange entries)) as [[k x]|].
    + bind_inv H. destruct a0 as [[x' v] [err|]].
      * ret_inv H.
        match goal with H : From _ _ = _ |- _ => apply From_unhandled in H; destruct H as [b' ->] end.
        eauto.
      * bind_inv H. discriminate.
    + bind_inv H. destruct a0 as [[x' v] [err|]].
      * ret_inv H.
        match goal with H : From _ _ = _ |- _ => apply From_unhandled in H; destruct H as [b' ->] end.
        eauto.
      * bind_inv H. destruct a0; simpl in H; [| discriminate].
        repeat bind_inv H. discriminate.
  - (* pointer *)
    bind_inv H. destruct a0 as [[x' v] [err|]].
    + ret_inv H. eauto.
    + destruct (CanAddr v).
      * destruct (data v); discriminate.
      * repeat bind_inv H. discriminate.
  - (* interface *)
    bind_inv H. destruct a0 as [[x' v] [err|]].
    + ret_inv H. eauto.
    + bind_inv H. discriminate.
Qed.

Lemma write_kind p v : forall el st r b k,
  write p v el = Ret (st, r, Some (ErrUnhandledKind b k)) -> traversed k = false.
Proof.
  induction p as [|name rest IH]; intros el st r b k H; simpl in H.
  - discriminate.
  - destruct (data el) as [d|] eqn:Hd; [eapply writeAt_kind; eauto |].
    unfold unhandled, Kind in H. rewrite Hd in H. ret_inv H. reflexivity.
Qed.

End WriteKinds.

(** ** Sub-configurations and the root *)

Lemma rootOf_rebase rw c : rootOf (rebase rw c) = c.
Proof. induction rw; simpl; auto. Qed.


Lemma divergeb_app {L : Library} p r :
  forall q, divergeb p q = true -> divergeb (p ++ r) q = true.
Proof.
  induction p as [|a p IH]; intros [|b q] H; simpl in *; try discriminate.
  destruct (EqualFold a b); auto.
Qed.

(** ** Writes that succeed *)

Lemma typeOf_zero : forall t, typeOf (zero t) = t.
Proof.
  fix IH 1. intros t. destruct t as [| | | | | fs | | | |]; simpl; try reflexivity.
  f_equal. induction fs as [|[n t] fs IHfs]; simpl; [reflexivity |].
  rewrite IH, IHfs. reflexivity.
Qed.




Section Succeeding.
Context {L : Library} {RT : Runtime}.
Variable name : string.
Variable recurse : Value -> result written.





End Succeeding.

Section Success.
Context {L : Library} {RT : Runtime}.




End Success.

(** ** The values off the written path *)

Lemma lookup_update b k y l :
  lookup b (update k y l) =
  if String.eqb b k then match lookup b l with Some _ => Some y | None => None end
  else lookup b l.
Proof.
  induction l as [|[k' x] r IH]; simpl; [destruct (String.eqb b k); reflexivity |].
  destruct (String.eqb k k') eqn:Ekk; simpl.
  - apply String.eqb_eq in Ekk. subst k'. destruct (String.eqb b k); reflexivity.
  - destruct (String.eqb b k') eqn:Ebk'.
    + apply String.eqb_eq in Ebk'. subst k'.
      rewrite String.eqb_sym, Ekk. reflexivity.
    + exact IH.
Qed.

Lemma lookup_remove b k l :
  String.eqb b k = false -> lookup b (remove k l) = lookup b l.
Proof.
  intros Hbk. induction l as [|[k' x] r IH]; simpl; [reflexivity |].
  destruct (String.eqb k k') eqn:Ekk; simpl.
  - apply String.eqb_eq in Ekk. subst k'. rewrite Hbk. reflexivity.
  - rewrite IH. reflexivity.
Qed.

Lemma lookup_app b l l' x : lookup b l = Some x -> lookup b (l ++ l') = Some x.
Proof.
  induction l as [|[k' y] r IH]; simpl; [discriminate |].
  destruct (String.eqb b k'); auto.
Qed.

Lemma lookup_In k l x : distinctKeys l = true -> In (k, x) l -> lookup k l = Some x.
Proof.
  induction l as [|[k' y] r IH]; simpl; intros Hd Hin; [contradiction |].
  apply andb_true_iff in Hd. destruct Hd as [Hh Hd].
  destruct Hin as [Heq | Hin].
  - inversion Heq; subst. rewrite String.eqb_refl. reflexivity.
  - destruct (String.eqb k k') eqn:Ekk; [| auto].
    apply String.eqb_eq in Ekk. subst k'.
    rewrite (hasKey_In k r x Hin) in Hh. discriminate.
Qed.

Lemma properMaps_field fs k x :
  properMaps (VStruct fs) = true -> lookup k fs = Some x -> properMaps x = true.
Proof.
  simpl. induction fs as [|[k' y] r IH]; simpl; intros Hp Hl; [discriminate |].
  apply andb_true_iff in Hp. destruct Hp as [Hy Hr].
  destruct (String.eqb k k'); [ret_inv Hl; assumption | auto].
Qed.

Lemma properMaps_entry t m k x :
  properMaps (VMap t m) = true -> In (k, x) m -> properMaps x = true.
Proof.
  simpl. intros Hp Hin. apply andb_true_iff in Hp. destruct Hp as [_ Hp].
  rewrite forallb_forall in Hp. exact (Hp _ Hin).
Qed.

Section Peeking.
Context {L : Library} {RT : Runtime}.

(** The first field that matches a name up to case is the field of its
    name. *)
Lemma lookupFold_lookup name l k x :
  lookupFold name l = Some (k, x) -> lookup k l = Some x.
Proof.
  induction l as [|[k' y] r IH]; simpl; [discriminate |].
  destruct (EqualFold name k') eqn:E; intros H.
  - ret_inv H. rewrite String.eqb_refl. reflexivity.
  - destruct (String.eqb k k') eqn:Ekk; [| auto].
    apply String.eqb_eq in Ekk. subst k'.
    apply lookupFold_Some in H. destruct H as [_ H]. congruence.
Qed.

(** Below a stored struct, map or pointer, a path leads where it led in the
    value before it was converted or assigned. *)
Lemma peek_stored b q dv t :
  container dv = true ->
  peek (b :: q) (convert dv t) = peek (b :: q) dv /\
  peek (b :: q) (assign dv t) = peek (b :: q) dv.
Proof.
  intros Hc. rewrite (convert_container dv t Hc), (assign_container dv t Hc).
  destruct t; auto.
Qed.

Lemma write_peek p : forall q v d a st res x0,
  divergeb p q = true ->
  properMaps d = true ->
  write p v (mkValue (Some d) a false) = Ret (st, res, None) ->
  peek q d = Some x0 ->
  exists dv, data res = Some dv /\ peek q dv = Some x0.
Proof.
  induction p as [|name rest IH]; intros q v d a st res x0 Hdiv Hpm Hw Hp;
    [discriminate |].
  destruct q as [|b q']; [discriminate |].
  simpl in Hw, Hp, Hdiv.
  (* below the field or entry that both paths go through *)
  assert (Hbelow : forall x ad x' e t,
            EqualFold name b = true -> properMaps x = true ->
            write rest v (mkValue (Some x) ad false) = Ret (x', e, None) ->
            peek q' x = Some x0 ->
            exists dv, data e = Some dv /\
                       peek q' (convert dv t) = Some x0 /\
                       peek q' (assign dv t) = Some x0).
  { intros x ad x' e t Eab Hfx Hrec Hpx. rewrite Eab in Hdiv.
    destruct (IH q' v x ad x' e x0 Hdiv Hfx Hrec Hpx) as [dv [Hd Hpd]].
    exists dv. split; [assumption |].
    destruct rest as [|n' rest']; [discriminate |].
    destruct q' as [|b' q'']; [simpl in Hdiv; discriminate |].
    destruct (write_container n' rest' v (mkValue (Some x) ad false) x' e eq_refl Hrec)
      as [dv0 [Hd0 [Hc _]]].
    rewrite Hd in Hd0. ret_inv Hd0.
    destruct (peek_stored b' q'' dv0 t Hc) as [H1 H2].
    rewrite H1, H2. auto. }
  revert a st res Hpm Hw Hp.
  induction d; intros a st res Hpm Hw Hp; try (simpl in Hw; discriminate).
  - (* struct *)
    apply writeAt_struct in Hw.
    destruct Hw as (fname & x & x' & e & dv & Hl & Hexp & Hrec & Hd & Hconv & Hres).
    eexists. split; [exact Hres |].
    simpl in Hp |- *. rewrite lookup_update.
    destruct (lookup b fields) as [xg|] eqn:Eb; [| discriminate].
    destruct (String.eqb b fname) eqn:Ebf; [| assumption].
    apply String.eqb_eq in Ebf. subst b.
    pose proof (lookupFold_lookup _ _ _ _ Hl) as Hx. rewrite Eb in Hx. ret_inv Hx.
    pose proof (lookupFold_Some _ _ _ _ Hl) as [_ Hnf].
    destruct (Hbelow x a x' e (typeOf x) Hnf) as (dv' & Hd' & Hc' & _);
      [eapply properMaps_field; eauto | assumption | assumption |].
    rewrite Hd in Hd'. ret_inv Hd'. assumption.
  - (* map *)
    simpl in Hp.
    destruct (lookup b entries) as [xg|] eqn:Eb; [| discriminate].
    destruct (lookupFold name (mapRange entries)) as [[k x]|] eqn:Ek.
    + destruct (writeAt_map_old _ _ _ _ _ _ _ _ _ Hw Ek) as (x' & e & Hrec & Hm).
      pose proof (ranged_Some _ _ _ _ Ek) as [Hink Hnk].
      destruct (String.eqb b k) eqn:Ebk.
      * apply String.eqb_eq in Ebk. subst b.
        assert (Hdk : distinctKeys entries = true).
        { simpl in Hpm. apply andb_true_iff in Hpm. tauto. }
        rewrite (lookup_In k entries x Hdk Hink) in Eb. ret_inv Eb.
        destruct (Hbelow xg false x' e elem Hnk) as (dv' & Hd' & _ & Ha');
          [eapply properMaps_entry; eauto | assumption | assumption |].
        rewrite Hd' in Hm. destruct Hm as [_ Hres].
        eexists. split; [exact Hres |]. simpl.
        rewrite lookup_update, String.eqb_refl, (lookup_In k entries xg Hdk Hink).
        assumption.
      * destruct (data e) as [dv|].
        -- destruct Hm as [_ Hres]. eexists. split; [exact Hres |]. simpl.
           rewrite lookup_update, Ebk, Eb. assumption.
        -- eexists. split; [exact Hm |]. simpl.
           rewrite (lookup_remove b k entries Ebk), Eb. assumption.
    + destruct (writeAt_map_new _ _ _ _ _ _ _ Hw Ek) as (x' & e & dv & Hrec & Hd & Hconv & Hres).
      eexists. split; [exact Hres |]. simpl.
      rewrite (lookup_app b entries _ xg Eb). assumption.
  - (* pointer *)
    apply writeAt_ptr in Hw. destruct Hw as (x' & e & dv & Hrec & Hd & Hres).
    simpl in Hpm, Hp.
    destruct (IHd true x' e Hpm Hrec Hp) as [dv' [Hd' Hp']].
    rewrite Hd in Hd'. ret_inv Hd'.
    eexists. split; [exact Hres |]. exact Hp'.
  - (* interface *)
    apply writeAt_iface in Hw. destruct Hw as (x' & e & dv & Hrec & Hd & Hres).
    simpl in Hpm, Hp.
    destruct (IHd false x' e Hpm Hrec Hp) as [dv' [Hd' Hp']].
    rewrite Hd in Hd'. ret_inv Hd'.
    eexists. split; [exact Hres |]. exact Hp'.
Qed.

End Peeking.

(** ** The frame where a call fails *)

Lemma Key_raised path e :
  Key (raised path e) = Strings.Join (path ++ [Key e]) ".".
Proof.
  induction path as [|name path IH]; [reflexivity |].
  simpl raised. rewrite Key_From, IH.
  destruct path; reflexivity.
Qed.

Lemma firstn_nth (l : list string) n :
  (n < List.length l)%nat -> firstn (S n) l = (firstn n l ++ [nth n l ""])%list.
Proof.
  revert n. induction l as [|a l IH]; intros n Hn; [simpl in Hn; lia |].
  destruct n as [|n]; [reflexivity |].
  simpl in Hn. change (a :: firstn (S n) l = a :: (firstn n l ++ [nth n l ""])%list).
  rewrite IH by lia. reflexivity.
Qed.

Lemma raisedFrom_intro key n e0 :
  (n < List.length key)%nat -> Key e0 = nth n key "" ->
  raisedFrom key n e0 (raised (firstn n key) e0).
Proof.
  intros Hn Hk. split; [assumption |]. split; [reflexivity |].
  rewrite Key_raised, Hk, <- firstn_nth by assumption. reflexivity.
Qed.

Lemma Key_localError name el : Key (localError name el) = name.
Proof.
  unfold localError.
  destruct (match data el with Some d => stopKind d | None => Invalid end); reflexivity.
Qed.

Section Frames.
Context {L : Library} {RT : Runtime}.

(** *** read *)

Lemma readAt_child_none name recurse d : forall addr ro,
  childAt false name d addr ro = None ->
  exists r, readAt name recurse d addr ro
            = Ret (r, Some (localError name (mkValue (Some d) addr ro))).
Proof.
  induction d; intros addr ro H; simpl in H |- *;
    try (eexists; reflexivity); try discriminate.
  - destruct (lookupFold name fields) as [[fname x]|]; [discriminate |].
    eexists; reflexivity.
  - destruct (lookupFold name (mapRange entries)) as [[k x]|]; [discriminate |].
    eexists; reflexivity.
  - destruct (IHd true ro H) as [r Hr]. exists r. exact Hr.
  - destruct (IHd false ro H) as [r Hr]. exists r. exact Hr.
Qed.

Lemma readAt_child_some name recurse d : forall addr ro x,
  childAt false name d addr ro = Some x ->
  readAt name recurse d addr ro =
  ('(v, err) <- recurse x ;;
   match err with
   | Some err => Ret (v, Some (From err name))
   | None => Ret (v, None)
   end).
Proof.
  induction d; intros addr ro x0 H; simpl in H |- *; try discriminate; auto.
  - destruct (lookupFold name fields) as [[fname x]|]; [| discriminate].
    ret_inv H. reflexivity.
  - destruct (lookupFold name (mapRange entries)) as [[k x]|]; [| discriminate].
    ret_inv H. reflexivity.
Qed.

Lemma read_child_none name rest el :
  child false name el = None ->
  exists r, read (name :: rest) el = Ret (r, Some (localError name el)).
Proof.
  unfold child. destruct el as [[d|] addr ro]; simpl.
  - apply readAt_child_none.
  - intros _. eexists. reflexivity.
Qed.

Lemma read_child_some name rest el x :
  child false name el = Some x ->
  read (name :: rest) el =
  ('(v, err) <- read rest x ;;
   match err with
   | Some err => Ret (v, Some (From err name))
   | None => Ret (v, None)
   end).
Proof.
  unfold child. destruct el as [[d|] addr ro]; simpl; [| discriminate].
  apply readAt_child_some.
Qed.

Lemma read_stops key : forall el r e,
  read key el = Ret (r, Some e) ->
  exists n x, stopsAt false key el n x /\
              e = raised (firstn n key) (localError (nth n key "") x).
Proof.
  induction key as [|name rest IH]; intros el r e H.
  - simpl in H. bind_inv H. discriminate.
  - destruct (child false name el) as [x|] eqn:Hc.
    + rewrite (read_child_some name rest el x Hc) in H.
      bind_inv H. destruct a as [v [e0|]]; [| discriminate]. ret_inv H.
      destruct (IH _ _ _ E) as (n & x' & (Hn & Hd & Hx) & He).
      exists (S n), x'. split.
      * split; [simpl; lia |]. split; [simpl; rewrite Hc; exact Hd | exact Hx].
      * simpl. rewrite He. reflexivity.
    + destruct (read_child_none name rest el Hc) as [r' Hr'].
      rewrite Hr' in H. ret_inv H.
      exists 0%nat, el. split; [| reflexivity].
      split; [simpl; lia |]. split; [reflexivity | exact Hc].
Qed.

Lemma stops_read key : forall el n x,
  stopsAt false key el n x ->
  exists r, read key el
            = Ret (r, Some (raised (firstn n key) (localError (nth n key "") x))).
Proof.
  induction key as [|name rest IH]; intros el n x (Hn & Hd & Hx); [simpl in Hn; lia |].
  destruct n as [|n].
  - simpl in Hd, Hx. ret_inv Hd. apply read_child_none. assumption.
  - simpl in Hd, Hx. destruct (child false name el) as [x'|] eqn:Hc; [| discriminate].
    destruct (IH x' n x) as [r Hr].
    { split; [simpl in Hn; lia |]. split; assumption. }
    exists r. rewrite (read_child_some name rest el x' Hc), Hr. reflexivity.
Qed.

(** *** write *)

Lemma writeAt_child_none name recurse d : forall addr ro,
  childAt true name d addr ro = None ->
  writeAt name recurse d addr ro
  = Ret (Some d, mkValue (Some d) addr ro,
         Some (localError name (mkValue (Some d) addr ro))).
Proof.
  induction d; intros addr ro H; simpl in H |- *; try reflexivity; try discriminate.
  - destruct (lookupFold name fields) as [[fname x]|]; [discriminate | reflexivity].
  - destruct (lookupFold name (mapRange entries)) as [[k x]|]; discriminate.
  - rewrite (IHd true ro H). reflexivity.
  - rewrite (IHd false ro H). reflexivity.
Qed.

Lemma writeAt_child_err name recurse d : forall addr ro x st0 v0 e0,
  childAt true name d addr ro = Some x ->
  recurse x = Ret (st0, v0, Some e0) ->
  exists st res, writeAt name recurse d addr ro = Ret (st, res, Some (From e0 name)).
Proof.
  induction d; intros addr ro x0 st0 v0 e0 H Hrec; simpl in H |- *; try discriminate.
  - destruct (lookupFold name fields) as [[fname x]|]; [| discriminate].
    ret_inv H. rewrite Hrec. simpl. eexists; eexists; reflexivity.
  - ret_inv H. rewrite mapRange_nil. simpl. rewrite Hrec. simpl.
    eexists; eexists; reflexivity.
  - destruct (lookupFold name (mapRange entries)) as [[k x]|]; ret_inv H;
      rewrite Hrec; simpl; eexists; eexists; reflexivity.
  - destruct (IHd true ro _ _ _ _ H Hrec) as (st & res & Hw).
    rewrite Hw. simpl. eexists; eexists; reflexivity.
  - destruct (IHd false ro _ _ _ _ H Hrec) as (st & res & Hw).
    rewrite Hw. simpl. eexists; eexists; reflexivity.
Qed.

Lemma writeAt_child_panic name recurse d : forall addr ro x msg,
  childAt true name d addr ro = Some x ->
  recurse x = Panic msg ->
  writeAt name recurse d addr ro = Panic msg.
Proof.
  induction d; intros addr ro x0 msg H Hrec; simpl in H |- *; try discriminate.
  - destruct (lookupFold name fields) as [[fname x]|]; [| discriminate].
    ret_inv H. rewrite Hrec. reflexivity.
  - ret_inv H. rewrite mapRange_nil. simpl. rewrite Hrec. reflexivity.
  - destruct (lookupFold name (mapRange entries)) as [[k x]|]; ret_inv H;
      rewrite Hrec; reflexivity.
  - rewrite (IHd true ro _ _ H Hrec). reflexivity.
  - rewrite (IHd false ro _ _ H Hrec). reflexivity.
Qed.

(** After the write below returned without error, a frame fails only by
    refusing what it returned. *)
Lemma writeAt_child_refuses name recurse d : forall addr ro x st0 v0 st res e,
  childAt true name d addr ro = Some x ->
  recurse x = Ret (st0, v0, None) ->
  writeAt name recurse d addr ro = Ret (st, res, Some e) ->
  checksAt name d = true /\
  exists dx, data x = Some dx /\
             CanConvert v0 (typeOf dx) = Ret false /\
             e = ErrIncompatibleType (mkConfigurationError name) (TypeString (typeOf dx)).
Proof.
  induction d; intros addr ro x0 st0 v0 st res e H Hrec Hw; simpl in H, Hw;
    try discriminate.
  - destruct (lookupFold name fields) as [[fname x]|]; [| discriminate].
    ret_inv H. rewrite Hrec in Hw. simpl in Hw.
    bind_inv Hw. destruct a; simpl in Hw.
    + destruct (CanSet _); simpl in Hw; repeat bind_inv Hw; discriminate.
    + ret_inv Hw. split; [reflexivity |]. exists x. auto.
  - ret_inv H. rewrite mapRange_nil in Hw. simpl in Hw. rewrite Hrec in Hw. simpl in Hw.
    bind_inv Hw. destruct a; simpl in Hw.
    + repeat bind_inv Hw. discriminate.
    + ret_inv Hw. split; [reflexivity |]. exists (zero elem). rewrite typeOf_zero. auto.
  - simpl. destruct (lookupFold name (mapRange entries)) as [[k x]|]; ret_inv H;
      rewrite Hrec in Hw; simpl in Hw.
    + bind_inv Hw. discriminate.
    + bind_inv Hw. destruct a; simpl in Hw.
      * repeat bind_inv Hw. discriminate.
      * ret_inv Hw. split; [reflexivity |]. exists (zero elem). rewrite typeOf_zero. auto.
  - bind_inv Hw. destruct a as [[x' v] [err|]].
    + ret_inv Hw. eapply IHd; eauto.
    + destruct (CanAddr v); [destruct (data v); discriminate |].
      repeat bind_inv Hw. discriminate.
  - bind_inv Hw. destruct a as [[x' v] [err|]].
    + ret_inv Hw. eapply IHd; eauto.
    + bind_inv Hw. discriminate.
Qed.

(** And a frame that checks refuses what cannot be converted. *)
Lemma writeAt_child_refused name recurse d : forall addr ro x dx st0 v0,
  childAt true name d addr ro = Some x ->
  checksAt name d = true ->
  recurse x = Ret (st0, v0, None) ->
  data x = Some dx ->
  CanConvert v0 (typeOf dx) = Ret false ->
  exists st res,
    writeAt name recurse d addr ro
    = Ret (st, res,
           Some (ErrIncompatibleType (mkConfigurationError name) (TypeString (typeOf dx)))).
Proof.
  induction d; intros addr ro x0 dx st0 v0 H Hch Hrec Hdx Hcc; simpl in H, Hch |- *;
    try discriminate.
  - destruct (lookupFold name fields) as [[fname x]|]; [| discriminate].
    ret_inv H. simpl in Hdx. ret_inv Hdx. rewrite Hrec. simpl. rewrite Hcc. simpl.
    eexists; eexists; reflexivity.
  - ret_inv H. simpl in Hdx. ret_inv Hdx. rewrite typeOf_zero in *.
    rewrite mapRange_nil. simpl. rewrite Hrec. simpl. rewrite Hcc. simpl.
    eexists; eexists; reflexivity.
  - destruct (lookupFold name (mapRange entries)) as [[k x]|]; [discriminate |].
    ret_inv H. simpl in Hdx. ret_inv Hdx. rewrite typeOf_zero in *.
    rewrite Hrec. simpl. rewrite Hcc. simpl. eexists; eexists; reflexivity.
  - destruct (IHd true ro _ _ _ _ H Hch Hrec Hdx Hcc) as (st & res & Hw).
    rewrite Hw. simpl. eexists; eexists; reflexivity.
  - destruct (IHd false ro _ _ _ _ H Hch Hrec Hdx Hcc) as (st & res & Hw).
    rewrite Hw. simpl. eexists; eexists; reflexivity.
Qed.

Lemma write_child_none name rest value el :
  child true name el = None ->
  write (name :: rest) value el = Ret (data el, el, Some (localError name el)).
Proof.
  unfold child. destruct el as [[d|] addr ro]; simpl.
  - apply writeAt_child_none.
  - intros _. reflexivity.
Qed.

Lemma write_stops key value : forall el st res e,
  write key value el = Ret (st, res, Some e) ->
  exists n,
    (exists x, stopsAt true key el n x /\
               e = raised (firstn n key) (localError (nth n key "") x)) \/
    (exists T, refusesAt key value el n T /\
               e = raised (firstn n key)
                     (ErrIncompatibleType (mkConfigurationError (nth n key "")) (TypeString T))).
Proof.
  induction key as [|name rest IH]; intros el st res e H; [discriminate |].
  destruct (child true name el) as [x|] eqn:Hc.
  - assert (Hd : exists d, data el = Some d)
      by (unfold child in Hc; destruct (data el); [eauto | discriminate]).
    destruct Hd as [d Hd]. pose proof Hc as Hc'. unfold child in Hc. rewrite Hd in Hc.
    simpl in H. rewrite Hd in H.
    destruct (write rest value x) as [[[st0 v0] [e0|]]|s] eqn:Hrec.
    + destruct (writeAt_child_err name (write rest value) d _ _ x st0 v0 e0 Hc Hrec)
        as (st' & res' & Hw).
      rewrite Hw in H. ret_inv H.
      destruct (IH _ _ _ _ Hrec) as [n [(x' & (Hn & Hde & Hx) & He) | (T & (Hn & Hre) & He)]];
        exists (S n); [left; exists x' | right; exists T].
      * split; [| simpl; rewrite He; reflexivity].
        split; [simpl; lia |]. split; [| exact Hx].
        simpl. rewrite Hc'. exact Hde.
      * split; [| simpl; rewrite He; reflexivity].
        split; [simpl; lia |].
        destruct Hre as (el' & x' & dx & st1 & v1 & Hde & Hch & Hck & Hdx & HT & Hw1 & Hcc).
        exists el', x', dx, st1, v1. repeat split; try assumption.
        simpl. rewrite Hc'. exact Hde.
    + destruct (writeAt_child_refuses name (write rest value) d _ _ x st0 v0 st res e
                  Hc Hrec H) as (Hck & dx & Hdx & Hcc & He).
      exists 0%nat. right. exists (typeOf dx). split; [| simpl; exact He].
      split; [simpl; lia |].
      exists el, x, dx, st0, v0. repeat split; try assumption.
      unfold checks. simpl. rewrite Hd. exact Hck.
    + rewrite (writeAt_child_panic name (write rest value) d _ _ x s Hc Hrec) in H.
      discriminate.
  - rewrite (write_child_none name rest value el Hc) in H. ret_inv H.
    exists 0%nat. left. eexists. split; [| reflexivity].
    split; [simpl; lia |]. split; [reflexivity | exact Hc].
Qed.

Lemma stops_write key value : forall el n x,
  stopsAt true key el n x ->
  exists st res,
    write key value el
    = Ret (st, res, Some (raised (firstn n key) (localError (nth n key "") x))).
Proof.
  induction key as [|name rest IH]; intros el n x (Hn & Hd & Hx); [simpl in Hn; lia |].
  destruct n as [|n].
  - simpl in Hd, Hx. ret_inv Hd.
    rewrite (write_child_none name rest value _ Hx). eexists; eexists; reflexivity.
  - simpl in Hd, Hx. destruct (child true name el) as [x'|] eqn:Hc; [| discriminate].
    destruct (IH x' n x) as (st0 & v0 & Hw).
    { split; [simpl in Hn; lia |]. split; assumption. }
    unfold child in Hc. destruct (data el) as [d|] eqn:Hde; [| discriminate].
    simpl write. rewrite Hde.
    apply (writeAt_child_err name (write rest value) d _ _ x' st0 v0 _ Hc Hw).
Qed.

Lemma refuses_write key value : forall el n T,
  refusesAt key value el n T ->
  exists st res,
    write key value el
    = Ret (st, res,
           Some (raised (firstn n key)
                   (ErrIncompatibleType (mkConfigurationError (nth n key "")) (TypeString T)))).
Proof.
  induction key as [|name rest IH]; intros el n T (Hn & Hre); [simpl in Hn; lia |].
  destruct Hre as (el' & x & dx & st1 & v1 & Hde & Hch & Hck & Hdx & HT & Hw1 & Hcc).
  destruct n as [|n].
  - subst T. simpl in Hde, Hch, Hck, Hw1. ret_inv Hde.
    unfold child in Hch. unfold checks in Hck.
    destruct (data el') as [d|] eqn:Hd; [| discriminate].
    simpl write. rewrite Hd.
    exact (writeAt_child_refused name (write rest value) d _ _ x dx st1 v1
             Hch Hck Hw1 Hdx Hcc).
  - simpl in Hde, Hch, Hck, Hw1.
    destruct (child true name el) as [x'|] eqn:Hc; [| discriminate].
    destruct (IH x' n T) as (st0 & v0 & Hw).
    { split; [simpl in Hn; lia |]. exists el', x, dx, st1, v1. repeat split; assumption. }
    unfold child in Hc. destruct (data el) as [d|] eqn:Hd; [| discriminate].
    simpl write. rewrite Hd.
    apply (writeAt_child_err name (write rest value) d _ _ x' st0 v0 _ Hc Hw).
Qed.

End Frames.

(** ** The values that are read *)

Section ReadValues.
Context {L : Library}.

Lemma readAt_foldFree {RT : Runtime} name recurse :
  (forall x ad ro y, foldFree x = true ->
     recurse (mkValue (Some x) ad ro) = Ret (Boxed y, None) -> foldFree y = true) ->
  forall d addr ro y,
    foldFree d = true ->
    readAt name recurse d addr ro = Ret (Boxed y, None) -> foldFree y = true.
Proof.
  intros IH d. induction d; intros addr ro y Hff H; simpl in *; try discriminate; eauto.
  - destruct (lookupFold name fields) as [[fname x]|] eqn:El; [| discriminate].
    apply read_step in H. apply lookupFold_Some in El. destruct El as [Hin _].
    rewrite forallb_forall in Hff. pose proof (Hff _ Hin) as Hx. simpl in Hx. eauto.
  - apply andb_true_iff in Hff. destruct Hff as [_ Hff].
    destruct (lookupFold name (mapRange entries)) as [[k x]|] eqn:El; [| discriminate].
    apply read_step in H. apply ranged_Some in El. destruct El as [Hin _].
    rewrite forallb_forall in Hff. pose proof (Hff _ Hin) as Hx. simpl in Hx. eauto.
Qed.

(** The value read from a root whose maps have keys distinct up to case has
    such maps. *)
Lemma read_foldFree {RT : Runtime} q : forall d ad ro y,
  foldFree d = true ->
  read q (mkValue (Some d) ad ro) = Ret (Boxed y, None) -> foldFree y = true.
Proof.
  induction q as [|name q IH]; intros d ad ro y Hff H.
  - simpl in H. bind_inv H.
    unfold Interface_ in E. simpl in E. destruct ro; [discriminate |].
    destruct d; ret_inv E; simpl in H; inversion H; subst; simpl in *;
      assumption || reflexivity.
  - simpl in H. eapply readAt_foldFree; eauto.
Qed.

Lemma okOf_order (R R' : Runtime) q d ad ro :
  foldFree d = true ->
  okOf (read (RT := R) q (mkValue (Some d) ad ro))
  = okOf (read (RT := R') q (mkValue (Some d) ad ro)).
Proof.
  intros Hff.
  destruct (okOf (read (RT := R) q (mkValue (Some d) ad ro))) as [y|] eqn:E1.
  - apply okOf_Some in E1. symmetry. apply okOf_Some.
    exact (read_order R R' q d ad ad ro y Hff E1).
  - destruct (okOf (read (RT := R') q (mkValue (Some d) ad ro))) as [y|] eqn:E2;
      [| reflexivity].
    apply okOf_Some in E2. apply (read_order R' R q d ad ad ro y Hff) in E2.
    apply okOf_Some in E2. congruence.
Qed.

End ReadValues.

(** * The tests of [config_test.go] and the README *)

Module Tests.
Import Roots Run.

Example WriteStructString :
  okWrite (Write (New (Some (VPtr (VStruct [("Foo", VString "")])))) "foo"
             (Some (VString "Hello World!")))
  = Some (mkConfig (Some (VPtr (VStruct [("Foo", VString "Hello World!")])))).
Proof. reflexivity. Qed.

Example WriteStructInt :
  okWrite (Write (New (Some (VPtr (VStruct [("Foo", VInt Int 0)])))) "foo"
             (Some (VInt Int 12345)))
  = Some (mkConfig (Some (VPtr (VStruct [("Foo", VInt Int 12345)])))).
Proof. reflexivity. Qed.

Example WriteStructMap :
  okWrite (Write (New (Some (VPtr (VStruct [("Foo", VNilMap TString)])))) "foo.bar"
             (Some (VString "baz")))
  = Some (mkConfig (Some (VPtr (VStruct [("Foo", VMap TString [("bar", VString "baz")])])))).
Proof. reflexivity. Qed.

Example WriteMap :
  okWrite (Write (New (Some (VPtr (VMap TString [])))) "foo" (Some (VString "bar")))
  = Some (mkConfig (Some (VPtr (VMap TString [("foo", VString "bar")])))).
Proof. reflexivity. Qed.

Example WriteStructIncorrectString :
  Write (New (Some (VPtr (VStruct [("Foo", VString "")])))) "bar"
    (Some (VString "Hello World!"))
  = Ret (mkConfig (Some (VPtr (VStruct [("Foo", VString "")]))),
         Some (ErrNoSuchKey (mkConfigurationError "bar"))).
Proof. reflexivity. Qed.

Example WriteRead :
  match Write (New (Some (VPtr (VMap TString [])))) "foo" (Some (VString "bar")) with
  | Ret (c, None) => Read c "foo"
  | _ => Panic ""
  end = Ret (Boxed (VString "bar"), None).
Proof. reflexivity. Qed.

Example ReadString_my :
  ReadString (New (Some demo)) "my" = Ret ("Demo", None).
Proof. reflexivity. Qed.

Example Write_deep :
  match Write (New (Some demo)) "exotic.exotic.exotic.exotic.my" (Some (VString "Success!")) with
  | Ret (c, None) => ReadString c "Exotic.exotic.EXOTIC.exotic.My"
  | _ => Panic ""
  end = Ret ("Success!", None).
Proof. reflexivity. Qed.

(** Where nothing is shared, the engine on the store does what the engine
    on trees does: [A] and [B] have pointees of their own, the write of
    "a.x" changes the one, and "b.x" reads as before. *)
Example Write_own_pointee :
  Shared.Write 8 sharedRoot "a.x" (Some (Shared.CString "new")) (ownStore "old" "old")
  = Some (Ret (sharedRoot, None, ownStore "new" "old")) /\
  Shared.Read 8 sharedRoot "b.x" (ownStore "new" "old")
  = Some (Ret (Shared.Boxed (Shared.CString "old"), None, ownStore "new" "old")) /\
  Write (ownTree "old" "old") "a.x" (Some (VString "new")) = Ret (ownTree "new" "old", None) /\
  Read (ownTree "new" "old") "b.x" = Ret (Boxed (VString "old"), None).
Proof. repeat split. Qed.

(** [TestConfig_WriteStructString] and [TestConfig_WriteStructIncorrectString]
    on the store: the struct is variable 0. *)
Example WriteStructString_store :
  Shared.Write 8 (Shared.New (Some (Shared.CPtr (TStruct [("Foo", TString)]) (0%nat, []))))
    "foo" (Some (Shared.CString "Hello World!")) [Shared.CStruct [("Foo", Shared.CString "")]]
  = Some (Ret (Shared.New (Some (Shared.CPtr (TStruct [("Foo", TString)]) (0%nat, []))), None,
               [Shared.CStruct [("Foo", Shared.CString "Hello World!")]])) /\
  Shared.Write 8 (Shared.New (Some (Shared.CPtr (TStruct [("Foo", TString)]) (0%nat, []))))
    "bar" (Some (Shared.CString "Hello World!")) [Shared.CStruct [("Foo", Shared.CString "")]]
  = Some (Ret (Shared.New (Some (Shared.CPtr (TStruct [("Foo", TString)]) (0%nat, []))),
               Some (ErrNoSuchKey (mkConfigurationError "bar")),
               [Shared.CStruct [("Foo", Shared.CString "")]])).
Proof. split; reflexivity. Qed.

End Tests.
(** * The claims *)

Module Claims.
Import Roots Run.

(** ** C1 *)


Section C1.
Context {L : Library}.


End C1.


(** ** C2 *)

(** C2, the code breaks the claim.  The write descends through the pointer
    held by the interface and sets [A] in place; the pointer frame above
    then returns a [**struct], which the struct frame cannot convert to the
    field's type [*interface {}].  [Write] returns the error, and [Read]
    returns "new" where it returned "old" before the call. *)
Theorem Write_error_after_mutation :
  Read (boxedPointer "old") "f.a" = Ret (Boxed (VString "old"), None) /\
  Write (boxedPointer "old") "f.a" (Some (VString "new"))
  = Ret (boxedPointer "new",
         Some (ErrIncompatibleType (mkConfigurationError "f") "*interface {}")) /\
  Read (boxedPointer "new") "f.a" = Ret (Boxed (VString "new"), None).
Proof. repeat split. Qed.

(** ** C3 *)

(** C3, the code breaks the claim.  Storing back into a matched map entry
    checks nothing: a [bool] written over the [string] entry "Foo" makes
    [SetMapIndex] panic, where the same write under a new key fails with
    [IncompatibleType], as the claim says. *)
Theorem Write_matched_entry_panics :
  Write fooMap "foo" (Some (VBool true))
  = Panic "reflect.Value.SetMapIndex: value of type bool is not assignable to type string" /\
  Write fooMap "bar" (Some (VBool true))
  = Ret (fooMap, Some (ErrIncompatibleType (mkConfigurationError "bar") "string")).
Proof. split; reflexivity. Qed.

(** ** C4 *)

Section C4.
Context {L : Library} {RT : Runtime}.

(** C4.  A [Read] fails with an error exactly when a segment of the key
    selects nothing: the segments before it select fields and entries, and
    the frame reached makes the error with that segment alone as its key.
    A [Write] fails with an error exactly when a segment selects nothing, or
    when a frame refuses what the write below it returned (it cannot be
    converted to the type of the field, or of the new entry, that the
    segment selects); that frame makes the error with its segment alone.  In
    each case every struct or map frame above prepends, with [From], the
    segment it consumed, once: the key of the error that surfaces is the
    dotted path of the segments of the call's key up to the point of
    failure. *)
Theorem error_path (c : config) (key : string) (value : option value) (e : KeyError) :
  ((exists r, Read c key = Ret (r, Some e)) <-> stopped false c key e) /\
  ((exists c', Write c key value = Ret (c', Some e)) <->
   stopped true c key e \/ refused c key value e).
Proof.
  unfold stopped, refused, Read, Write. cbv zeta.
  set (segs := Strings.Split key dot). set (root := ValueOf (Data c)).
  split; split.
  - intros [r H]. destruct (read_stops segs root r e H) as (n & x & Hst & He).
    exists n, x. split; [exact Hst |]. subst e.
    apply raisedFrom_intro; [apply Hst | apply Key_localError].
  - intros (n & x & Hst & (_ & He & _)). subst e. apply stops_read. exact Hst.
  - intros [c' H]. bind_inv H. destruct a as [[st res] [err|]].
    + ret_inv H.
      destruct (write_stops segs value root st res e E)
        as [n [(x & Hst & He) | (T & Hre & He)]].
      * left. exists n, x. split; [exact Hst |]. subst e.
        apply raisedFrom_intro; [apply Hst | apply Key_localError].
      * right. exists n, T. split; [exact Hre |]. subst e.
        apply raisedFrom_intro; [apply Hre | reflexivity].
    + bind_inv H. discriminate.
  - intros [(n & x & Hst & (_ & He & _)) | (n & T & Hre & (_ & He & _))]; subst e.
    + destruct (stops_write segs value root n x Hst) as (st & res & Hw).
      rewrite Hw. simpl. eexists. reflexivity.
    + destruct (refuses_write segs value root n T Hre) as (st & res & Hw).
      rewrite Hw. simpl. eexists. reflexivity.
Qed.

End C4.

Lemma error_path_witness :
  stopped false nilPointer "p.x" (ErrUnhandledKind (mkConfigurationError "p.x") "invalid") /\
  Key (ErrUnhandledKind (mkConfigurationError "p.x") "invalid")
  = Strings.Join (firstn 2 (Strings.Split "p.x" dot)) ".".
Proof.
  assert (H : stopped false nilPointer "p.x"
                (ErrUnhandledKind (mkConfigurationError "p.x") "invalid")).
  { apply (proj1 (proj1 (error_path nilPointer "p.x" None _))).
    eexists. reflexivity. }
  split; [exact H | reflexivity].
Defined.

(** ** C5 *)

(** C5, counterexample.  [P] is a nil pointer: reading "p.x" fails with
    [UnhandledKind], not with [NoSuchKey]. *)
Lemma Read_nil_pointer_unhandled :
  exists r e,
    Read nilPointer "p.x" = Ret (r, Some e) /\
    e = ErrUnhandledKind (mkConfigurationError "p.x") "invalid" /\
    forall b, e <> ErrNoSuchKey b.
Proof.
  eexists. eexists. split; [reflexivity |]. split; [reflexivity |].
  intros b H. discriminate H.
Qed.

Section C5.
Context {L : Library}.

(** C5, as amended.  A read that reaches a nil pointer or a nil interface
    with a non-empty remaining path fails with [UnhandledKind], of kind
    "invalid", whose key is the first unconsumed segment. *)
Theorem read_empty_indirection {RT : Runtime} (name : string) (key : list string)
    (t : type) (addr ro : bool) :
  read (name :: key) (mkValue (Some (VNilPtr t)) addr ro)
  = Ret (BoxedValue zeroValue, Some (ErrUnhandledKind (mkConfigurationError name) "invalid")) /\
  read (name :: key) (mkValue (Some VNilIface) addr ro)
  = Ret (BoxedValue zeroValue, Some (ErrUnhandledKind (mkConfigurationError name) "invalid")).
Proof. split; reflexivity. Qed.

End C5.

(** ** C6 *)

(** C6, counterexample.  The write of "x" into a fresh [struct { X int }]
    succeeds, and the write of "p.x" through the nil pointer [P] to such a
    struct fails. *)
Lemma Write_nil_pointer_fails :
  (exists st res, write ["x"] (Some (VInt Int 5)) (mkValue (Some (zero inner)) true false)
                  = Ret (st, res, None)) /\
  Write nilPointer "p.x" (Some (VInt Int 5))
  = Ret (nilPointer, Some (ErrUnhandledKind (mkConfigurationError "p.x") "invalid")).
Proof. split; [eexists; eexists |]; reflexivity. Qed.

Section C6.
Context {L : Library}.

(** C6, as amended.  A write that reaches a nil pointer or a nil interface
    with segments remaining creates nothing: it fails with [UnhandledKind],
    of kind "invalid", carrying the first unconsumed segment, and leaves the
    indirection nil. *)
Theorem write_empty_indirection {RT : Runtime} (name : string) (key : list string)
    (value : option value) (t : type) (addr ro : bool) :
  write (name :: key) value (mkValue (Some (VNilPtr t)) addr ro)
  = Ret (Some (VNilPtr t), mkValue (Some (VNilPtr t)) addr ro,
         Some (ErrUnhandledKind (mkConfigurationError name) "invalid")) /\
  write (name :: key) value (mkValue (Some VNilIface) addr ro)
  = Ret (Some VNilIface, mkValue (Some VNilIface) addr ro,
         Some (ErrUnhandledKind (mkConfigurationError name) "invalid")).
Proof. split; reflexivity. Qed.

End C6.

(** ** C7 *)

(** C7, the code breaks the claim.  The switch of [ReadString] lists [Int],
    [Int8], [Int32] and [Int64]; an [int16] and the unsigned kinds fall to
    the conversion to [string], which makes a rune of the integer: 65 reads
    as "A", where an [int] 65 reads as "65". *)
Theorem ReadString_int16_is_a_rune :
  ReadString (New (Some (VStruct [("Foo", VInt Int16 65)]))) "foo" = Ret ("A", None) /\
  ReadString (New (Some (VStruct [("Foo", VInt Uint 65)]))) "foo" = Ret ("A", None) /\
  ReadString (New (Some (VStruct [("Foo", VInt Int 65)]))) "foo" = Ret ("65", None).
Proof. repeat split. Qed.

(** ** C8 *)


Section C8.
Context {L : Library}.


End C8.


(** ** C9 *)

Section C9.
Context {L : Library}.

(** C9.  A successful write into a map stores the result under the existing
    key that matches the segment up to case, keeping that key's casing and
    adding no key; when no key matches (as in a nil map) it adds the entry
    under the segment as it was given. *)
Theorem map_write_casing {RT : Runtime} (name : string) (rest : list string)
    (v : value) (d : value) (t : type) (addr ro : bool)
    (st : option value) (res : Value) :
  elemOf d = Some t ->
  write (name :: rest) (Some v) (mkValue (Some d) addr ro) = Ret (st, res, None) ->
  casing name rest v t (entriesOf d) res.
Proof.
  intros Ht H. unfold casing.
  destruct d as [| | | | | | t' | t' m | | | | |]; try discriminate; ret_inv Ht; simpl entriesOf.
  { (* a nil map *)
    rewrite mapRange_nil. simpl lookupFold.
    change (writeAt name (write rest (Some v)) (VNilMap t) addr ro = Ret (st, res, None)) in H.
    apply writeAt_nilmap in H. destruct H as (x' & e & dv & Hrec & Hd & _ & Hres).
    exists x', e, dv. auto. }
  destruct ro.
  { exfalso. simpl in H.
    destruct (lookupFold name (mapRange m)) as [[k x]|].
    - bind_inv H. destruct a as [[x' e] [err|]]; discriminate.
    - bind_inv H. destruct a as [[x' e] [err|]]; [discriminate |].
      bind_inv H. destruct a; simpl in H; [| discriminate].
      bind_inv H. discriminate. }
  change (writeAt name (write rest (Some v)) (VMap t m) addr false = Ret (st, res, None)) in H.
  destruct (lookupFold name (mapRange m)) as [[k x]|] eqn:Ek.
  - destruct (writeAt_map_old _ _ _ _ _ _ _ _ _ H Ek) as (x' & e & Hrec & Hm).
    apply ranged_Some in Ek. destruct Ek as [Hin _].
    assert (Hd : exists dv, data e = Some dv).
    { destruct rest as [|n' rest'].
      - apply write_nil in Hrec. eauto.
      - destruct (write_container n' rest' (Some v) (mkValue (Some x) false false)
                    x' e eq_refl Hrec) as [dv [Hd _]]. eauto. }
    destruct Hd as [dv Hd]. rewrite Hd in Hm. destruct Hm as [_ Hres].
    exists x', e, dv. repeat (split; [assumption |]).
    split; [apply update_keys |].
    apply in_map_iff. exists (k, x). auto.
  - destruct (writeAt_map_new _ _ _ _ _ _ _ H Ek) as (x' & e & dv & Hrec & Hd & _ & Hres).
    exists x', e, dv. auto.
Qed.

End C9.

Lemma map_write_casing_witness :
  elemOf (VMap TString [("Foo", VString "x")]) = Some TString /\
  write ["FOO"] (Some (VString "y")) (mkValue (Some (VMap TString [("Foo", VString "x")])) false false)
  = Ret (Some (VMap TString [("Foo", VString "y")]),
         mkValue (Some (VMap TString [("Foo", VString "y")])) false false, None) /\
  casing "FOO" [] (VString "y") TString [("Foo", VString "x")]
    (mkValue (Some (VMap TString [("Foo", VString "y")])) false false).
Proof.
  split; [reflexivity |]. split; [reflexivity |].
  apply (map_write_casing "FOO" [] (VString "y") (VMap TString [("Foo", VString "x")])
           TString false false (Some (VMap TString [("Foo", VString "y")])));
    reflexivity.
Defined.

(** ** C10 *)

(** C10, counterexample.  The empty key gives one segment, which is empty,
    and "a..b" has an empty segment between its dots. *)
Lemma Split_empty_segments :
  Strings.Split "" dot = [""] /\
  Strings.Split "a..b" dot = ["a"; ""; "b"] /\
  ~ Forall (fun seg => seg <> "") (Strings.Split "a..b" dot).
Proof.
  split; [reflexivity |]. split; [reflexivity |].
  intros H. simpl in H. inversion H as [|? ? _ H']. inversion H' as [|? ? Hne _].
  apply Hne. reflexivity.
Qed.

(** C10, as amended.  The path used for traversal is the key split on '.':
    at least one segment, none containing a dot, which joined by dots give
    the key.  A segment is empty exactly when the key is empty, starts or
    ends with a dot, or has two dots in a row; such segments reach the
    resolver as they are. *)
Theorem Split_key (key : string) :
  Strings.Split key dot <> [] /\
  Forall (fun seg => Strings.Contains seg dot = false) (Strings.Split key dot) /\
  Strings.Join (Strings.Split key dot) "." = key /\
  existsb isEmpty (Strings.Split key dot) = irregular key.
Proof.
  split.
  { destruct (Split_cons key dot) as [a [r H]]. rewrite H. discriminate. }
  split; [apply Split_Contains |].
  split; [apply Join_Split |].
  symmetry. apply Split_irregular.
Qed.

End Claims.

(** * Properties beyond the claims *)

Module Extras.
Import Roots Samples Run.

Section Casing.
Context {L : Library}.

(** X1.  [Read] does not tell keys apart whose segments are, one by one,
    equal up to case: on a root whose maps have keys distinct up to case,
    and in whatever order each call visits the maps, it returns a value for
    the one key exactly when it does for the other, and the same value. *)
Theorem Read_ignores_case (R R' : Runtime) (c : config) (key key' : string) :
  wellKeyed c = true ->
  foldEqual (Strings.Split key dot) (Strings.Split key' dot) ->
  okOf (Read (RT := R) c key) = okOf (Read (RT := R') c key').
Proof.
  intros Hk Hf. unfold Read, ValueOf, wellKeyed in *.
  destruct (Data c) as [d|].
  - pose proof (foldEqual_sym _ _ Hf) as Hf'.
    destruct (okOf (read (RT := R) (Strings.Split key dot) (mkValue (Some d) false false)))
      as [y|] eqn:E1.
    + apply okOf_Some in E1. symmetry. apply okOf_Some.
      exact (read_fold R R' _ _ Hf d false false y Hk E1).
    + destruct (okOf (read (RT := R') (Strings.Split key' dot) (mkValue (Some d) false false)))
        as [y|] eqn:E2; [| reflexivity].
      apply okOf_Some in E2. apply (read_fold R' R _ _ Hf' d false false y Hk) in E2.
      apply okOf_Some in E2. congruence.
  - destruct (Split_cons key dot) as [a [r Ha]].
    destruct (Split_cons key' dot) as [a' [r' Ha']]. rewrite Ha, Ha'. reflexivity.
Qed.


End Casing.

Lemma Read_ignores_case_witness :
  okOf (Read fooBar "bar") = Some (Boxed (VString "b")) /\
  okOf (Read fooBar "bar") = okOf (Read (RT := reversedRuntime) fooBar "BAR").
Proof.
  split; [reflexivity |].
  apply (Read_ignores_case listRuntime reversedRuntime fooBar "bar" "BAR");
    [reflexivity |].
  repeat constructor.
Defined.


Section Wrappers.
Context {L : Library}.

(** X3.  A [ReadWriter] built by [Sub] on [Sub] reads and writes the
    [config] at the bottom under one key: the prefixes, the innermost [Sub]
    first, and the key, joined by dots; the segments traversed are those of
    the prefixes followed by those of the key.  A [Write] changes that
    [config] and keeps the wrappers. *)
Theorem ReadWriter_resolves {RT : Runtime} (rw : ReadWriter) (key : string)
    (v : option value) :
  ReadWriter_Read rw key = Read (rootOf rw) (fullKey rw key) /\
  ReadWriter_ReadString rw key = ReadString (rootOf rw) (fullKey rw key) /\
  ReadWriter_Write rw key v =
    ('(c', err) <- Write (rootOf rw) (fullKey rw key) v ;; Ret (rebase rw c', err)) /\
  Strings.Split (fullKey rw key) dot = segments rw key.
Proof.
  split; [apply ReadWriter_Read_root |].
  split; [apply ReadWriter_ReadString_root |].
  split; [apply ReadWriter_Write_root |].
  apply Split_Join.
Qed.

(** X4.  The error of a call on a [ReadWriter] carries a path in the
    namespace of the [config] at the bottom: the dotted path of the first
    segments of the prefixes and the key, not a path relative to the [Sub]. *)
Theorem ReadWriter_error_path {RT : Runtime} (rw : ReadWriter) (key : string)
    (v : option value) (e : KeyError) :
  (exists r, ReadWriter_Read rw key = Ret (r, Some e)) \/
  (exists s, ReadWriter_ReadString rw key = Ret (s, Some e)) \/
  (exists rw', ReadWriter_Write rw key v = Ret (rw', Some e)) ->
  pathPrefix (segments rw key) e.
Proof.
  unfold segments. rewrite <- Split_Join. fold (fullKey rw key).
  destruct (failure_path (rootOf rw) (fullKey rw key)) as (HR & HS & HW).
  intros [[r H] | [[s H] | [rw' H]]].
  - rewrite ReadWriter_Read_root in H. eauto.
  - rewrite ReadWriter_ReadString_root in H. eauto.
  - rewrite ReadWriter_Write_root in H. bind_inv H. destruct a as [c' err].
    ret_inv H. eauto.
Qed.

(** X5.  Reading through [Sub(rw, prefix)] is reading in the value that
    [prefix] reads in [rw], when the maps of the root have keys distinct up
    to case: a key is read there exactly when it is read in a configuration
    made of that value, and gives the same value, in whatever order each of
    the three calls visits the maps. *)
Theorem Sub_reads_subtree (R1 R2 R3 : Runtime) (rw : ReadWriter) (prefix key : string)
    (x : value) :
  wellKeyed (rootOf rw) = true ->
  ReadWriter_Read (RT := R1) rw prefix = Ret (Boxed x, None) ->
  okOf (ReadWriter_Read (RT := R2) (OfSub rw prefix) key)
  = okOf (Read (RT := R3) (New (Some x)) key).
Proof.
  intros Hk H. rewrite (ReadWriter_Read_root (RT := R1)) in H.
  rewrite (ReadWriter_Read_root (RT := R2)). unfold Read, fullKey, wellKeyed in *.
  rewrite !Split_Join in *. simpl prefixes. rewrite flat_map_app. simpl flat_map.
  rewrite app_nil_r.
  set (p := (flat_map (fun p => Strings.Split p dot) (prefixes rw)
             ++ Strings.Split prefix dot)%list) in *.
  simpl rootOf. unfold ValueOf in *.
  destruct (Data (rootOf rw)) as [d|].
  - rewrite (read_app (RT := R2)).
    + rewrite (okOf_order R2 R1 p d false false Hk), H. simpl.
      apply okOf_order. exact (read_foldFree p d false false x Hk H).
    + destruct (Split_cons key dot) as [a [r Ha]]. rewrite Ha. discriminate.
  - exfalso. assert (Hp : p <> []).
    { unfold p. destruct (Split_cons prefix dot) as [a [r Ha]]. rewrite Ha.
      intros Hnil. apply app_eq_nil in Hnil. destruct Hnil. discriminate. }
    destruct p; [congruence | discriminate H].
Qed.

End Wrappers.

Lemma ReadWriter_error_path_witness :
  ReadWriter_Read (OfSub (OfConfig nilPointer) "p") "x"
  = Ret (BoxedValue zeroValue, Some (ErrUnhandledKind (mkConfigurationError "p.x") "invalid")) /\
  pathPrefix (segments (OfSub (OfConfig nilPointer) "p") "x")
    (ErrUnhandledKind (mkConfigurationError "p.x") "invalid").
Proof.
  split; [reflexivity |].
  apply (ReadWriter_error_path (OfSub (OfConfig nilPointer) "p") "x" None).
  left. eexists. reflexivity.
Defined.

Lemma Sub_reads_subtree_witness :
  ReadWriter_Read (OfConfig profiles) "default"
  = Ret (Boxed (VStruct [("Name", VString "n")]), None) /\
  okOf (ReadWriter_Read (OfSub (OfConfig profiles) "default") "name")
  = okOf (Read (New (Some (VStruct [("Name", VString "n")]))) "name").
Proof.
  split; [reflexivity |].
  apply (Sub_reads_subtree listRuntime listRuntime listRuntime (OfConfig profiles)
           "default" "name"); reflexivity.
Defined.

Section Unchanged.
Context {L : Library} {RT : Runtime}.

Lemma Write_error_keeps (c : config) (key : string) (v : option value)
    (c' : config) (e : KeyError) :
  wellKeyed c = true ->
  plainRoot c = true \/ isIncompatible e = false ->
  Write c key v = Ret (c', Some e) ->
  c' = c.
Proof.
  intros Hk Hs H. unfold Write in H.
  bind_inv H. destruct a as [[st res] [err|]]; [| bind_inv H; discriminate].
  ret_inv H. destruct c as [[d|]]; simpl in *.
  - f_equal. eapply write_error_keeps; [exact Hk | | exact E].
    destruct Hs as [Hp | Hs]; [left | right; assumption].
    unfold plainRoot in Hp. simpl in Hp.
    apply andb_true_iff in Hp. destruct Hp; assumption.
  - destruct (Split_cons key dot) as [a [r Ha]]. rewrite Ha in E.
    simpl in E. ret_inv E. reflexivity.
Qed.

End Unchanged.

Section Outcomes.
Context {L : Library}.

(** X6.  A [Write] that fails with [NoSuchKey] or [UnhandledKind] has
    changed nothing: the root is as it was before the call. *)
Theorem Write_error_unchanged {RT : Runtime} (c : config) (key : string)
    (v : option value) (c' : config) (e : KeyError) :
  wellKeyed c = true ->
  Write c key v = Ret (c', Some e) ->
  isIncompatible e = false ->
  c' = c.
Proof. intros Hk H He. eapply Write_error_keeps; eauto. Qed.

(** X7.  On a root that holds no pointer to an interface, a [Write] that
    returns an error, of whatever kind, has changed nothing. *)
Theorem Write_error_unchanged_plain {RT : Runtime} (c : config) (key : string)
    (v : option value) (c' : config) (e : KeyError) :
  wellKeyed c = true -> plainRoot c = true ->
  Write c key v = Ret (c', Some e) ->
  c' = c.
Proof. intros Hk Hp H. eapply Write_error_keeps; eauto. Qed.



(** X11.  Nil maps are created as deep as the key goes: into a nil
    [map[string]...map[string]T] with as many levels as the key has
    segments, behind a pointer, [Write] of a value convertible to [T]
    succeeds, and [Read] of the key returns the value converted to [T]. *)
Theorem Write_nested_nil_maps {RT : Runtime} (n : nat) (T : type) (key : string)
    (v : value) :
  List.length (Strings.Split key dot) = S n ->
  ConvertibleTo (typeOf v) T = true ->
  inRange v = true ->
  exists c',
    Write (New (Some (VPtr (VNilMap (nested n T))))) key (Some v) = Ret (c', None) /\
    Read c' key = Ret (anyOf (unbox (convert v T)), None).
Proof.
  intros Hlen Hc Hv.
  destruct (write_nested n (Strings.Split key dot) v T true false Hlen Hc) as [m Hm].
  destruct (Split_cons key dot) as [name [rest Hs]].
  assert (Hw : write (Strings.Split key dot) (Some v)
                 (mkValue (Some (VPtr (VNilMap (nested n T)))) false false)
               = Ret (Some (VPtr (VNilMap (nested n T))),
                      mkValue (Some (VPtr (VMap (nested n T) m))) false false, None)).
  { rewrite Hs in *.
    pose proof (write_Ptr name rest (Some v) (VNilMap (nested n T)) false false) as HP.
    cbv zeta in HP. rewrite HP. clear HP.
    change (Elem (mkValue (Some (VPtr (VNilMap (nested n T)))) false false))
      with (mkValue (Some (VNilMap (nested n T))) true false).
    rewrite Hm. simpl. unfold Set_, assignTo. simpl.
    rewrite type_eqb_refl. reflexivity. }
  exists (mkConfig (Some (VPtr (VMap (nested n T) m)))). split.
  - unfold Write, New, ValueOf. simpl Data. rewrite Hw. reflexivity.
  - destruct (write_read RT RT (Strings.Split key dot) (Strings.Split key dot) v
                (VPtr (VNilMap (nested n T)))
                false _ _ ltac:(rewrite Hs; discriminate) (foldEqual_refl _) eq_refl Hv Hw)
      as (dv & T' & Hdv & Hst & _ & Hr).
    simpl in Hdv. ret_inv Hdv.
    assert (T' = T).
    { rewrite Hs in Hst, Hlen. simpl in Hst.
      pose proof (slotType_nested n (name :: rest) T Hlen) as Hn. simpl in Hn.
      congruence. }
    subst T'. exact Hr.
Qed.

(** X12.  The kind an [UnhandledKind] of [Read] or [Write] names is never
    one the engine traverses: not "struct", "map", "ptr" or "interface". *)
Theorem UnhandledKind_not_traversed {RT : Runtime} (c : config) (key : string)
    (v : option value) (b : ConfigurationError) (k : string) :
  (exists r, Read c key = Ret (r, Some (ErrUnhandledKind b k))) \/
  (exists c', Write c key v = Ret (c', Some (ErrUnhandledKind b k))) ->
  traversed k = false.
Proof.
  intros [[r H] | [c' H]].
  - unfold Read in H. eapply read_kind; eauto.
  - unfold Write in H. bind_inv H. destruct a as [[st res] [err|]].
    + ret_inv H. eapply write_kind; eauto.
    + bind_inv H. discriminate.
Qed.


(** X15.  A [Write] through a [Sub] stays inside its prefix, in a root
    whose fields and entries share no pointer and no map (a [value] is such
    a root).  For every path that leaves the segments of the prefixes: the
    value the root has at the field or entry the path names before the
    write, it has there after it; and when the maps of the root have keys
    distinct up to case, what [read] returned for the path before, it
    returns after, in whatever order the calls visit the maps. *)
Theorem Sub_Write_stays_inside (W R R' : Runtime) (rw : ReadWriter) (key : string)
    (v : option value) (rw' : ReadWriter) (q : list string) :
  proper (rootOf rw) = true ->
  ReadWriter_Write (RT := W) rw key v = Ret (rw', None) ->
  divergeb (flat_map (fun p => Strings.Split p dot) (prefixes rw)) q = true ->
  (forall x, valueAt q (rootOf rw) = Some x -> valueAt q (rootOf rw') = Some x) /\
  (wellKeyed (rootOf rw) = true ->
   forall y, read (RT := R) q (ValueOf (Data (rootOf rw))) = Ret (y, None) ->
             read (RT := R') q (ValueOf (Data (rootOf rw'))) = Ret (y, None)).
Proof.
  intros Hpm Hw Hdiv. rewrite ReadWriter_Write_root in Hw.
  bind_inv Hw. destruct a as [c' err]. ret_inv Hw. rewrite rootOf_rebase.
  destruct (Write_ok _ _ _ _ E) as (d & st & res & dv & Hd & Hwr & Hdv & Hc & ->).
  unfold proper, wellKeyed in *. unfold valueAt, ValueOf in *. rewrite Hd in *. simpl Data.
  unfold fullKey in Hwr. rewrite Split_Join in Hwr.
  pose proof (divergeb_app _ (Strings.Split key dot) _ Hdiv) as Hdiv'.
  split.
  - intros x Hx.
    destruct (write_peek _ _ _ _ _ _ _ _ Hdiv' Hpm Hwr Hx) as [dv' [Hdv' Hp]].
    rewrite Hdv in Hdv'. ret_inv Hdv'. exact Hp.
  - intros Hk y Hr.
    destruct (write_frame W R R' _ _ _ _ _ _ _ _ Hdiv' Hk Hwr Hr) as [dv' [Hdv' Hr']].
    rewrite Hdv in Hdv'. ret_inv Hdv'. exact Hr'.
Qed.

(** X16.  An empty segment (from an empty key, or from a dot at an end or
    next to another) selects no field of a struct: [read] and [write] fail
    there with [NoSuchKey] whose key is empty, and [write] changes nothing. *)
Theorem empty_segment_selects_no_field {RT : Runtime} (rest : list string)
    (v : option value) (fs : list (string * value)) (addr ro : bool) :
  Forall (fun e => fst e <> "") fs ->
  read ("" :: rest) (mkValue (Some (VStruct fs)) addr ro)
  = Ret (Nil, Some (ErrNoSuchKey (mkConfigurationError ""))) /\
  write ("" :: rest) v (mkValue (Some (VStruct fs)) addr ro)
  = Ret (Some (VStruct fs), mkValue (Some (VStruct fs)) addr ro,
         Some (ErrNoSuchKey (mkConfigurationError ""))).
Proof.
  intros Hfs.
  assert (Hl : lookupFold "" fs = None).
  { apply lookupFold_absent. intros k x Hin. apply EqualFold_empty.
    rewrite Forall_forall in Hfs. exact (Hfs _ Hin). }
  split; simpl; rewrite Hl; reflexivity.
Qed.

End Outcomes.

Lemma Write_error_unchanged_witness :
  wellKeyed fooString = true /\
  Write fooString "bar" (Some (VString "x"))
  = Ret (fooString, Some (ErrNoSuchKey (mkConfigurationError "bar"))) /\
  fooString = fooString.
Proof.
  repeat (split; [reflexivity |]).
  apply (Write_error_unchanged fooString "bar" (Some (VString "x")) fooString
           (ErrNoSuchKey (mkConfigurationError "bar"))); reflexivity.
Defined.

Lemma Write_error_unchanged_plain_witness :
  wellKeyed fooMap = true /\ plainRoot fooMap = true /\
  Write fooMap "bar" (Some (VBool true))
  = Ret (fooMap, Some (ErrIncompatibleType (mkConfigurationError "bar") "string")) /\
  fooMap = fooMap.
Proof.
  repeat (split; [reflexivity |]).
  apply (Write_error_unchanged_plain fooMap "bar" (Some (VBool true)) fooMap
           (ErrIncompatibleType (mkConfigurationError "bar") "string")); reflexivity.
Defined.



Lemma Write_nested_nil_maps_witness :
  List.length (Strings.Split "a.b" dot) = 2%nat /\
  ConvertibleTo (typeOf (VString "v")) TString = true /\
  inRange (VString "v") = true /\
  exists c',
    Write (New (Some (VPtr (VNilMap (nested 1 TString))))) "a.b" (Some (VString "v"))
    = Ret (c', None) /\
    Read c' "a.b" = Ret (anyOf (unbox (convert (VString "v") TString)), None).
Proof.
  repeat (split; [reflexivity |]).
  apply (Write_nested_nil_maps 1 TString "a.b" (VString "v")); reflexivity.
Defined.

Lemma UnhandledKind_not_traversed_witness :
  Read nilPointer "p.x"
  = Ret (BoxedValue zeroValue, Some (ErrUnhandledKind (mkConfigurationError "p.x") "invalid")) /\
  traversed "invalid" = false.
Proof.
  split; [reflexivity |].
  apply (UnhandledKind_not_traversed nilPointer "p.x" None (mkConfigurationError "p.x")).
  left. eexists. reflexivity.
Defined.


Lemma Sub_Write_stays_inside_witness :
  ReadWriter_Write (OfSub (OfConfig twoProfiles) "default") "name" (Some (VString "m"))
  = Ret (OfSub (OfConfig twoProfilesWritten) "default", None) /\
  valueAt ["Other"; "Name"] twoProfilesWritten = Some (VString "o") /\
  read ["other"; "name"] (ValueOf (Data twoProfilesWritten)) = Ret (Boxed (VString "o"), None).
Proof.
  split; [reflexivity |].
  destruct (Sub_Write_stays_inside listRuntime listRuntime listRuntime
              (OfSub (OfConfig twoProfiles) "default") "name"
              (Some (VString "m")) (OfSub (OfConfig twoProfilesWritten) "default")
              ["Other"; "Name"]) as [Hv _]; try reflexivity.
  destruct (Sub_Write_stays_inside listRuntime listRuntime listRuntime
              (OfSub (OfConfig twoProfiles) "default") "name"
              (Some (VString "m")) (OfSub (OfConfig twoProfilesWritten) "default")
              ["other"; "name"]) as [_ Hr]; try reflexivity.
  split; [apply Hv; reflexivity | apply Hr; reflexivity].
Defined.

Lemma empty_segment_selects_no_field_witness :
  Forall (fun e : string * value => fst e <> "") [("Foo", VString "")] /\
  Read fooString "" = Ret (Nil, Some (ErrNoSuchKey (mkConfigurationError ""))).
Proof.
  assert (H : Forall (fun e : string * value => fst e <> "") [("Foo", VString "")])
    by (repeat constructor; discriminate).
  split; [exact H |].
  unfold Read, fooString, New, ValueOf. simpl Data. simpl Strings.Split.
  rewrite read_Ptr. unfold Elem. simpl.
  exact (proj1 (empty_segment_selects_no_field [] None [("Foo", VString "")] true false H)).
Defined.

End Extras.
